(** * gochen-llm: the provider dispatch core ([service/provider_manager.go])

    A shallow embedding of the dispatcher of [providerManagerImpl]:
    candidate selection, weighted start position, the failover walk with its
    breaker / ping / rate-limit gates, the token bucket, the health probe
    bookkeeping and the cooldown computation, followed by the properties of
    the written specification that concern them.

    Conventions.
    - Go [int] and [int64] are 64-bit two's complement integers, carried as
      [Z] with the wrap-around written out ([wrapInt64]); [uint32] and
      [uint64] counters are carried as [Z] reduced by [wrapUint32] and
      [wrapUint64].
    - [float64] is Rocq's primitive binary64 [float].
    - An instant ([time.Time]) is the number of nanoseconds since the Unix
      epoch; one clock serves for wall and monotonic readings.
    - [[]*endpointState] is a list of states updated by index: the pointers
      of the snapshot are shared by every reader, so the walk threads the
      whole list.
    - What the outside world answers (the clock, the health probe, the
      upstream client, the caller's context) is an explicit argument. *)

From Stdlib Require Import ZArith Lia Bool PrimFloat Uint63.
From Stdlib Require FloatAxioms SpecFloat FloatOps.
From stdpp Require Import base option list strings.

Local Open Scope Z_scope.

(** ** Machine integers *)

Definition wrapInt64 (z : Z) : Z := (z + 2 ^ 63) mod 2 ^ 64 - 2 ^ 63.
Definition wrapUint64 (z : Z) : Z := z mod 2 ^ 64.
Definition wrapUint32 (z : Z) : Z := z mod 2 ^ 32.

Definition MaxInt32 : Z := 2147483647.
Definition MaxInt64 : Z := 2 ^ 63 - 1.
Definition MinInt64 : Z := - 2 ^ 63.

(** [float64(x)] for an [int] / [int64] value [x]. *)
Definition float64_of_int (z : Z) : float :=
  if 0 <=? z then PrimFloat.of_uint63 (Uint63.of_Z z)
  else if z =? MinInt64 then (-9223372036854775808)%float
  else PrimFloat.opp (PrimFloat.of_uint63 (Uint63.of_Z (- z))).

(** [func maxInt(a, b int) int] *)
Definition maxInt (a b : Z) : Z := if a >? b then a else b.

(** ** Package [time] (the part the dispatcher uses) *)

Module time.

Definition Duration := Z.

Definition Millisecond : Duration := 10 ^ 6.
Definition Second : Duration := 10 ^ 9.
Definition Minute : Duration := 60 * Second.

Definition Time := Z.

(** The zero [Time] is January 1, year 1, 00:00:00 UTC. *)
Definition zeroTime : Time := -62135596800 * 10 ^ 9.

Definition IsZero (t : Time) : bool := t =? zeroTime.

(** [time.Unix(0, nsec)] *)
Definition Unix0 (nsec : Z) : Time := nsec.

(** [t.UnixNano()]: an [int64]. *)
Definition UnixNano (t : Time) : Z := wrapInt64 t.

(** [t.Unix()]: whole seconds since the epoch. *)
Definition Unix (t : Time) : Z := t / 10 ^ 9.

Definition Before (t u : Time) : bool := t <? u.

Definition Add (t : Time) (d : Duration) : Time := t + d.

(** [t.Sub(u)] saturates at the extreme durations. *)
Definition Sub (t u : Time) : Duration :=
  let d := t - u in
  if d >? MaxInt64 then MaxInt64
  else if d <? MinInt64 then MinInt64
  else d.

(** [d.Seconds()] *)
Definition Seconds (d : Duration) : float :=
  let sec := Z.quot d Second in
  let nsec := Z.rem d Second in
  PrimFloat.add (float64_of_int sec)
                (PrimFloat.div (float64_of_int nsec) 1e9%float).

(** [d.Milliseconds()] *)
Definition Milliseconds (d : Duration) : Z := Z.quot d Millisecond.

(** [time.Duration(n) * time.Second] for an [int] [n]. *)
Definition seconds (n : Z) : Duration := wrapInt64 (n * Second).

End time.

(** ** Errors *)

(** The codes of [gochen/errorx] that the manager uses. *)
Inductive ErrorCode := InvalidInput | Internal | Validation.

(** Why a context is done: [context.Canceled] or
    [context.DeadlineExceeded]. *)
Inductive ctxCause := Canceled | DeadlineExceeded.

Inductive error :=
| errorx_New (code : ErrorCode) (msg : string)
| errorx_Wrap (cause : error) (code : ErrorCode) (msg : string)
| context_Err (c : ctxCause)
| upstream_Err (msg : string).

(** [err.Error()]. Only errors of the upstream client reach the stored
    [lastError]; how [gochen/errorx] renders its own errors is that package's
    business and nothing below depends on it. *)
Fixpoint error_Error (e : error) : string :=
  match e with
  | errorx_New _ msg => msg
  | errorx_Wrap cause _ msg => msg +:+ ": " +:+ error_Error cause
  | context_Err Canceled => "context canceled"
  | context_Err DeadlineExceeded => "context deadline exceeded"
  | upstream_Err msg => msg
  end.

(** The messages of [ChatForUser] and [pingEndpoint]. *)
Definition msgCtxNil : string := "ctx 不能为空".
Definition msgReqNil : string := "LLM 请求不能为空".
Definition msgNotConfigured : string := "LLM 未配置".
Definition msgNoAvailableEndpoint : string := "没有可用的 LLM 端点".
Definition msgNoConcreteError : string := "LLM 调用失败但未返回具体错误".
Definition msgAllEndpointsFailed : string := "所有 LLM 端点调用失败".
Definition msgHealthPingFailed : string := "health ping failed".

(** ** Package [entity] and [client] *)

Module entity.

(** [ProviderConfig]: the fields the manager reads. *)
Record ProviderConfig := {
  Name : string;
  Provider : string;
  Model : string;
  Enabled : bool;
  Priority : Z;
  Weight : Z;
  TimeoutSeconds : Z;
  CooldownSeconds : Z;
  InputPricePer1k : float;
  OutputPricePer1k : float;
  HealthPingURL : string;
  HealthTimeoutSeconds : Z;
  MaxErrorStreak : Z;
  RecoverySuccesses : Z;
  RateLimitPerMin : Z;
  RateLimitBurst : Z
}.

End entity.

Module client.

Record ChatMessage := { Role : string; Content : string }.

Record ChatRequest := {
  System : string;
  Messages : list ChatMessage;
  MaxTokens : Z
}.

Record ChatResponse := { RespContent : string }.

End client.

Import entity.

(** ** Endpoint state *)

Record healthSample := {
  Timestamp : time.Time;
  Success : bool;
  StatusCode : Z;
  LatencyMs : Z;
  Error : string
}.

Record endpointStats := {
  totalRequests : Z;
  failures : Z;
  lastErrorAt : Z;
  lastLatencyMs : Z;
  failureStreak : Z;
  lastError : option string
}.

Record endpointState := {
  cfg : ProviderConfig;
  cooldownUntil : Z;
  healthFailedStreak : Z;
  healthSuccessStreak : Z;
  inCircuitOpen : Z;
  lastPingAt : Z;
  healthHistory : list healthSample;
  rateWindowStart : Z;
  rateCount : Z;
  rateTokens : float;
  rateLastRefill : time.Time;
  stats : endpointStats
}.

(** Field stores. *)

Definition set_totalRequests (v : Z) (s : endpointStats) : endpointStats :=
  {| totalRequests := v; failures := failures s; lastErrorAt := lastErrorAt s;
     lastLatencyMs := lastLatencyMs s; failureStreak := failureStreak s;
     lastError := lastError s |}.
Definition set_failures (v : Z) (s : endpointStats) : endpointStats :=
  {| totalRequests := totalRequests s; failures := v; lastErrorAt := lastErrorAt s;
     lastLatencyMs := lastLatencyMs s; failureStreak := failureStreak s;
     lastError := lastError s |}.
Definition set_lastErrorAt (v : Z) (s : endpointStats) : endpointStats :=
  {| totalRequests := totalRequests s; failures := failures s; lastErrorAt := v;
     lastLatencyMs := lastLatencyMs s; failureStreak := failureStreak s;
     lastError := lastError s |}.
Definition set_lastLatencyMs (v : Z) (s : endpointStats) : endpointStats :=
  {| totalRequests := totalRequests s; failures := failures s;
     lastErrorAt := lastErrorAt s; lastLatencyMs := v;
     failureStreak := failureStreak s; lastError := lastError s |}.
Definition set_failureStreak (v : Z) (s : endpointStats) : endpointStats :=
  {| totalRequests := totalRequests s; failures := failures s;
     lastErrorAt := lastErrorAt s; lastLatencyMs := lastLatencyMs s;
     failureStreak := v; lastError := lastError s |}.
Definition set_lastError (v : string) (s : endpointStats) : endpointStats :=
  {| totalRequests := totalRequests s; failures := failures s;
     lastErrorAt := lastErrorAt s; lastLatencyMs := lastLatencyMs s;
     failureStreak := failureStreak s; lastError := Some v |}.

Definition set_stats (f : endpointStats -> endpointStats) (ep : endpointState)
  : endpointState :=
  {| cfg := cfg ep; cooldownUntil := cooldownUntil ep;
     healthFailedStreak := healthFailedStreak ep;
     healthSuccessStreak := healthSuccessStreak ep;
     inCircuitOpen := inCircuitOpen ep; lastPingAt := lastPingAt ep;
     healthHistory := healthHistory ep; rateWindowStart := rateWindowStart ep;
     rateCount := rateCount ep; rateTokens := rateTokens ep;
     rateLastRefill := rateLastRefill ep; stats := f (stats ep) |}.
Definition set_cooldownUntil (v : Z) (ep : endpointState) : endpointState :=
  {| cfg := cfg ep; cooldownUntil := v;
     healthFailedStreak := healthFailedStreak ep;
     healthSuccessStreak := healthSuccessStreak ep;
     inCircuitOpen := inCircuitOpen ep; lastPingAt := lastPingAt ep;
     healthHistory := healthHistory ep; rateWindowStart := rateWindowStart ep;
     rateCount := rateCount ep; rateTokens := rateTokens ep;
     rateLastRefill := rateLastRefill ep; stats := stats ep |}.
Definition set_healthFailedStreak (v : Z) (ep : endpointState) : endpointState :=
  {| cfg := cfg ep; cooldownUntil := cooldownUntil ep;
     healthFailedStreak := v;
     healthSuccessStreak := healthSuccessStreak ep;
     inCircuitOpen := inCircuitOpen ep; lastPingAt := lastPingAt ep;
     healthHistory := healthHistory ep; rateWindowStart := rateWindowStart ep;
     rateCount := rateCount ep; rateTokens := rateTokens ep;
     rateLastRefill := rateLastRefill ep; stats := stats ep |}.
Definition set_healthSuccessStreak (v : Z) (ep : endpointState) : endpointState :=
  {| cfg := cfg ep; cooldownUntil := cooldownUntil ep;
     healthFailedStreak := healthFailedStreak ep;
     healthSuccessStreak := v;
     inCircuitOpen := inCircuitOpen ep; lastPingAt := lastPingAt ep;
     healthHistory := healthHistory ep; rateWindowStart := rateWindowStart ep;
     rateCount := rateCount ep; rateTokens := rateTokens ep;
     rateLastRefill := rateLastRefill ep; stats := stats ep |}.
Definition set_inCircuitOpen (v : Z) (ep : endpointState) : endpointState :=
  {| cfg := cfg ep; cooldownUntil := cooldownUntil ep;
     healthFailedStreak := healthFailedStreak ep;
     healthSuccessStreak := healthSuccessStreak ep;
     inCircuitOpen := v; lastPingAt := lastPingAt ep;
     healthHistory := healthHistory ep; rateWindowStart := rateWindowStart ep;
     rateCount := rateCount ep; rateTokens := rateTokens ep;
     rateLastRefill := rateLastRefill ep; stats := stats ep |}.
Definition set_lastPingAt (v : Z) (ep : endpointState) : endpointState :=
  {| cfg := cfg ep; cooldownUntil := cooldownUntil ep;
     healthFailedStreak := healthFailedStreak ep;
     healthSuccessStreak := healthSuccessStreak ep;
     inCircuitOpen := inCircuitOpen ep; lastPingAt := v;
     healthHistory := healthHistory ep; rateWindowStart := rateWindowStart ep;
     rateCount := rateCount ep; rateTokens := rateTokens ep;
     rateLastRefill := rateLastRefill ep; stats := stats ep |}.
Definition set_healthHistory (v : list healthSample) (ep : endpointState)
  : endpointState :=
  {| cfg := cfg ep; cooldownUntil := cooldownUntil ep;
     healthFailedStreak := healthFailedStreak ep;
     healthSuccessStreak := healthSuccessStreak ep;
     inCircuitOpen := inCircuitOpen ep; lastPingAt := lastPingAt ep;
     healthHistory := v; rateWindowStart := rateWindowStart ep;
     rateCount := rateCount ep; rateTokens := rateTokens ep;
     rateLastRefill := rateLastRefill ep; stats := stats ep |}.
Definition set_rateWindow (start count : Z) (ep : endpointState) : endpointState :=
  {| cfg := cfg ep; cooldownUntil := cooldownUntil ep;
     healthFailedStreak := healthFailedStreak ep;
     healthSuccessStreak := healthSuccessStreak ep;
     inCircuitOpen := inCircuitOpen ep; lastPingAt := lastPingAt ep;
     healthHistory := healthHistory ep; rateWindowStart := start;
     rateCount := count; rateTokens := rateTokens ep;
     rateLastRefill := rateLastRefill ep; stats := stats ep |}.
Definition set_bucket (tokens : float) (last : time.Time) (ep : endpointState)
  : endpointState :=
  {| cfg := cfg ep; cooldownUntil := cooldownUntil ep;
     healthFailedStreak := healthFailedStreak ep;
     healthSuccessStreak := healthSuccessStreak ep;
     inCircuitOpen := inCircuitOpen ep; lastPingAt := lastPingAt ep;
     healthHistory := healthHistory ep; rateWindowStart := rateWindowStart ep;
     rateCount := rateCount ep; rateTokens := tokens;
     rateLastRefill := last; stats := stats ep |}.

(** ** Registry: the state built by [loadEndpoints] for an enabled config *)

Definition emptyStats : endpointStats :=
  {| totalRequests := 0; failures := 0; lastErrorAt := 0; lastLatencyMs := 0;
     failureStreak := 0; lastError := None |}.

(** Lines 792-807 of [loadEndpoints]: bucket full, [rateLastRefill] = now,
    everything else at its zero value. *)
Definition newEndpointState (c : ProviderConfig) (now : time.Time) : endpointState :=
  let capacity := float64_of_int (wrapInt64 (RateLimitPerMin c + RateLimitBurst c)) in
  let capacity :=
    if PrimFloat.leb capacity 0 then float64_of_int (RateLimitPerMin c) else capacity in
  let capacity := if PrimFloat.ltb capacity 0 then 0%float else capacity in
  {| cfg := c; cooldownUntil := 0; healthFailedStreak := 0;
     healthSuccessStreak := 0; inCircuitOpen := 0; lastPingAt := 0;
     healthHistory := []; rateWindowStart := 0; rateCount := 0;
     rateTokens := capacity; rateLastRefill := now; stats := emptyStats |}.

(** ** Candidate selection *)

(** [p := ep.cfg.Priority; if p == 0 { p = 100 }] *)
Definition normPriority (ep : endpointState) : Z :=
  let p := Priority (cfg ep) in if p =? 0 then 100 else p.

(** The [for i, ep := range eps] loop of [selectCandidates]; [i] is the index
    of the head of [eps] in the snapshot. *)
Fixpoint selectCandidates_loop (now : time.Time) (eps : list endpointState)
    (i : nat) (minPri : Z) (candidates : list nat) : list nat :=
  match eps with
  | [] => candidates
  | ep :: rest =>
      if inCircuitOpen ep =? 1 then
        selectCandidates_loop now rest (S i) minPri candidates
      else
        let cd := cooldownUntil ep in
        if (cd >? 0) && time.Before now (time.Unix0 cd) then
          selectCandidates_loop now rest (S i) minPri candidates
        else
          let p := normPriority ep in
          if p <? minPri then
            selectCandidates_loop now rest (S i) p [i]
          else if p =? minPri then
            selectCandidates_loop now rest (S i) minPri (candidates ++ [i])
          else
            selectCandidates_loop now rest (S i) minPri candidates
  end.

Definition selectCandidates (eps : list endpointState) (now : time.Time) : list nat :=
  selectCandidates_loop now eps 0 MaxInt32 [].

(** First loop of [selectAllByMinPriority]. *)
Fixpoint minPriority_loop (eps : list endpointState) (minPri : Z) : Z :=
  match eps with
  | [] => minPri
  | ep :: rest =>
      if inCircuitOpen ep =? 1 then minPriority_loop rest minPri
      else
        let p := normPriority ep in
        if p <? minPri then minPriority_loop rest p
        else minPriority_loop rest minPri
  end.

(** Second loop of [selectAllByMinPriority]. *)
Fixpoint collectByPriority_loop (eps : list endpointState) (i : nat)
    (minPri : Z) (candidates : list nat) : list nat :=
  match eps with
  | [] => candidates
  | ep :: rest =>
      if inCircuitOpen ep =? 1 then
        collectByPriority_loop rest (S i) minPri candidates
      else if normPriority ep =? minPri then
        collectByPriority_loop rest (S i) minPri (candidates ++ [i])
      else
        collectByPriority_loop rest (S i) minPri candidates
  end.

Definition selectAllByMinPriority (eps : list endpointState) : list nat :=
  match eps with
  | [] => []
  | _ => collectByPriority_loop eps 0 (minPriority_loop eps MaxInt32) []
  end.

(** Lines 174-177 of [ChatForUser]. *)
Definition pickCandidates (eps : list endpointState) (now : time.Time) : list nat :=
  let candidates := selectCandidates eps now in
  if (length candidates =? 0)%nat then selectAllByMinPriority eps else candidates.

(** ** Weighted start position *)

(** [w := eps[idx].cfg.Weight; if w <= 0 { w = 100 }] *)
Definition effectiveWeight (ep : endpointState) : Z :=
  let w := Weight (cfg ep) in if w <=? 0 then 100 else w.

(** The 64-bit finalizer applied to [uint64(seed)]. *)
Definition mix64 (seed : Z) : Z :=
  let h := wrapUint64 seed in
  let h := Z.lxor h (Z.shiftr h 33) in
  let h := wrapUint64 (h * 0xff51afd7ed558ccd) in
  let h := Z.lxor h (Z.shiftr h 33) in
  let h := wrapUint64 (h * 0xc4ceb9fe1a85ec53) in
  Z.lxor h (Z.shiftr h 33).

(** First loop of [chooseWeightedStart]; [None] is the run-time panic of an
    index out of range. *)
Fixpoint totalWeight_loop (eps : list endpointState) (candidates : list nat)
    (totalWeight : Z) : option Z :=
  match candidates with
  | [] => Some totalWeight
  | idx :: rest =>
      ep ← eps !! idx;
      totalWeight_loop eps rest (wrapInt64 (totalWeight + effectiveWeight ep))
  end.

(** Second loop of [chooseWeightedStart]; falling out of it returns 0. *)
Fixpoint pickStart_loop (eps : list endpointState) (candidates : list nat)
    (i : nat) (point : Z) : option nat :=
  match candidates with
  | [] => Some 0%nat
  | idx :: rest =>
      ep ← eps !! idx;
      let w := effectiveWeight ep in
      if point <? w then Some i
      else pickStart_loop eps rest (S i) (wrapInt64 (point - w))
  end.

Definition chooseWeightedStart (eps : list endpointState) (candidates : list nat)
    (userID : Z) (now : time.Time) : option nat :=
  if (length candidates =? 0)%nat then Some 0%nat
  else
    totalWeight ← totalWeight_loop eps candidates 0;
    if totalWeight <=? 0 then Some 0%nat
    else
      let seed := if userID >? 0 then userID else time.UnixNano now in
      let h := mix64 seed in
      let point := h mod wrapUint64 totalWeight in
      pickStart_loop eps candidates 0 point.

(** ** Token bucket *)

Definition takeRateToken (ep : endpointState) (now : time.Time)
  : endpointState * bool :=
  let perMin := RateLimitPerMin (cfg ep) in
  if perMin <=? 0 then (ep, true)
  else
    let burst := RateLimitBurst (cfg ep) in
    let capacity := float64_of_int (wrapInt64 (perMin + burst)) in
    let capacity :=
      if PrimFloat.leb capacity 0 then float64_of_int perMin else capacity in
    let refillPerSec := PrimFloat.div (float64_of_int perMin) 60 in
    let '(tokens, last) :=
      if time.IsZero (rateLastRefill ep) then
        (if PrimFloat.eqb (rateTokens ep) 0 then capacity else rateTokens ep, now)
      else (rateTokens ep, rateLastRefill ep) in
    let '(tokens, last) :=
      if PrimFloat.ltb 0 refillPerSec then
        let elapsed := time.Seconds (time.Sub now last) in
        if PrimFloat.ltb 0 elapsed then
          let tokens := PrimFloat.add tokens (PrimFloat.mul elapsed refillPerSec) in
          (if PrimFloat.ltb capacity tokens then capacity else tokens, now)
        else (tokens, last)
      else (tokens, last) in
    if PrimFloat.leb 1 tokens then
      (set_bucket (PrimFloat.sub tokens 1) last ep, true)
    else (set_bucket tokens last ep, false).

Definition bumpRateWindow (ep : endpointState) (now : time.Time) : endpointState :=
  let nowMin := Z.quot (time.Unix now) 60 in
  let ep :=
    if negb (rateWindowStart ep =? nowMin) then set_rateWindow nowMin 0 ep else ep in
  set_rateWindow (rateWindowStart ep) (wrapInt64 (rateCount ep + 1)) ep.

(** ** Health probe *)

(** [clock] is what [time.Now()] answers when the sample has no timestamp. *)
Definition recordHealthSample (clock : time.Time) (ep : endpointState)
    (sample : healthSample) : endpointState :=
  let sample :=
    if time.IsZero (Timestamp sample) then
      {| Timestamp := clock; Success := Success sample;
         StatusCode := StatusCode sample; LatencyMs := LatencyMs sample;
         Error := Error sample |}
    else sample in
  let h := healthHistory ep ++ [sample] in
  let h := if (10 <? length h)%nat then drop (length h - 10) h else h in
  set_healthHistory h ep.

(** [attempts] of [pingEndpoint]: [recovery_successes] clamped to 2..5. *)
Definition probeAttempts (c : ProviderConfig) : Z :=
  let attempts := maxInt (RecoverySuccesses c) 1 in
  let attempts := if attempts <? 2 then 2 else attempts in
  if attempts >? 5 then 5 else attempts.

(** What the retried HTTP GET of [pingEndpoint] ([retry.DoWithInfo] with its
    closure) leaves behind: either some attempt was answered with a status
    below 400, or the retries ended with [err] and the closure's [lastErr]. *)
Inductive probeOutcome :=
| ProbeOk (statusCode latencyMs : Z)
| ProbeFailed (err : error) (lastErr : option error).

Definition errToString (err : option error) : string :=
  match err with None => "" | Some e => error_Error e end.

(** [ctxErr] is [ctx.Err()]; [sampleAt] and [recordAt] are the clock readings
    for the sample and inside [recordHealthSample]. *)
Definition pingEndpoint (ctxErr : option ctxCause) (probe : probeOutcome)
    (sampleAt recordAt : time.Time) (ep : endpointState)
  : endpointState * option error :=
  match probe with
  | ProbeOk statusCode latencyMs =>
      let ep := recordHealthSample recordAt ep
                  {| Timestamp := sampleAt; Success := true;
                     StatusCode := statusCode; LatencyMs := latencyMs;
                     Error := "" |} in
      let ep := set_healthFailedStreak 0 ep in
      let ep := set_healthSuccessStreak 0 ep in
      let ep := set_inCircuitOpen 0 ep in
      (ep, None)
  | ProbeFailed err lastErr =>
      match ctxErr with
      | Some c => (ep, Some (context_Err c))
      | None =>
          let lastErr := match lastErr with None => err | Some e => e end in
          let ep := set_healthSuccessStreak 0 ep in
          let failStreak := wrapUint32 (healthFailedStreak ep + 1) in
          let ep := set_healthFailedStreak failStreak ep in
          let ep :=
            if failStreak >=? maxInt (MaxErrorStreak (cfg ep)) 1
            then set_inCircuitOpen 1 ep else ep in
          let ep := recordHealthSample recordAt ep
                      {| Timestamp := sampleAt; Success := false;
                         StatusCode := 0; LatencyMs := 0;
                         Error := errToString (Some lastErr) |} in
          (ep, Some (errorx_New Internal msgHealthPingFailed))
      end
  end.

(** ** The failover walk *)

(** What the world answers during one iteration of the walk: one clock
    reading per [time.Now()] / [time.Since] of the loop body (named after the
    place that reads it), the outcome of the inline probe and the answer of
    [ep.client.Chat]. *)
Record visitEnv := {
  nowBreakerGate : time.Time;
  nowPingGate : time.Time;
  nowPingStamp : time.Time;
  probe : probeOutcome;
  nowSample : time.Time;
  nowRecord : time.Time;
  nowStart : time.Time;
  chat : client.ChatResponse + error;
  nowLatency : time.Time;
  nowSuccessStamp : time.Time;
  nowErrorStamp : time.Time;
  nowCooldown : time.Time
}.

(** What [ChatForUser] returns on success. *)
Record chatReply := {
  reply : client.ChatResponse;
  replyProvider : string;
  replyModel : string;
  replyLatency : Z;
  replyInputPrice : float;
  replyOutputPrice : float
}.

Inductive visitOutcome :=
| Skipped
| Succeeded (r : chatReply)
| Failed (err : error).

(** [time.Since(time.Unix(0, ep.lastPingAt))] read at clock [clock]. *)
Definition sinceLastPing (clock : time.Time) (ep : endpointState) : time.Duration :=
  time.Sub clock (time.Unix0 (lastPingAt ep)).

(** [time.Duration(maxInt(ep.cfg.HealthTimeoutSeconds, 1)) * time.Second] *)
Definition healthWindow (ep : endpointState) : time.Duration :=
  time.seconds (maxInt (HealthTimeoutSeconds (cfg ep)) 1).

(** Lines 189-195: the breaker gate; [true] means [continue]. *)
Definition breakerGateSkips (v : visitEnv) (ep : endpointState) : bool :=
  (inCircuitOpen ep =? 1)
  && (sinceLastPing (nowBreakerGate v) ep <? healthWindow ep).

(** Lines 197-203: the inline ping; the boolean is [false] when the probe
    failed and the endpoint is skipped. *)
Definition inlinePing (ctxErr : option ctxCause) (v : visitEnv)
    (ep : endpointState) : endpointState * bool :=
  if negb (String.eqb (HealthPingURL (cfg ep)) "")
     && (sinceLastPing (nowPingGate v) ep >? healthWindow ep)
  then
    let ep := set_lastPingAt (time.UnixNano (nowPingStamp v)) ep in
    match pingEndpoint ctxErr (probe v) (nowSample v) (nowRecord v) ep with
    | (ep, Some _) => (ep, false)
    | (ep, None) => (ep, true)
    end
  else (ep, true).

(** Lines 205-211: the rate-limit gate; [false] means [continue]. *)
Definition rateGate (now : time.Time) (ep : endpointState) : endpointState * bool :=
  if RateLimitPerMin (cfg ep) >? 0 then
    match takeRateToken ep now with
    | (ep, false) => (ep, false)
    | (ep, true) => (bumpRateWindow ep now, true)
    end
  else (ep, true).

(** Lines 217-237: a successful upstream call. *)
Definition handleSuccess (v : visitEnv) (resp : client.ChatResponse)
    (ep : endpointState) : endpointState * chatReply :=
  let ep := set_stats (set_failureStreak 0) ep in
  let latency := time.Milliseconds (time.Sub (nowLatency v) (nowStart v)) in
  let latency := if latency <? 0 then 0 else latency in
  let ep := set_stats (set_lastLatencyMs latency) ep in
  let ep := set_lastPingAt (time.UnixNano (nowSuccessStamp v)) ep in
  let ep :=
    if inCircuitOpen ep =? 1 then
      let ep := set_healthSuccessStreak (wrapUint32 (healthSuccessStreak ep + 1)) ep in
      if healthSuccessStreak ep >=? maxInt (RecoverySuccesses (cfg ep)) 1 then
        let ep := set_inCircuitOpen 0 ep in
        let ep := set_healthFailedStreak 0 ep in
        set_healthSuccessStreak 0 ep
      else ep
    else set_healthFailedStreak 0 ep in
  (ep, {| reply := resp; replyProvider := Provider (cfg ep);
          replyModel := Model (cfg ep); replyLatency := latency;
          replyInputPrice := InputPricePer1k (cfg ep);
          replyOutputPrice := OutputPricePer1k (cfg ep) |}).

(** Lines 252-269: the cooldown duration [cd], from the configured
    [cooldown_seconds] and the value [streak] that the increment of
    [stats.failureStreak] returned. *)
Definition cooldownDuration (cooldownSeconds streak : Z) : time.Duration :=
  let base := cooldownSeconds in
  let base := if base <=? 0 then 30 else base in
  let streak := if streak =? 0 then 1 else streak in
  let factorExp := wrapUint32 (streak - 1) in
  let factorExp := if factorExp >? 3 then 3 else factorExp in
  let factor := wrapInt64 (Z.shiftl 1 factorExp) in
  let cd := wrapInt64 (wrapInt64 (base * factor) * time.Second) in
  let maxCooldown := 5 * time.Minute in
  if cd >? maxCooldown then maxCooldown else cd.

(** Lines 239-271: a failed upstream call. *)
Definition handleFailure (v : visitEnv) (err : error) (ep : endpointState)
  : endpointState :=
  let ep := set_stats (fun s => set_failures (wrapUint64 (failures s + 1)) s) ep in
  let ep := set_stats (set_lastErrorAt (time.UnixNano (nowErrorStamp v))) ep in
  let ep := set_stats (set_lastError (error_Error err)) ep in
  let ep := set_healthSuccessStreak 0 ep in
  let failStreak := wrapUint32 (healthFailedStreak ep + 1) in
  let ep := set_healthFailedStreak failStreak ep in
  let ep :=
    if failStreak >=? maxInt (MaxErrorStreak (cfg ep)) 1
    then set_inCircuitOpen 1 ep else ep in
  let streak := wrapUint32 (failureStreak (stats ep) + 1) in
  let ep := set_stats (set_failureStreak streak) ep in
  let cd := cooldownDuration (CooldownSeconds (cfg ep)) streak in
  set_cooldownUntil (time.UnixNano (time.Add (nowCooldown v) cd)) ep.

(** Lines 213-279: the upstream call and what follows it. *)
Definition callUpstream (v : visitEnv) (ep : endpointState)
  : endpointState * visitOutcome :=
  let ep := set_stats (fun s => set_totalRequests (wrapUint64 (totalRequests s + 1)) s) ep in
  match chat v with
  | inl resp => let '(ep, r) := handleSuccess v resp ep in (ep, Succeeded r)
  | inr err => (handleFailure v err ep, Failed err)
  end.

(** The body of the [for] loop of [ChatForUser] for the endpoint [ep]. *)
Definition visit (ctxErr : option ctxCause) (now : time.Time) (v : visitEnv)
    (ep : endpointState) : endpointState * visitOutcome :=
  if breakerGateSkips v ep then (ep, Skipped)
  else
    match inlinePing ctxErr v ep with
    | (ep, false) => (ep, Skipped)
    | (ep, true) =>
        match rateGate now ep with
        | (ep, false) => (ep, Skipped)
        | (ep, true) => callUpstream v ep
        end
    end.

(** ** [ChatForUser] *)

(** The caller's context: what [ctx.Err()] answers during the [i]-th
    iteration of the walk. *)
Definition Context := nat -> option ctxCause.

Inductive dispatchResult :=
| Ok (r : chatReply)
| Err (e : error)
| Panic.

(** The walk: [n] iterations remain, [i] is the loop counter. *)
Fixpoint walk (ctx : Context) (now : time.Time) (env : nat -> visitEnv)
    (candidates : list nat) (startPos : nat) (n i : nat)
    (eps : list endpointState) (firstErr : option error)
  : list endpointState * dispatchResult :=
  match n with
  | O =>
      match firstErr with
      | None => (eps, Err (errorx_New Internal msgNoConcreteError))
      | Some e => (eps, Err (errorx_Wrap e Internal msgAllEndpointsFailed))
      end
  | S n' =>
      match candidates !! ((startPos + i) mod length candidates)%nat with
      | None => (eps, Panic)
      | Some idx =>
          match eps !! idx with
          | None => (eps, Panic)
          | Some ep =>
              let '(ep', out) := visit (ctx i) now (env i) ep in
              let eps' := <[idx := ep']> eps in
              match out with
              | Skipped => walk ctx now env candidates startPos n' (S i) eps' firstErr
              | Succeeded r => (eps', Ok r)
              | Failed err =>
                  walk ctx now env candidates startPos n' (S i) eps'
                       (match firstErr with None => Some err | Some e => Some e end)
              end
          end
      end
  end.

(** The world of one dispatch call: what [getOrLoadEndpoints] answers (an
    error, or the snapshot), the reading [now] of the clock at line 173, and
    the answers during each iteration of the walk. *)
Record world := {
  loadErr : option error;
  snapshot : list endpointState;
  clockNow : time.Time;
  visits : nat -> visitEnv
}.

(** [ctx] and [req] are [None] when the caller passes [nil]. The snapshot is
    returned with the states as the call leaves them. *)
Definition ChatForUser (ctx : option Context) (userID : Z)
    (req : option client.ChatRequest) (w : world)
  : list endpointState * dispatchResult :=
  match ctx with
  | None => (snapshot w, Err (errorx_New InvalidInput msgCtxNil))
  | Some ctx =>
      match req with
      | None => (snapshot w, Err (errorx_New InvalidInput msgReqNil))
      | Some _ =>
          match loadErr w with
          | Some err => (snapshot w, Err err)
          | None =>
              let eps := snapshot w in
              if (length eps =? 0)%nat then
                (eps, Err (errorx_New Internal msgNotConfigured))
              else
                let now := clockNow w in
                let candidates := pickCandidates eps now in
                if (length candidates =? 0)%nat then
                  (eps, Err (errorx_New Internal msgNoAvailableEndpoint))
                else
                  match chooseWeightedStart eps candidates userID now with
                  | None => (eps, Panic)
                  | Some startPos =>
                      walk ctx now (visits w) candidates startPos
                           (length candidates) 0 eps None
                  end
          end
      end
  end.

(** * Properties *)

(** ** Concrete configurations and worlds used by the examples *)

Definition exampleConfig (priority weight cooldownSeconds : Z) (pingURL : string)
    (healthTimeout maxErrorStreak recoverySuccesses perMin burst : Z)
  : ProviderConfig :=
  {| Name := "primary"; Provider := "mock"; Model := "m"; Enabled := true;
     Priority := priority; Weight := weight; TimeoutSeconds := 30;
     CooldownSeconds := cooldownSeconds;
     InputPricePer1k := 0%float; OutputPricePer1k := 0%float;
     HealthPingURL := pingURL; HealthTimeoutSeconds := healthTimeout;
     MaxErrorStreak := maxErrorStreak; RecoverySuccesses := recoverySuccesses;
     RateLimitPerMin := perMin; RateLimitBurst := burst |}.

(** An iteration during which every clock reading is [t]. *)
Definition stillEnv (t : time.Time) (p : probeOutcome)
    (c : client.ChatResponse + error) : visitEnv :=
  {| nowBreakerGate := t; nowPingGate := t; nowPingStamp := t; probe := p;
     nowSample := t; nowRecord := t; nowStart := t; chat := c;
     nowLatency := t; nowSuccessStamp := t; nowErrorStamp := t;
     nowCooldown := t |}.

Definition okResponse : client.ChatResponse := {| client.RespContent := "ok" |}.

(** ** Definitions used by the statements *)

(** The endpoint states after each of a run of consecutive failed calls. *)
Fixpoint consecutiveFailures (calls : list (visitEnv * error)) (ep : endpointState)
  : list endpointState :=
  match calls with
  | [] => []
  | (v, err) :: rest =>
      let ep' := handleFailure v err ep in
      ep' :: consecutiveFailures rest ep'
  end.

(** An endpoint whose breaker is open, with three failures on the health
    streak, no ping URL, and a last ping long ago: the state a concurrent
    failure leaves behind between candidate selection and the visit. *)
Definition openBreakerEndpoint (recoverySuccesses : Z) : endpointState :=
  set_inCircuitOpen 1
    (set_healthFailedStreak 3
       (newEndpointState (exampleConfig 100 100 30 "" 5 3 recoverySuccesses 0 0) 0)).

(** The states after each of a run of probes, none of them cut short by the
    caller's context. *)
Fixpoint consecutiveProbes (probes : list (probeOutcome * time.Time))
    (ep : endpointState) : endpointState :=
  match probes with
  | [] => ep
  | (p, t) :: rest => consecutiveProbes rest (fst (pingEndpoint None p t t ep))
  end.

(** The two conditions under which the primary loop does not [continue]. *)
Definition primaryGate (now : time.Time) (ep : endpointState) : bool :=
  negb (inCircuitOpen ep =? 1)
  && negb ((cooldownUntil ep >? 0) && time.Before now (time.Unix0 (cooldownUntil ep))).

Definition closedGate (ep : endpointState) : bool := negb (inCircuitOpen ep =? 1).

(** The least normalised priority among the endpoints of [eps] that pass
    [gate], capped by [bound]. *)
Fixpoint minEligible (gate : endpointState -> bool) (eps : list endpointState)
    (bound : Z) : Z :=
  match eps with
  | [] => bound
  | ep :: rest =>
      minEligible gate rest
        (if gate ep && (normPriority ep <? bound) then normPriority ep else bound)
  end.

(** The words of the specification. *)
Definition breakerClosed (ep : endpointState) : Prop := inCircuitOpen ep <> 1.

Definition cooldownOver (now : time.Time) (ep : endpointState) : Prop :=
  cooldownUntil ep = 0 \/ cooldownUntil ep <= now.

Definition primaryEligible (now : time.Time) (ep : endpointState) : Prop :=
  breakerClosed ep /\ cooldownOver now ep.

(** Index [i] holds an endpoint that satisfies [P] and whose normalised
    priority is the least among the endpoints of [eps] that satisfy [P]. *)
Definition tiedAtMinimum (P : endpointState -> Prop) (eps : list endpointState)
    (i : nat) : Prop :=
  exists ep, eps !! i = Some ep /\ P ep
    /\ forall j ep', eps !! j = Some ep' -> P ep' -> normPriority ep <= normPriority ep'.

(** The world of a dispatch call over an already loaded snapshot. *)
Definition loadedWorld (eps : list endpointState) (now : time.Time)
    (env : nat -> visitEnv) : world :=
  {| loadErr := None; snapshot := eps; clockNow := now; visits := env |}.

Definition noRequest : client.ChatRequest :=
  {| client.System := ""; client.Messages := []; client.MaxTokens := 0 |}.

(** The configured weights of the candidates, in candidate order ([None]
    where a candidate index is outside the snapshot). *)
Definition candidateWeights (eps : list endpointState) (candidates : list nat)
  : list (option Z) :=
  map (fun idx => (fun ep => Weight (cfg ep)) <$> eps !! idx) candidates.

(** The effective weights of the candidates, when every index is valid. *)
Fixpoint effectiveWeights (eps : list endpointState) (candidates : list nat)
  : option (list Z) :=
  match candidates with
  | [] => Some []
  | idx :: rest =>
      ep ← eps !! idx;
      ws ← effectiveWeights eps rest;
      Some (effectiveWeight ep :: ws)
  end.

Definition sumZ (ws : list Z) : Z := foldr Z.add 0 ws.

(** The seed of [chooseWeightedStart]. *)
Definition startSeed (userID : Z) (now : time.Time) : Z :=
  if userID >? 0 then userID else time.UnixNano now.

(** The start position as the specification words it: every candidate
    counts with [max(weight, 100)], the point is the mixed seed modulo the
    total, and the walk stops at the first candidate that would make the
    point negative. *)
Fixpoint specWalk (ws : list Z) (i : nat) (point : Z) : nat :=
  match ws with
  | [] => 0%nat
  | w :: rest => if point - w <? 0 then i else specWalk rest (S i) (point - w)
  end.

Definition specWeightedStart (weights : list Z) (seed : Z) : nat :=
  let ws := map (fun w => Z.max w 100) weights in
  specWalk ws 0 (mix64 seed mod sumZ ws).

(** [n] takes in a row at the same instant, with their answers. *)
Fixpoint takeTimes (n : nat) (now : time.Time) (ep : endpointState)
  : endpointState * list bool :=
  match n with
  | O => (ep, [])
  | S n' =>
      let '(ep1, ok) := takeRateToken ep now in
      let '(ep2, oks) := takeTimes n' now ep1 in
      (ep2, ok :: oks)
  end.

(** The tokens left after [n] admitted takes without refill. *)
Fixpoint drained (n : nat) (tokens : float) : float :=
  match n with
  | O => tokens
  | S n' => drained n' (PrimFloat.sub tokens 1)
  end.

(** Every one of [n] takes in a row finds at least one token. *)
Fixpoint everyTakePasses (n : nat) (tokens : float) : bool :=
  match n with
  | O => true
  | S n' => PrimFloat.leb 1 tokens && everyTakePasses n' (PrimFloat.sub tokens 1)
  end.





(** The state after a run of consecutive failed upstream calls. *)
Fixpoint afterFailures (calls : list (visitEnv * error)) (ep : endpointState)
  : endpointState :=
  match calls with
  | [] => ep
  | (v, err) :: rest => afterFailures rest (handleFailure v err ep)
  end.

(** The state after a run of consecutive successful upstream calls. *)
Fixpoint afterSuccesses (calls : list (visitEnv * client.ChatResponse))
    (ep : endpointState) : endpointState :=
  match calls with
  | [] => ep
  | (v, resp) :: rest => afterSuccesses rest (fst (handleSuccess v resp ep))
  end.

(** A probe outcome that is a failure. *)
Definition probeFailed (p : probeOutcome * time.Time) : Prop :=
  match fst p with ProbeFailed _ _ => True | ProbeOk _ _ => False end.

(** ** Registry operations *)

Definition msgNegativePrice : string := "LLM 单价不能为负数".
Definition msgAbnormalPrice : string := "LLM 单价疑似异常（>100 USD/1k tokens）".

(** Lines 710-724 of [ReplaceConfigs]: the defaults written into the config
    the pointer designates. *)
Definition applyDefaults (c : ProviderConfig) : ProviderConfig :=
  {| Name := if String.eqb (Name c) "" then Provider c else Name c;
     Provider := Provider c; Model := Model c; Enabled := Enabled c;
     Priority := if Priority c =? 0 then 100 else Priority c;
     Weight := if Weight c <=? 0 then 100 else Weight c;
     TimeoutSeconds := if TimeoutSeconds c <=? 0 then 30 else TimeoutSeconds c;
     CooldownSeconds := if CooldownSeconds c <=? 0 then 30 else CooldownSeconds c;
     InputPricePer1k := InputPricePer1k c; OutputPricePer1k := OutputPricePer1k c;
     HealthPingURL := HealthPingURL c;
     HealthTimeoutSeconds := HealthTimeoutSeconds c;
     MaxErrorStreak := MaxErrorStreak c; RecoverySuccesses := RecoverySuccesses c;
     RateLimitPerMin := RateLimitPerMin c; RateLimitBurst := RateLimitBurst c |}.

(** Lines 725-730 of [ReplaceConfigs]: the two price checks. *)
Definition checkPrices (c : ProviderConfig) : option error :=
  if PrimFloat.ltb (InputPricePer1k c) 0 || PrimFloat.ltb (OutputPricePer1k c) 0
  then Some (errorx_New Validation msgNegativePrice)
  else if PrimFloat.ltb 100 (InputPricePer1k c) || PrimFloat.ltb 100 (OutputPricePer1k c)
  then Some (errorx_New Validation msgAbnormalPrice)
  else None.

Inductive replaceOutcome :=
| ReplaceDone (err : option error)
| ReplacePanic.

(** The [for _, cfg := range configs] loop of [ReplaceConfigs]. The configs
    are pointers: an entry is [None] for [nil] (dereferencing it panics), and
    the defaults are written through the pointer, so the caller's configs are
    returned as the loop leaves them. The boolean tells whether the loop ran
    to its end. *)
Fixpoint ReplaceConfigs_loop (configs : list (option ProviderConfig))
  : list (option ProviderConfig) * replaceOutcome * bool :=
  match configs with
  | [] => ([], ReplaceDone None, true)
  | None :: rest => (None :: rest, ReplacePanic, false)
  | Some c :: rest =>
      let c := applyDefaults c in
      match checkPrices c with
      | Some err => (Some c :: rest, ReplaceDone (Some err), false)
      | None =>
          let '(rest', out, finished) := ReplaceConfigs_loop rest in
          (Some c :: rest', out, finished)
      end
  end.

(** [ReplaceConfigs]: [replaceAll] is what [m.repo.ReplaceAll] answers when
    it is called, [None] for a manager without repository (the call on the
    nil interface panics). The result holds the caller's configs after the
    call, what was handed to the repository ([None] when it was not called)
    and the outcome. *)
Definition ReplaceConfigs (replaceAll : option (option error))
    (configs : list (option ProviderConfig))
  : list (option ProviderConfig) * option (list (option ProviderConfig))
    * replaceOutcome :=
  let '(configs', out, finished) := ReplaceConfigs_loop configs in
  if finished then
    match replaceAll with
    | None => (configs', None, ReplacePanic)
    | Some answer => (configs', Some configs', ReplaceDone answer)
    end
  else (configs', None, out).

(** [client.NewClient] succeeds for these providers only. *)
Definition supportedProvider (provider : string) : bool :=
  String.eqb provider "openai" || String.eqb provider "openai_compatible"
  || String.eqb provider "anthropic" || String.eqb provider "gemini"
  || String.eqb provider "mock".

(** The [for _, c := range cfgs] loop of [loadEndpoints]; [clock i] is the
    reading of [time.Now()] for the [i]-th entry of the list. *)
Fixpoint loadEndpoints_loop (clock : nat -> time.Time) (i : nat)
    (cfgs : list (option ProviderConfig)) : list endpointState :=
  match cfgs with
  | [] => []
  | None :: rest => loadEndpoints_loop clock (S i) rest
  | Some c :: rest =>
      if negb (Enabled c) then loadEndpoints_loop clock (S i) rest
      else if negb (supportedProvider (Provider c)) then
        loadEndpoints_loop clock (S i) rest
      else newEndpointState c (clock i) :: loadEndpoints_loop clock (S i) rest
  end.

(** What the config store answers to [ListAll]; [None] stands for a manager
    without repository. *)
Definition configStore := option (error + list (option ProviderConfig)).

Definition loadEndpoints (repo : configStore) (clock : nat -> time.Time)
  : error + list endpointState :=
  match repo with
  | None => inr []
  | Some (inl err) => inl err
  | Some (inr cfgs) => inr (loadEndpoints_loop clock 0 cfgs)
  end.

(** [Reload] on the published snapshot [stored] ([None] before the first
    store). *)
Definition Reload (repo : configStore) (clock : nat -> time.Time)
    (stored : option (list endpointState))
  : option (list endpointState) * option error :=
  match loadEndpoints repo clock with
  | inl err => (stored, Some err)
  | inr eps => (Some eps, None)
  end.

Definition getOrLoadEndpoints (repo : configStore) (clock : nat -> time.Time)
    (stored : option (list endpointState))
  : option (list endpointState) * (error + list endpointState) :=
  match stored with
  | Some eps => (stored, inr eps)
  | None =>
      match Reload repo clock stored with
      | (stored', Some err) => (stored', inl err)
      | (stored', None) =>
          match stored' with
          | None => (stored', inr [])
          | Some eps => (stored', inr eps)
          end
      end
  end.

(** Lines 533-537 of [ListEffectiveConfigs]: the API key of the copy. *)
Definition maskAPIKey (key : string) : string :=
  if (4 <? String.length key)%nat then
    "****" +:+ String.substring (String.length key - 4) 4 key
  else if negb (String.eqb key "") then "****"
  else key.

(** ** Lifecycle *)

Definition msgStopped : string := "LLM ProviderManager 已停止，无法再次启动".

(** The lifecycle fields of the manager, with what it asked of the task
    supervisor: [loops] health loops spawned, [cancelled] once the loop's
    context was cancelled, [superStopped] once the supervisor was stopped. *)
Record lifecycle := {
  started : bool;
  stopped : bool;
  loops : nat;
  cancelled : bool;
  superStopped : bool
}.

Definition newLifecycle : lifecycle :=
  {| started := false; stopped := false; loops := 0; cancelled := false;
     superStopped := false |}.

(** [Start(ctx)]; [ctxNil] tells whether [ctx] is [nil]. *)
Definition Start (ctxNil : bool) (m : lifecycle) : lifecycle * option error :=
  if stopped m then (m, Some (errorx_New Internal msgStopped))
  else if started m then (m, None)
  else if ctxNil then (m, Some (errorx_New InvalidInput msgCtxNil))
  else ({| started := true; stopped := stopped m; loops := S (loops m);
           cancelled := cancelled m; superStopped := superStopped m |}, None).

(** [Stop(ctx)] *)
Definition Stop (ctxNil : bool) (m : lifecycle) : lifecycle * option error :=
  if negb (started m) || stopped m then (m, None)
  else
    ({| started := started m; stopped := true; loops := loops m;
        cancelled := true; superStopped := true |},
     if ctxNil then Some (errorx_New InvalidInput msgCtxNil) else None).

Inductive lifecycleCall := CallStart (ctxNil : bool) | CallStop (ctxNil : bool).

Definition lifecycleStep (m : lifecycle) (c : lifecycleCall) : lifecycle :=
  match c with
  | CallStart ctxNil => fst (Start ctxNil m)
  | CallStop ctxNil => fst (Stop ctxNil m)
  end.

(** ** Health loop *)

(** What the world answers while one endpoint is probed by the health
    loop. *)
Record tickEnv := {
  tickStamp : time.Time;
  tickCtxErr : option ctxCause;
  tickProbe : probeOutcome;
  tickSample : time.Time;
  tickRecord : time.Time
}.

(** The [for _, ep := range eps] loop of [runHealthCheckOnce]. *)
Fixpoint runHealthCheck_loop (env : nat -> tickEnv) (i : nat)
    (eps : list endpointState) : list endpointState :=
  match eps with
  | [] => []
  | ep :: rest =>
      if String.eqb (HealthPingURL (cfg ep)) "" then
        ep :: runHealthCheck_loop env (S i) rest
      else
        let e := env i in
        let ep := set_lastPingAt (time.UnixNano (tickStamp e)) ep in
        let (ep, _) := pingEndpoint (tickCtxErr e) (tickProbe e)
                         (tickSample e) (tickRecord e) ep in
        ep :: runHealthCheck_loop env (S i) rest
  end.

(** [runHealthCheckOnce] over what [getOrLoadEndpoints] answers. *)
Definition runHealthCheckOnce (loaded : error + list endpointState)
    (env : nat -> tickEnv) : list endpointState :=
  match loaded with
  | inl _ => []
  | inr eps => runHealthCheck_loop env 0 eps
  end.

(** A config as [ReplaceConfigs] hands it to the repository. *)
Definition wellConfigured (c : ProviderConfig) : Prop :=
  Priority c <> 0 /\ 0 < Weight c /\ 0 < TimeoutSeconds c
  /\ 0 < CooldownSeconds c
  /\ PrimFloat.ltb (InputPricePer1k c) 0 = false
  /\ PrimFloat.ltb (OutputPricePer1k c) 0 = false
  /\ PrimFloat.ltb 100 (InputPricePer1k c) = false
  /\ PrimFloat.ltb 100 (OutputPricePer1k c) = false.

(** A price that passes both comparisons of [ReplaceConfigs]: a value from
    0 to 100, or a NaN, for which every comparison is false. *)
Definition priceInRange (p : float) : Prop :=
  PrimFloat.is_nan p = true
  \/ (PrimFloat.leb 0 p = true /\ PrimFloat.leb p 100 = true).

(** The entries of the store that [loadEndpoints] turns into endpoints. *)
Definition keptConfig (entry : option ProviderConfig) : option ProviderConfig :=
  match entry with
  | Some c => if Enabled c && supportedProvider (Provider c) then Some c else None
  | None => None
  end.

(** An endpoint as the registry builds it: nothing recorded yet. *)
Definition freshEndpoint (ep : endpointState) : Prop :=
  inCircuitOpen ep = 0 /\ cooldownUntil ep = 0
  /\ healthFailedStreak ep = 0 /\ healthSuccessStreak ep = 0
  /\ lastPingAt ep = 0 /\ healthHistory ep = []
  /\ rateWindowStart ep = 0 /\ rateCount ep = 0
  /\ stats ep = emptyStats.

(** The manager after a sequence of [Start] and [Stop] calls. *)
Definition lifecycleRun (calls : list lifecycleCall) (m : lifecycle) : lifecycle :=
  fold_left lifecycleStep calls m.

(** What holds of the lifecycle fields after any sequence of calls. *)
Definition lifecycleInv (m : lifecycle) : Prop :=
  (loops m <= 1)%nat
  /\ (started m = true <-> loops m = 1%nat)
  /\ (stopped m = true -> started m = true)
  /\ cancelled m = stopped m
  /\ superStopped m = stopped m.

(** The inverse of the finalizer: each multiplier is odd, so it has an
    inverse modulo 2^64, and the shift-xor step undoes itself. *)
Definition unmix64 (h : Z) : Z :=
  let h := Z.lxor h (Z.shiftr h 33) in
  let h := wrapUint64 (h * 0x9cb4b2f8129337db) in
  let h := Z.lxor h (Z.shiftr h 33) in
  let h := wrapUint64 (h * 0x4f74430c22a54005) in
  Z.lxor h (Z.shiftr h 33).

(** The minute window a clock reading falls in, as [bumpRateWindow] computes
    it, and the state after a run of calls of [bumpRateWindow]. *)
Definition minuteOf (now : time.Time) : Z := Z.quot (time.Unix now) 60.

Fixpoint afterBumps (times : list time.Time) (ep : endpointState) : endpointState :=
  match times with
  | [] => ep
  | now :: rest => afterBumps rest (bumpRateWindow ep now)
  end.

(** ** Machine integer facts *)

Lemma wrapInt64_id (z : Z) : MinInt64 <= z <= MaxInt64 -> wrapInt64 z = z.
Proof.
  unfold wrapInt64, MinInt64, MaxInt64. intros H.
  rewrite Z.mod_small; lia.
Qed.

Lemma wrapUint64_id (z : Z) : 0 <= z < 2 ^ 64 -> wrapUint64 z = z.
Proof. unfold wrapUint64. intros H. apply Z.mod_small; lia. Qed.

(** ** Cooldown *)

(** The failure path stores the deadline [now + cd] where [cd] comes from the
    configured seconds and the incremented failure streak. *)
Lemma handleFailure_cooldownUntil (v : visitEnv) (err : error) (ep : endpointState) :
  cooldownUntil (handleFailure v err ep)
  = time.UnixNano
      (time.Add (nowCooldown v)
         (cooldownDuration (CooldownSeconds (cfg ep))
            (wrapUint32 (failureStreak (stats ep) + 1)))).
Proof.
  unfold handleFailure. cbn.
  destruct (_ >=? _); reflexivity.
Qed.

Lemma handleFailure_cfg (v : visitEnv) (err : error) (ep : endpointState) :
  cfg (handleFailure v err ep) = cfg ep.
Proof. unfold handleFailure. cbn. destruct (_ >=? _); reflexivity. Qed.

Lemma handleFailure_failureStreak (v : visitEnv) (err : error) (ep : endpointState) :
  failureStreak (stats (handleFailure v err ep))
  = wrapUint32 (failureStreak (stats ep) + 1).
Proof. unfold handleFailure. cbn. destruct (_ >=? _); reflexivity. Qed.

Lemma cooldownDuration_first (cs : Z) :
  0 < cs <= 300 -> cooldownDuration cs 1 = time.seconds cs.
Proof.
  intros H. unfold cooldownDuration, time.seconds, time.Minute, time.Second.
  destruct (Z.leb_spec cs 0); [lia|].
  change (wrapUint32 (1 - 1)) with 0. cbn [Z.eqb Z.gtb Z.compare Z.shiftl].
  change (wrapInt64 (Z.shiftl 1 0)) with 1. rewrite Z.mul_1_r.
  rewrite (wrapInt64_id cs) by (unfold MinInt64, MaxInt64; lia).
  rewrite (wrapInt64_id (cs * 10 ^ 9)) by (unfold MinInt64, MaxInt64; lia).
  destruct (Z.gtb_spec (cs * 10 ^ 9) (5 * (60 * 10 ^ 9))); [lia|reflexivity].
Qed.

Lemma cooldownDuration_default (cs : Z) :
  cs <= 0 -> cooldownDuration cs 1 = time.seconds 30.
Proof.
  intros H. unfold cooldownDuration.
  destruct (Z.leb_spec cs 0); [reflexivity|lia].
Qed.

(** C3 (as stated, refuted). An endpoint configured with
    [cooldown_seconds = 10] that fails for the first time at the instant 0
    is cooled down for 10 seconds, not for 30: the failure path replaces
    only a non-positive [cooldown_seconds] by 30. *)
Lemma cooldown_floor_counterexample :
  let ep := newEndpointState (exampleConfig 100 100 10 "" 5 3 2 0 0) 0 in
  let v := stillEnv 0 (ProbeOk 200 1) (inr (upstream_Err "boom")) in
  0 < CooldownSeconds (cfg ep) < 30
  /\ failureStreak (stats ep) = 0
  /\ cooldownUntil (handleFailure v (upstream_Err "boom") ep) = 10 * time.Second
  /\ cooldownUntil (handleFailure v (upstream_Err "boom") ep) <> 30 * time.Second.
Proof. vm_compute. repeat split; congruence. Qed.

(** C3 (amended). In the failure path the cooldown base is
    [cooldown_seconds] itself when it is positive and 30 only when it is not
    positive: after the first consecutive failure of an endpoint with
    [0 < cooldown_seconds < 30] the deadline is the clock reading plus
    [cooldown_seconds] seconds, and with [cooldown_seconds <= 0] it is the
    clock reading plus 30 seconds. *)
Theorem cooldown_base_first_failure (v : visitEnv) (err : error) (ep : endpointState) :
  failureStreak (stats ep) = 0 ->
  (0 < CooldownSeconds (cfg ep) < 30 ->
   cooldownUntil (handleFailure v err ep)
   = time.UnixNano (time.Add (nowCooldown v)
                      (CooldownSeconds (cfg ep) * time.Second)))
  /\ (CooldownSeconds (cfg ep) <= 0 ->
      cooldownUntil (handleFailure v err ep)
      = time.UnixNano (time.Add (nowCooldown v) (30 * time.Second))).
Proof.
  intros Hs. rewrite handleFailure_cooldownUntil, Hs.
  change (wrapUint32 (0 + 1)) with 1. split; intros H.
  - rewrite cooldownDuration_first by lia. unfold time.seconds.
    rewrite (wrapInt64_id (CooldownSeconds (cfg ep) * time.Second));
      [reflexivity|].
    unfold MinInt64, MaxInt64, time.Second. lia.
  - rewrite cooldownDuration_default by lia. reflexivity.
Qed.

Lemma cooldown_base_first_failure_witness :
  let ep := newEndpointState (exampleConfig 100 100 10 "" 5 3 2 0 0) 0 in
  let v := stillEnv 7 (ProbeOk 200 1) (inr (upstream_Err "boom")) in
  cooldownUntil (handleFailure v (upstream_Err "boom") ep)
  = time.UnixNano (time.Add 7 (10 * time.Second)).
Proof.
  intros ep v.
  apply (cooldown_base_first_failure v (upstream_Err "boom") ep).
  - reflexivity.
  - cbn. lia.
Defined.

(** C6 (as stated, refuted). With [cooldown_seconds = 30] and five failures
    in a row at the instant 0, the fifth cooldown is 240 s, not 300 s: the
    exponent is capped at 3, so the factor never exceeds 8 and 30 s * 8
    stays under the 5-minute cap. *)
Lemma cooldown_sequence_counterexample :
  let ep := newEndpointState (exampleConfig 100 100 30 "" 5 3 2 0 0) 0 in
  let call := (stillEnv 0 (ProbeOk 200 1) (inr (upstream_Err "boom")),
               upstream_Err "boom") in
  map cooldownUntil (consecutiveFailures [call; call; call; call; call] ep)
  = [30 * time.Second; 60 * time.Second; 120 * time.Second;
     240 * time.Second; 240 * time.Second]
  /\ 240 * time.Second <> 300 * time.Second.
Proof. vm_compute. split; congruence. Qed.

(** C6 (amended). For an endpoint with [cooldown_seconds = 30] whose failure
    streak starts at zero and is never reset, the cooldowns computed by five
    consecutive failures are 30 s, 60 s, 120 s, 240 s and again 240 s: each
    deadline is the clock reading of that failure plus that duration. *)
Theorem cooldown_sequence_30 (v1 v2 v3 v4 v5 : visitEnv) (e1 e2 e3 e4 e5 : error)
    (ep : endpointState) :
  CooldownSeconds (cfg ep) = 30 ->
  failureStreak (stats ep) = 0 ->
  map cooldownUntil
      (consecutiveFailures [(v1, e1); (v2, e2); (v3, e3); (v4, e4); (v5, e5)] ep)
  = [ time.UnixNano (time.Add (nowCooldown v1) (30 * time.Second));
      time.UnixNano (time.Add (nowCooldown v2) (60 * time.Second));
      time.UnixNano (time.Add (nowCooldown v3) (120 * time.Second));
      time.UnixNano (time.Add (nowCooldown v4) (240 * time.Second));
      time.UnixNano (time.Add (nowCooldown v5) (240 * time.Second)) ].
Proof.
  intros Hc Hs. cbn [consecutiveFailures map].
  rewrite !handleFailure_cooldownUntil, !handleFailure_cfg,
          !handleFailure_failureStreak, Hc, Hs.
  reflexivity.
Qed.

Lemma cooldown_sequence_30_witness :
  let ep := newEndpointState (exampleConfig 100 100 30 "" 5 3 2 0 0) 0 in
  let v := stillEnv 5 (ProbeOk 200 1) (inr (upstream_Err "boom")) in
  let e := upstream_Err "boom" in
  map cooldownUntil
      (consecutiveFailures [(v, e); (v, e); (v, e); (v, e); (v, e)] ep)
  = [ time.UnixNano (time.Add 5 (30 * time.Second));
      time.UnixNano (time.Add 5 (60 * time.Second));
      time.UnixNano (time.Add 5 (120 * time.Second));
      time.UnixNano (time.Add 5 (240 * time.Second));
      time.UnixNano (time.Add 5 (240 * time.Second)) ].
Proof.
  intros ep v e.
  apply (cooldown_sequence_30 v v v v v e e e e e ep); reflexivity.
Defined.

(** ** Success processing *)

(** C5 (as stated, refuted). An endpoint with [recovery_successes = 2] whose
    breaker is open is visited after its half-open window has elapsed and the
    upstream call succeeds: the success streak becomes 1, the breaker stays
    open and [health_failed_streak] is still 3. *)
Lemma success_streak_counterexample :
  let ep := openBreakerEndpoint 2 in
  let v := stillEnv (10 * time.Second) (ProbeOk 200 1) (inl okResponse) in
  exists ep' r,
    visit None (10 * time.Second) v ep = (ep', Succeeded r)
    /\ inCircuitOpen ep = 1
    /\ failureStreak (stats ep') = 0
    /\ healthFailedStreak ep' = 3
    /\ healthFailedStreak ep' <> 0.
Proof.
  eexists _, _. split; [vm_compute; reflexivity|].
  vm_compute. repeat split; congruence.
Qed.

(** C5 (amended). When the upstream call of a visit succeeds,
    [stats.failureStreak] is zero afterwards in every case;
    [health_failed_streak] is zero afterwards when the breaker was closed at
    that moment, and also when it was open and this success brings
    [health_success_streak] up to [max(recovery_successes, 1)] (the breaker
    is then closed); when the breaker was open and the success streak stays
    below that threshold, the breaker stays open and [health_failed_streak]
    keeps its value. *)
Theorem success_resets_streaks (v : visitEnv) (resp : client.ChatResponse)
    (ep : endpointState) :
  chat v = inl resp ->
  let ep' := fst (callUpstream v ep) in
  failureStreak (stats ep') = 0
  /\ (inCircuitOpen ep <> 1 -> healthFailedStreak ep' = 0)
  /\ (inCircuitOpen ep = 1 ->
      maxInt (RecoverySuccesses (cfg ep)) 1 <= wrapUint32 (healthSuccessStreak ep + 1) ->
      healthFailedStreak ep' = 0 /\ inCircuitOpen ep' = 0)
  /\ (inCircuitOpen ep = 1 ->
      wrapUint32 (healthSuccessStreak ep + 1) < maxInt (RecoverySuccesses (cfg ep)) 1 ->
      healthFailedStreak ep' = healthFailedStreak ep /\ inCircuitOpen ep' = 1).
Proof.
  intros Hc. unfold callUpstream. rewrite Hc. unfold handleSuccess. cbn.
  destruct (Z.eqb_spec (inCircuitOpen ep) 1) as [Ho|Ho]; cbn.
  - destruct (Z.geb_spec (wrapUint32 (healthSuccessStreak ep + 1))
                (maxInt (RecoverySuccesses (cfg ep)) 1)) as [Hr|Hr]; cbn;
      repeat split; intros; try congruence; lia.
  - repeat split; intros; congruence.
Qed.

Lemma success_resets_streaks_witness :
  let ep := openBreakerEndpoint 1 in
  let v := stillEnv (10 * time.Second) (ProbeOk 200 1) (inl okResponse) in
  healthFailedStreak (fst (callUpstream v ep)) = 0
  /\ inCircuitOpen (fst (callUpstream v ep)) = 0.
Proof.
  intros ep v.
  apply (success_resets_streaks v okResponse ep); [reflexivity|reflexivity|].
  vm_compute. congruence.
Defined.

(** ** Candidate selection *)

Lemma minEligible_le_bound gate eps bound : minEligible gate eps bound <= bound.
Proof.
  revert bound. induction eps as [|ep rest IH]; intros bound; cbn; [lia|].
  etransitivity; [apply IH|].
  destruct (gate ep); cbn; [|lia].
  destruct (Z.ltb_spec (normPriority ep) bound); lia.
Qed.

Lemma minEligible_mono gate eps b1 b2 :
  b1 <= b2 -> minEligible gate eps b1 <= minEligible gate eps b2.
Proof.
  revert b1 b2. induction eps as [|ep rest IH]; intros b1 b2 H; cbn; [lia|].
  apply IH. destruct (gate ep); cbn; [|lia].
  destruct (Z.ltb_spec (normPriority ep) b1), (Z.ltb_spec (normPriority ep) b2); lia.
Qed.

Lemma minEligible_le_elem gate eps bound j ep :
  eps !! j = Some ep -> gate ep = true ->
  minEligible gate eps bound <= normPriority ep.
Proof.
  revert bound j. induction eps as [|ep0 rest IH]; intros bound j Hj Hg;
    [discriminate|].
  destruct j as [|j]; cbn in *.
  - injection Hj as ->. rewrite Hg. cbn.
    etransitivity; [apply minEligible_le_bound|].
    destruct (Z.ltb_spec (normPriority ep) bound); lia.
  - eapply IH; eassumption.
Qed.

Lemma minEligible_attained gate eps bound :
  minEligible gate eps bound = bound
  \/ exists j ep, eps !! j = Some ep /\ gate ep = true
       /\ normPriority ep = minEligible gate eps bound.
Proof.
  revert bound. induction eps as [|ep0 rest IH]; intros bound; cbn; [now left|].
  destruct (IH (if gate ep0 && (normPriority ep0 <? bound)
                then normPriority ep0 else bound)) as [He|(j & ep & Hj & Hg & Hp)].
  - destruct (gate ep0) eqn:Hg0; cbn in *; [|now left].
    destruct (Z.ltb_spec (normPriority ep0) bound); [|now left].
    right. exists 0%nat, ep0. cbn. repeat split; [assumption|lia].
  - right. exists (S j), ep. cbn. repeat split; assumption.
Qed.

(** With priorities below the sentinel, "priority equal to the computed
    minimum" is "priority least among the endpoints passing the gate". *)
Lemma minEligible_minimal gate eps i ep :
  eps !! i = Some ep -> gate ep = true -> normPriority ep <= MaxInt32 ->
  normPriority ep = minEligible gate eps MaxInt32
  <-> (forall j ep', eps !! j = Some ep' -> gate ep' = true ->
         normPriority ep <= normPriority ep').
Proof.
  intros Hi Hg Hb. split.
  - intros -> j ep' Hj Hg'. eapply minEligible_le_elem; eassumption.
  - intros Hmin.
    pose proof (minEligible_le_elem gate eps MaxInt32 i ep Hi Hg) as Hle.
    destruct (minEligible_attained gate eps MaxInt32) as [He|(j & ep' & Hj & Hg' & Hp)].
    + lia.
    + specialize (Hmin j ep' Hj Hg'). lia.
Qed.

Lemma selectCandidates_loop_cons now ep rest i minPri candidates :
  selectCandidates_loop now (ep :: rest) i minPri candidates
  = if primaryGate now ep then
      if normPriority ep <? minPri then
        selectCandidates_loop now rest (S i) (normPriority ep) [i]
      else if normPriority ep =? minPri then
        selectCandidates_loop now rest (S i) minPri (candidates ++ [i])
      else selectCandidates_loop now rest (S i) minPri candidates
    else selectCandidates_loop now rest (S i) minPri candidates.
Proof.
  cbn [selectCandidates_loop]. unfold primaryGate.
  destruct (inCircuitOpen ep =? 1); cbn [negb andb]; [reflexivity|].
  destruct ((cooldownUntil ep >? 0) && _); reflexivity.
Qed.

(** What the primary loop returns, from any point of the iteration. *)
Lemma selectCandidates_loop_spec now rest : forall i minPri candidates k,
  k ∈ selectCandidates_loop now rest i minPri candidates
  <-> (k ∈ candidates /\ minEligible (primaryGate now) rest minPri = minPri)
      \/ (exists j ep, rest !! j = Some ep /\ k = (i + j)%nat
            /\ primaryGate now ep = true
            /\ normPriority ep = minEligible (primaryGate now) rest minPri).
Proof.
  induction rest as [|ep rest IH]; intros i minPri candidates k.
  - cbn. split; [intros H; left; split; [exact H|reflexivity]|].
    intros [[H _]|(j & ep & Hj & _)]; [exact H|discriminate].
  - rewrite selectCandidates_loop_cons. cbn [minEligible].
    destruct (primaryGate now ep) eqn:Hg0; cbn [andb].
    2:{ rewrite IH. apply or_iff_compat_l. split.
      - intros (j & ep' & Hj & -> & Hg & Hp). exists (S j), ep'.
        cbn. repeat split; try assumption. lia.
      - intros (j & ep' & Hj & -> & Hg & Hp). destruct j as [|j]; cbn in Hj.
        + injection Hj as <-. congruence.
        + exists j, ep'. repeat split; try assumption. lia. }
    destruct (Z.ltb_spec (normPriority ep) minPri) as [Hlt|Hge].
    { rewrite IH.
      pose proof (minEligible_le_bound (primaryGate now) rest (normPriority ep)) as Hle.
      split.
      - intros [[Hk He]|(j & ep' & Hj & -> & Hg & Hp)].
        + apply list_elem_of_singleton in Hk as ->. right. exists 0%nat, ep.
          cbn. repeat split; try assumption; lia.
        + right. exists (S j), ep'. cbn. repeat split; try assumption. lia.
      - intros [[Hk He]|(j & ep' & Hj & -> & Hg & Hp)]; [lia|].
        destruct j as [|j]; cbn in Hj.
        + injection Hj as <-. left. split; [|lia].
          apply list_elem_of_singleton. lia.
        + right. exists j, ep'. repeat split; try assumption. lia. }
    destruct (Z.eqb_spec (normPriority ep) minPri) as [Heq|Hne].
    { rewrite IH. split.
      - intros [[Hk He]|(j & ep' & Hj & -> & Hg & Hp)].
        + apply elem_of_app in Hk as [Hk|Hk].
          * left. split; assumption.
          * apply list_elem_of_singleton in Hk as ->. right. exists 0%nat, ep.
            cbn. repeat split; try assumption; lia.
        + right. exists (S j), ep'. cbn. repeat split; try assumption. lia.
      - intros [[Hk He]|(j & ep' & Hj & -> & Hg & Hp)].
        + left. split; [|assumption]. apply elem_of_app. now left.
        + destruct j as [|j]; cbn in Hj.
          * injection Hj as <-. left. split; [|lia].
            apply elem_of_app. right. apply list_elem_of_singleton. lia.
          * right. exists j, ep'. repeat split; try assumption. lia. }
    rewrite IH.
    pose proof (minEligible_le_bound (primaryGate now) rest minPri) as Hle.
    apply or_iff_compat_l. split.
    + intros (j & ep' & Hj & -> & Hg & Hp). exists (S j), ep'.
      cbn. repeat split; try assumption. lia.
    + intros (j & ep' & Hj & -> & Hg & Hp). destruct j as [|j]; cbn in Hj.
      * injection Hj as <-. lia.
      * exists j, ep'. repeat split; try assumption. lia.
Qed.

Lemma selectCandidates_spec eps now k :
  k ∈ selectCandidates eps now
  <-> exists ep, eps !! k = Some ep /\ primaryGate now ep = true
        /\ normPriority ep = minEligible (primaryGate now) eps MaxInt32.
Proof.
  unfold selectCandidates. rewrite selectCandidates_loop_spec. split.
  - intros [[Hk _]|(j & ep & Hj & -> & Hg & Hp)].
    + apply elem_of_nil in Hk as [].
    + exists ep. repeat split; assumption.
  - intros (ep & Hk & Hg & Hp). right. exists k, ep. repeat split; assumption.
Qed.

Lemma minPriority_loop_eq eps bound :
  minPriority_loop eps bound = minEligible closedGate eps bound.
Proof.
  revert bound. induction eps as [|ep rest IH]; intros bound; cbn; [reflexivity|].
  replace (closedGate ep) with (negb (inCircuitOpen ep =? 1)) by reflexivity.
  destruct (inCircuitOpen ep =? 1); cbn [negb andb]; [apply IH|].
  destruct (normPriority ep <? bound); apply IH.
Qed.

Lemma collectByPriority_loop_spec rest : forall i minPri candidates k,
  k ∈ collectByPriority_loop rest i minPri candidates
  <-> k ∈ candidates
      \/ (exists j ep, rest !! j = Some ep /\ k = (i + j)%nat
            /\ closedGate ep = true /\ normPriority ep = minPri).
Proof.
  induction rest as [|ep rest IH]; intros i minPri candidates k.
  - cbn. split; [now left|]. intros [H|(j & ep & Hj & _)]; [exact H|discriminate].
  - cbn [collectByPriority_loop].
    destruct (inCircuitOpen ep =? 1) eqn:Ho.
    { rewrite IH. apply or_iff_compat_l. split.
      - intros (j & ep' & Hj & -> & Hg & Hp). exists (S j), ep'.
        cbn. repeat split; try assumption. lia.
      - intros (j & ep' & Hj & -> & Hg & Hp). destruct j as [|j]; cbn in Hj.
        + injection Hj as <-. unfold closedGate in Hg. rewrite Ho in Hg.
          discriminate.
        + exists j, ep'. repeat split; try assumption. lia. }
    assert (Hg0 : closedGate ep = true) by (unfold closedGate; now rewrite Ho).
    destruct (Z.eqb_spec (normPriority ep) minPri) as [Heq|Hne]; rewrite IH.
    + split.
      * intros [Hk|(j & ep' & Hj & -> & Hg & Hp)].
        -- apply elem_of_app in Hk as [Hk|Hk]; [now left|].
           apply list_elem_of_singleton in Hk as ->. right. exists 0%nat, ep.
           cbn. repeat split; try assumption. lia.
        -- right. exists (S j), ep'. cbn. repeat split; try assumption. lia.
      * intros [Hk|(j & ep' & Hj & -> & Hg & Hp)].
        -- left. apply elem_of_app. now left.
        -- destruct j as [|j]; cbn in Hj.
           ++ left. apply elem_of_app. right. apply list_elem_of_singleton. lia.
           ++ right. exists j, ep'. repeat split; try assumption. lia.
    + apply or_iff_compat_l. split.
      * intros (j & ep' & Hj & -> & Hg & Hp). exists (S j), ep'.
        cbn. repeat split; try assumption. lia.
      * intros (j & ep' & Hj & -> & Hg & Hp). destruct j as [|j]; cbn in Hj.
        -- injection Hj as <-. congruence.
        -- exists j, ep'. repeat split; try assumption. lia.
Qed.

Lemma selectAllByMinPriority_spec eps k :
  k ∈ selectAllByMinPriority eps
  <-> exists ep, eps !! k = Some ep /\ closedGate ep = true
        /\ normPriority ep = minEligible closedGate eps MaxInt32.
Proof.
  unfold selectAllByMinPriority. destruct eps as [|ep0 rest].
  - split; [intros H; apply elem_of_nil in H as []|].
    intros (ep & Hk & _). discriminate.
  - rewrite collectByPriority_loop_spec, minPriority_loop_eq. split.
    + intros [Hk|(j & ep & Hj & -> & Hg & Hp)].
      * apply elem_of_nil in Hk as [].
      * exists ep. repeat split; assumption.
    + intros (ep & Hk & Hg & Hp). right. exists k, ep. repeat split; assumption.
Qed.

Lemma closedGate_iff ep : closedGate ep = true <-> breakerClosed ep.
Proof.
  unfold closedGate, breakerClosed.
  destruct (Z.eqb_spec (inCircuitOpen ep) 1); cbn; split; congruence.
Qed.

(** From the Unix epoch on, the two tests of the primary loop say what the
    specification says: breaker closed, and no cooldown or cooldown over. *)
Lemma primaryGate_iff now ep :
  0 <= now -> primaryGate now ep = true <-> primaryEligible now ep.
Proof.
  intros Hnow. unfold primaryGate, primaryEligible, breakerClosed, cooldownOver,
    time.Before, time.Unix0.
  destruct (Z.eqb_spec (inCircuitOpen ep) 1); cbn [negb andb].
  - split; [discriminate|]. intros [H _]. congruence.
  - destruct (Z.gtb_spec (cooldownUntil ep) 0) as [Hc|Hc],
             (Z.ltb_spec now (cooldownUntil ep)) as [Hl|Hl];
      cbn; split; intros Hx; try discriminate; try reflexivity; lia.
Qed.

Lemma tiedAtMinimum_gate (gate : endpointState -> bool) (P : endpointState -> Prop)
    eps k :
  (forall ep, gate ep = true <-> P ep) ->
  (forall i ep, eps !! i = Some ep -> normPriority ep <= MaxInt32) ->
  (exists ep, eps !! k = Some ep /\ gate ep = true
     /\ normPriority ep = minEligible gate eps MaxInt32)
  <-> tiedAtMinimum P eps k.
Proof.
  intros HP Hb. unfold tiedAtMinimum. split.
  - intros (ep & Hk & Hg & Hp). exists ep. split; [assumption|].
    split; [now apply HP|]. intros j ep' Hj HP'.
    destruct (minEligible_minimal gate eps k ep Hk Hg (Hb _ _ Hk)) as [Hm _].
    apply (Hm Hp j ep' Hj). now apply HP.
  - intros (ep & Hk & HPe & Hmin). exists ep. split; [assumption|].
    assert (Hg : gate ep = true) by now apply HP.
    split; [assumption|].
    destruct (minEligible_minimal gate eps k ep Hk Hg (Hb _ _ Hk)) as [_ Hm].
    apply Hm. intros j ep' Hj Hg'. apply (Hmin j ep' Hj). now apply HP.
Qed.

(** C1 (as stated, refuted), at three snapshots.
    - One healthy endpoint (breaker closed, no cooldown) whose priority is
      2147483648: it is the endpoint of least priority among the eligible
      ones, yet neither pass keeps it, because both loops start from the
      sentinel [math.MaxInt32] and keep only priorities equal to the running
      minimum; the dispatch fails with no-available-endpoint.
    - The empty snapshot: both passes are empty, and [ChatForUser] fails
      with the not-configured error, not with no-available-endpoint.
    - A clock reading before the Unix epoch and a negative deadline after
      it: the endpoint is cooling down in the specification's words
      ([cooldown_until] is not 0 and [now < cooldown_until]), yet the primary
      pass keeps it, because the code skips an endpoint only when
      [cooldown_until > 0]. *)
Lemma selection_sentinel_counterexample :
  let eps := [newEndpointState (exampleConfig 2147483648 100 30 "" 5 3 2 0 0) 0] in
  let env := fun _ : nat => stillEnv 1 (ProbeOk 200 1) (inl okResponse) in
  let early := set_cooldownUntil (-5)
                 (newEndpointState (exampleConfig 10 100 30 "" 5 3 2 0 0) 0) in
  (tiedAtMinimum (primaryEligible 1) eps 0
   /\ selectCandidates eps 1 = []
   /\ tiedAtMinimum breakerClosed eps 0
   /\ selectAllByMinPriority eps = []
   /\ snd (ChatForUser (Some (fun _ => None)) 1 (Some noRequest) (loadedWorld eps 1 env))
      = Err (errorx_New Internal msgNoAvailableEndpoint))
  /\ (selectCandidates [] 1 = []
      /\ selectAllByMinPriority [] = []
      /\ snd (ChatForUser (Some (fun _ => None)) 1 (Some noRequest) (loadedWorld [] 1 env))
         = Err (errorx_New Internal msgNotConfigured)
      /\ errorx_New Internal msgNotConfigured
         <> errorx_New Internal msgNoAvailableEndpoint)
  /\ (~ primaryEligible (-10) early
      /\ selectCandidates [early] (-10) = [0%nat]).
Proof.
  intros eps env early.
  assert (Hc : breakerClosed (newEndpointState
                 (exampleConfig 2147483648 100 30 "" 5 3 2 0 0) 0))
    by (unfold breakerClosed; cbn; lia).
  assert (Hmin : forall (j : nat) ep', eps !! j = Some ep' ->
            2147483648 <= normPriority ep').
  { intros [|j] ep' Hj; [|discriminate]. injection Hj as <-. vm_compute. congruence. }
  split; [|split].
  - repeat split.
    + eexists. split; [reflexivity|]. split.
      * split; [exact Hc|]. left. reflexivity.
      * intros j ep' Hj _. apply (Hmin j ep' Hj).
    + eexists. split; [reflexivity|]. split; [exact Hc|].
      intros j ep' Hj _. apply (Hmin j ep' Hj).
  - repeat split. vm_compute. discriminate.
  - split; [|reflexivity].
    unfold primaryEligible, cooldownOver. cbn. lia.
Qed.

(** C1 (amended). For every snapshot whose normalised priorities (priority 0
    counted as 100) do not exceed [math.MaxInt32] and every clock reading
    [now] at or after the Unix epoch: the primary pass keeps exactly the
    indices of the endpoints whose breaker is closed and whose cooldown is
    absent or over ([cooldown_until = 0] or [cooldown_until <= now]) and that
    are tied at the least normalised priority among those; when the primary
    pass keeps something the dispatch uses it; when it keeps nothing the
    dispatch uses the fallback pass, which ignores cooldown and keeps exactly
    the breaker-closed endpoints tied at the least normalised priority; and
    when both passes are empty on a non-empty snapshot, [ChatForUser] leaves
    the snapshot untouched and fails with the no-available-endpoint error. *)
Theorem candidate_selection_two_passes (eps : list endpointState) (now : time.Time) :
  0 <= now ->
  (forall i ep, eps !! i = Some ep -> normPriority ep <= MaxInt32) ->
  (forall k, k ∈ selectCandidates eps now
             <-> tiedAtMinimum (primaryEligible now) eps k)
  /\ (selectCandidates eps now <> [] ->
      pickCandidates eps now = selectCandidates eps now)
  /\ (selectCandidates eps now = [] ->
      pickCandidates eps now = selectAllByMinPriority eps)
  /\ (forall k, k ∈ selectAllByMinPriority eps
                <-> tiedAtMinimum breakerClosed eps k)
  /\ (eps <> [] ->
      selectCandidates eps now = [] ->
      selectAllByMinPriority eps = [] ->
      forall ctx userID req env,
        ChatForUser (Some ctx) userID (Some req) (loadedWorld eps now env)
        = (eps, Err (errorx_New Internal msgNoAvailableEndpoint))).
Proof.
  intros Hnow Hb. repeat split.
  - intros Hk. apply selectCandidates_spec in Hk.
    apply (tiedAtMinimum_gate (primaryGate now)); [|assumption..].
    intros ep. now apply primaryGate_iff.
  - intros Hk. apply selectCandidates_spec.
    apply (tiedAtMinimum_gate (primaryGate now) (primaryEligible now));
      [|assumption..].
    intros ep. now apply primaryGate_iff.
  - intros Hne. unfold pickCandidates.
    destruct (selectCandidates eps now); [congruence|reflexivity].
  - intros He. unfold pickCandidates. rewrite He. reflexivity.
  - intros Hk. apply selectAllByMinPriority_spec in Hk.
    apply (tiedAtMinimum_gate closedGate); [|assumption..].
    apply closedGate_iff.
  - intros Hk. apply selectAllByMinPriority_spec.
    apply (tiedAtMinimum_gate closedGate breakerClosed); [|assumption..].
    apply closedGate_iff.
  - intros Hne He1 He2 ctx userID req env. unfold ChatForUser, loadedWorld.
    cbn [loadErr snapshot clockNow visits].
    destruct eps as [|ep0 rest]; [congruence|]. cbn [length Nat.eqb].
    unfold pickCandidates. rewrite He1. cbn [length Nat.eqb]. rewrite He2.
    reflexivity.
Qed.

Lemma candidate_selection_two_passes_witness :
  exists eps now,
    0 <= now
    /\ (forall i ep, eps !! i = Some ep -> normPriority ep <= MaxInt32)
    /\ (forall k, k ∈ selectCandidates eps now
                  <-> tiedAtMinimum (primaryEligible now) eps k).
Proof.
  exists [newEndpointState (exampleConfig 10 100 30 "" 5 3 2 0 0) 0;
          newEndpointState (exampleConfig 0 100 30 "" 5 3 2 0 0) 0], 5.
  assert (H0 : 0 <= 5) by lia.
  assert (Hb : forall (i : nat) ep,
             [newEndpointState (exampleConfig 10 100 30 "" 5 3 2 0 0) 0;
              newEndpointState (exampleConfig 0 100 30 "" 5 3 2 0 0) 0] !! i = Some ep ->
             normPriority ep <= MaxInt32).
  { intros [|[|i]] ep H; try discriminate; injection H as <-;
      vm_compute; congruence. }
  split; [exact H0|]. split; [exact Hb|].
  apply (candidate_selection_two_passes _ 5 H0 Hb).
Defined.

(** ** Probes and the breaker *)

Lemma pingEndpoint_failed (err : error) (lastErr : option error)
    (t u : time.Time) (ep : endpointState) :
  let ep' := fst (pingEndpoint None (ProbeFailed err lastErr) t u ep) in
  cfg ep' = cfg ep
  /\ healthFailedStreak ep' = wrapUint32 (healthFailedStreak ep + 1)
  /\ inCircuitOpen ep'
     = (if wrapUint32 (healthFailedStreak ep + 1) >=? maxInt (MaxErrorStreak (cfg ep)) 1
        then 1 else inCircuitOpen ep).
Proof.
  unfold pingEndpoint. cbn.
  destruct (_ >=? _); cbn; repeat split.
Qed.

Lemma pingEndpoint_ok (ctxErr : option ctxCause) (status latency : Z)
    (t u : time.Time) (ep : endpointState) :
  let r := pingEndpoint ctxErr (ProbeOk status latency) t u ep in
  snd r = None
  /\ cfg (fst r) = cfg ep
  /\ inCircuitOpen (fst r) = 0
  /\ healthFailedStreak (fst r) = 0
  /\ healthSuccessStreak (fst r) = 0
  /\ lastPingAt (fst r) = lastPingAt ep
  /\ cooldownUntil (fst r) = cooldownUntil ep
  /\ stats (fst r) = stats ep.
Proof. unfold pingEndpoint. cbn. repeat split. Qed.

(** Neither pass keeps an endpoint whose breaker is open. *)
Lemma open_breaker_not_picked eps idx ep now :
  eps !! idx = Some ep -> inCircuitOpen ep = 1 -> idx ∉ pickCandidates eps now.
Proof.
  intros Hi Ho Hin. unfold pickCandidates in Hin.
  destruct (length (selectCandidates eps now) =? 0)%nat.
  - apply selectAllByMinPriority_spec in Hin as (ep' & Hi' & Hg & _).
    rewrite Hi in Hi'. injection Hi' as <-.
    unfold closedGate in Hg. rewrite Ho in Hg. discriminate.
  - apply selectCandidates_spec in Hin as (ep' & Hi' & Hg & _).
    rewrite Hi in Hi'. injection Hi' as <-.
    unfold primaryGate in Hg. rewrite Ho in Hg. discriminate.
Qed.

(** C7 (as stated, refuted). An endpoint with [max_error_streak = 3] and
    [recovery_successes = 5]: three failed probes open its breaker; a visit
    4 s after the last ping skips it; a visit 10 s after the last ping runs
    the inline probe, and the successful probe closes the breaker at once,
    although [health_success_streak] is 0, below [recovery_successes]. A
    dispatch call that starts while the breaker is open does not reach the
    endpoint at all: with this single endpoint it fails with
    no-available-endpoint and probes nothing, the window elapsed or not. *)
Lemma probe_recovery_counterexample :
  let c := exampleConfig 100 100 30 "http://up/health" 5 3 5 0 0 in
  let bad := (ProbeFailed (upstream_Err "status=500") None, 0) in
  let ep3 := consecutiveProbes [bad; bad; bad] (newEndpointState c 0) in
  let v := stillEnv (10 * time.Second) (ProbeOk 200 1) (inl okResponse) in
  inCircuitOpen ep3 = 1
  /\ healthSuccessStreak ep3 < RecoverySuccesses (cfg ep3)
  /\ breakerGateSkips v ep3 = false
  /\ snd (inlinePing None v ep3) = true
  /\ healthSuccessStreak (fst (inlinePing None v ep3)) < RecoverySuccesses (cfg ep3)
  /\ inCircuitOpen (fst (inlinePing None v ep3)) = 0
  /\ ChatForUser (Some (fun _ => None)) 1 (Some noRequest)
       (loadedWorld [ep3] (10 * time.Second) (fun _ => v))
     = ([ep3], Err (errorx_New Internal msgNoAvailableEndpoint)).
Proof. vm_compute. repeat split; congruence. Qed.

(** C7 (amended). For an endpoint with [max_error_streak = 3] whose health
    failure streak starts at zero with the breaker closed: the breaker is
    still closed after two consecutive failed probes (none of them cut short
    by a cancelled context) and open after the third. A visit of the walk to a breaker-open endpoint less than
    [max(health_timeout_seconds, 1)] seconds after [last_ping_at] skips it
    and leaves its state untouched (no probe). When the endpoint has a ping
    URL and more than that window has elapsed, the visit stamps
    [last_ping_at] and runs the inline probe; a successful probe closes the
    breaker and zeroes both health streaks whatever [health_success_streak]
    and [recovery_successes] are, and the visit goes on to the next gate.
    At the level of the visit: for a breaker-open endpoint with a ping URL,
    once the window has elapsed at the breaker gate and more than the window
    at the ping gate, the visit is not stopped by the breaker gate; with a
    successful probe it continues from the probed state (stamped, breaker
    closed, streaks zero) into the rate gate and the upstream call, and with
    a failed probe it skips the endpoint, stamped and with the breaker still
    open. Candidate selection itself keeps no endpoint whose breaker is open
    when the call starts, so the walk meets an open breaker only when it
    opened after selection. *)
Theorem breaker_probe_cycle :
  (forall (ep : endpointState) (e1 e2 e3 : error) (l1 l2 l3 : option error)
          (t1 t2 t3 : time.Time),
      MaxErrorStreak (cfg ep) = 3 ->
      healthFailedStreak ep = 0 ->
      inCircuitOpen ep = 0 ->
      inCircuitOpen
        (consecutiveProbes [(ProbeFailed e1 l1, t1); (ProbeFailed e2 l2, t2)] ep) = 0
      /\ inCircuitOpen
           (consecutiveProbes [(ProbeFailed e1 l1, t1); (ProbeFailed e2 l2, t2);
                               (ProbeFailed e3 l3, t3)] ep) = 1)
  /\ (forall (ctxErr : option ctxCause) (now : time.Time) (v : visitEnv)
             (ep : endpointState),
         inCircuitOpen ep = 1 ->
         sinceLastPing (nowBreakerGate v) ep < healthWindow ep ->
         visit ctxErr now v ep = (ep, Skipped))
  /\ (forall (ctxErr : option ctxCause) (v : visitEnv) (ep : endpointState)
             (status latency : Z),
         HealthPingURL (cfg ep) <> "" ->
         sinceLastPing (nowPingGate v) ep > healthWindow ep ->
         probe v = ProbeOk status latency ->
         let r := inlinePing ctxErr v ep in
         snd r = true
         /\ lastPingAt (fst r) = time.UnixNano (nowPingStamp v)
         /\ inCircuitOpen (fst r) = 0
         /\ healthFailedStreak (fst r) = 0
         /\ healthSuccessStreak (fst r) = 0)
  /\ (forall (ctxErr : option ctxCause) (now : time.Time) (v : visitEnv)
             (ep : endpointState) (status latency : Z),
         inCircuitOpen ep = 1 ->
         HealthPingURL (cfg ep) <> "" ->
         healthWindow ep <= sinceLastPing (nowBreakerGate v) ep ->
         sinceLastPing (nowPingGate v) ep > healthWindow ep ->
         probe v = ProbeOk status latency ->
         exists ep1,
           inlinePing ctxErr v ep = (ep1, true)
           /\ lastPingAt ep1 = time.UnixNano (nowPingStamp v)
           /\ inCircuitOpen ep1 = 0
           /\ healthFailedStreak ep1 = 0
           /\ healthSuccessStreak ep1 = 0
           /\ visit ctxErr now v ep
              = match rateGate now ep1 with
                | (ep2, false) => (ep2, Skipped)
                | (ep2, true) => callUpstream v ep2
                end)
  /\ (forall (ctxErr : option ctxCause) (now : time.Time) (v : visitEnv)
             (ep : endpointState) (err : error) (lastErr : option error),
         inCircuitOpen ep = 1 ->
         HealthPingURL (cfg ep) <> "" ->
         healthWindow ep <= sinceLastPing (nowBreakerGate v) ep ->
         sinceLastPing (nowPingGate v) ep > healthWindow ep ->
         probe v = ProbeFailed err lastErr ->
         exists ep1,
           visit ctxErr now v ep = (ep1, Skipped)
           /\ lastPingAt ep1 = time.UnixNano (nowPingStamp v)
           /\ inCircuitOpen ep1 = 1
           /\ cfg ep1 = cfg ep)
  /\ (forall (eps : list endpointState) (now : time.Time) (idx : nat)
             (ep : endpointState),
         eps !! idx = Some ep -> inCircuitOpen ep = 1 ->
         idx ∉ pickCandidates eps now).
Proof.
  split; [|split; [|split; [|split; [|split]]]];
    [| | | | |intros eps now idx ep; apply open_breaker_not_picked].
  - intros ep e1 e2 e3 l1 l2 l3 t1 t2 t3 Hm Hf Ho.
    cbn [consecutiveProbes].
    destruct (pingEndpoint_failed e1 l1 t1 t1 ep) as (Hc1 & Hf1 & Ho1).
    set (ep1 := fst (pingEndpoint None (ProbeFailed e1 l1) t1 t1 ep)) in *.
    destruct (pingEndpoint_failed e2 l2 t2 t2 ep1) as (Hc2 & Hf2 & Ho2).
    set (ep2 := fst (pingEndpoint None (ProbeFailed e2 l2) t2 t2 ep1)) in *.
    destruct (pingEndpoint_failed e3 l3 t3 t3 ep2) as (Hc3 & Hf3 & Ho3).
    set (ep3 := fst (pingEndpoint None (ProbeFailed e3 l3) t3 t3 ep2)) in *.
    clearbody ep3. clearbody ep2. clearbody ep1.
    rewrite Hf, Hm in Ho1. rewrite Hf in Hf1.
    rewrite Hf1, Hc1, Hm in Ho2. rewrite Hf1 in Hf2.
    rewrite Hf2, Hc2, Hc1, Hm in Ho3.
    rewrite Ho3. split; [|reflexivity].
    rewrite Ho2. cbn. rewrite Ho1. cbn. exact Ho.
  - intros ctxErr now v ep Ho Hw. unfold visit, breakerGateSkips.
    rewrite Ho. cbn [Z.eqb Pos.eqb andb].
    destruct (Z.ltb_spec (sinceLastPing (nowBreakerGate v) ep) (healthWindow ep));
      [reflexivity|lia].
  - intros ctxErr v ep status latency Hu Hw Hp. unfold inlinePing.
    destruct (String.eqb_spec (HealthPingURL (cfg ep)) "") as [|_]; [congruence|].
    destruct (Z.gtb_spec (sinceLastPing (nowPingGate v) ep) (healthWindow ep));
      [|lia].
    cbn [negb andb]. rewrite Hp.
    destruct (pingEndpoint_ok ctxErr status latency (nowSample v) (nowRecord v)
                (set_lastPingAt (time.UnixNano (nowPingStamp v)) ep))
      as (Hn & _ & Ho & Hf & Hs & Hl & _).
    destruct (pingEndpoint _ _ _ _ _) as [ep' [e|]]; cbn in *; [discriminate|].
    repeat split; assumption.
  - intros ctxErr now v ep status latency Ho Hu Hb Hw Hp.
    assert (Hi : inlinePing ctxErr v ep
                 = (fst (pingEndpoint ctxErr (ProbeOk status latency) (nowSample v)
                           (nowRecord v)
                           (set_lastPingAt (time.UnixNano (nowPingStamp v)) ep)),
                    true)).
    { unfold inlinePing.
      destruct (String.eqb_spec (HealthPingURL (cfg ep)) "") as [|_]; [congruence|].
      destruct (Z.gtb_spec (sinceLastPing (nowPingGate v) ep) (healthWindow ep));
        [|lia].
      cbn [negb andb]. rewrite Hp. reflexivity. }
    destruct (pingEndpoint_ok ctxErr status latency (nowSample v) (nowRecord v)
                (set_lastPingAt (time.UnixNano (nowPingStamp v)) ep))
      as (_ & _ & Hc & Hf & Hs & Hl & _).
    cbn zeta in Hc, Hf, Hs, Hl.
    eexists. split; [exact Hi|].
    split; [exact Hl|]. split; [exact Hc|]. split; [exact Hf|]. split; [exact Hs|].
    unfold visit, breakerGateSkips. rewrite Ho. cbn [Z.eqb Pos.eqb andb].
    destruct (Z.ltb_spec (sinceLastPing (nowBreakerGate v) ep) (healthWindow ep));
      [lia|].
    rewrite Hi. reflexivity.
  - intros ctxErr now v ep err lastErr Ho Hu Hb Hw Hp.
    unfold visit, breakerGateSkips. rewrite Ho. cbn [Z.eqb Pos.eqb andb].
    destruct (Z.ltb_spec (sinceLastPing (nowBreakerGate v) ep) (healthWindow ep));
      [lia|].
    unfold inlinePing.
    destruct (String.eqb_spec (HealthPingURL (cfg ep)) "") as [|_]; [congruence|].
    destruct (Z.gtb_spec (sinceLastPing (nowPingGate v) ep) (healthWindow ep));
      [|lia].
    cbn [negb andb]. rewrite Hp. unfold pingEndpoint.
    destruct ctxErr as [c|].
    + eexists. split; [reflexivity|]. cbn. repeat split. exact Ho.
    + cbn. destruct (_ >=? _); eexists; (split; [reflexivity|]); cbn;
        repeat split; exact Ho.
Qed.

Lemma breaker_probe_cycle_witness :
  let c := exampleConfig 100 100 30 "http://up/health" 5 3 5 0 0 in
  let bad := (ProbeFailed (upstream_Err "status=500") None, 0) in
  let ep3 := consecutiveProbes [bad; bad; bad] (newEndpointState c 0) in
  inCircuitOpen ep3 = 1
  /\ visit None (4 * time.Second)
       (stillEnv (4 * time.Second) (ProbeOk 200 1) (inl okResponse)) ep3
     = (ep3, Skipped)
  /\ inCircuitOpen
       (fst (inlinePing None
               (stillEnv (10 * time.Second) (ProbeOk 200 1) (inl okResponse)) ep3))
     = 0
  /\ (exists ep1,
        inCircuitOpen ep1 = 0
        /\ visit None (10 * time.Second)
             (stillEnv (10 * time.Second) (ProbeOk 200 1) (inl okResponse)) ep3
           = match rateGate (10 * time.Second) ep1 with
             | (ep2, false) => (ep2, Skipped)
             | (ep2, true) =>
                 callUpstream
                   (stillEnv (10 * time.Second) (ProbeOk 200 1) (inl okResponse)) ep2
             end).
Proof.
  intros c bad ep3.
  destruct breaker_probe_cycle as (H1 & H2 & H3 & H4 & _).
  split; [|split; [|split]].
  - apply (H1 (newEndpointState c 0)); reflexivity.
  - apply H2; [reflexivity|vm_compute; reflexivity].
  - apply (H3 None _ ep3 200 1); [discriminate|vm_compute; reflexivity|reflexivity].
  - destruct (H4 None (10 * time.Second)
                (stillEnv (10 * time.Second) (ProbeOk 200 1) (inl okResponse))
                ep3 200 1)
      as (ep1 & _ & _ & Hc & _ & _ & Hv);
      [reflexivity|discriminate|vm_compute; congruence|vm_compute; reflexivity
      |reflexivity|].
    exists ep1. split; [exact Hc|exact Hv].
Defined.

(** ** What a successful visit leaves alone *)

Lemma pingEndpoint_frame ctxErr p t u ep :
  let ep' := fst (pingEndpoint ctxErr p t u ep) in
  cooldownUntil ep' = cooldownUntil ep /\ stats ep' = stats ep /\ cfg ep' = cfg ep.
Proof.
  unfold pingEndpoint. destruct p as [s l|e le]; cbn; [repeat split|].
  destruct ctxErr; cbn; [repeat split|].
  destruct (_ >=? _); cbn; repeat split.
Qed.

Lemma inlinePing_frame ctxErr v ep :
  let ep' := fst (inlinePing ctxErr v ep) in
  cooldownUntil ep' = cooldownUntil ep /\ stats ep' = stats ep /\ cfg ep' = cfg ep.
Proof.
  unfold inlinePing. destruct (_ && _); [|repeat split].
  pose proof (pingEndpoint_frame ctxErr (probe v) (nowSample v) (nowRecord v)
                (set_lastPingAt (time.UnixNano (nowPingStamp v)) ep)) as H.
  destruct (pingEndpoint _ _ _ _ _) as [ep1 [e|]]; exact H.
Qed.

Lemma takeRateToken_frame ep now :
  let ep' := fst (takeRateToken ep now) in
  cooldownUntil ep' = cooldownUntil ep /\ stats ep' = stats ep /\ cfg ep' = cfg ep
  /\ inCircuitOpen ep' = inCircuitOpen ep
  /\ healthFailedStreak ep' = healthFailedStreak ep
  /\ healthSuccessStreak ep' = healthSuccessStreak ep.
Proof.
  unfold takeRateToken. destruct (_ <=? _); [repeat split|].
  destruct (time.IsZero _); destruct (PrimFloat.ltb 0 _);
    repeat match goal with
           | |- context [if ?b then _ else _] => destruct b
           end; cbn; repeat split.
Qed.

Lemma rateGate_frame now ep :
  let ep' := fst (rateGate now ep) in
  cooldownUntil ep' = cooldownUntil ep /\ stats ep' = stats ep /\ cfg ep' = cfg ep
  /\ inCircuitOpen ep' = inCircuitOpen ep
  /\ healthFailedStreak ep' = healthFailedStreak ep
  /\ healthSuccessStreak ep' = healthSuccessStreak ep.
Proof.
  unfold rateGate. destruct (_ >? _); [|repeat split].
  pose proof (takeRateToken_frame ep now) as H.
  destruct (takeRateToken ep now) as [ep1 [|]]; [|exact H].
  cbn in *. unfold bumpRateWindow. destruct (negb _); cbn; exact H.
Qed.

Lemma handleSuccess_effect v resp ep :
  let r := handleSuccess v resp ep in
  cooldownUntil (fst r) = cooldownUntil ep
  /\ failureStreak (stats (fst r)) = 0
  /\ totalRequests (stats (fst r)) = totalRequests (stats ep)
  /\ failures (stats (fst r)) = failures (stats ep)
  /\ lastLatencyMs (stats (fst r)) = replyLatency (snd r)
  /\ lastPingAt (fst r) = time.UnixNano (nowSuccessStamp v).
Proof.
  unfold handleSuccess. cbn.
  destruct (inCircuitOpen ep =? 1); cbn; [|repeat split].
  destruct (_ >=? _); cbn; repeat split.
Qed.

(** An endpoint whose deadline lies ahead is not kept by the primary pass. *)
Lemma cooling_not_selected eps idx ep now :
  eps !! idx = Some ep -> 0 < cooldownUntil ep -> now < cooldownUntil ep ->
  idx ∉ selectCandidates eps now.
Proof.
  intros Hi Hc Hn Hin. apply selectCandidates_spec in Hin as (ep' & Hi' & Hg & _).
  rewrite Hi in Hi'. injection Hi' as <-.
  unfold primaryGate, time.Before, time.Unix0 in Hg.
  destruct (Z.gtb_spec (cooldownUntil ep) 0); [|lia].
  destruct (Z.ltb_spec now (cooldownUntil ep)); [|lia].
  destruct (negb _); discriminate.
Qed.

(** What a visit that ends in a successful upstream call does to the
    endpoint. *)
Lemma visit_success_effect (ctxErr : option ctxCause) (now : time.Time)
    (v : visitEnv) (ep ep' : endpointState) (r : chatReply) :
  visit ctxErr now v ep = (ep', Succeeded r) ->
  cooldownUntil ep' = cooldownUntil ep
  /\ failureStreak (stats ep') = 0
  /\ totalRequests (stats ep') = wrapUint64 (totalRequests (stats ep) + 1)
  /\ failures (stats ep') = failures (stats ep)
  /\ lastLatencyMs (stats ep') = replyLatency r
  /\ lastPingAt ep' = time.UnixNano (nowSuccessStamp v).
Proof.
  intros Hv. unfold visit in Hv.
  destruct (breakerGateSkips v ep); [discriminate|].
  pose proof (inlinePing_frame ctxErr v ep) as (Hc1 & Hs1 & _).
  destruct (inlinePing ctxErr v ep) as [ep1 [|]]; [|discriminate]. cbn in Hc1, Hs1.
  pose proof (rateGate_frame now ep1) as (Hc2 & Hs2 & _).
  destruct (rateGate now ep1) as [ep2 [|]]; [|discriminate]. cbn in Hc2, Hs2.
  unfold callUpstream in Hv. destruct (chat v) as [resp|err]; [|discriminate].
  pose proof (handleSuccess_effect v resp
                (set_stats (fun s => set_totalRequests
                                       (wrapUint64 (totalRequests s + 1)) s) ep2))
    as (Hc3 & Hf3 & Ht3 & Hx3 & Hl3 & Hp3).
  destruct (handleSuccess _ _ _) as [ep3 r3]. injection Hv as <- <-.
  cbn in Hc3, Hf3, Ht3, Hx3, Hl3, Hp3.
  repeat split; congruence.
Qed.

(** A walk that ends in a reply ends in a successful visit: [mid] is the
    snapshot as that visit finds it. *)
Lemma walk_reply ctx now env candidates startPos n : forall i eps firstErr eps' r,
  walk ctx now env candidates startPos n i eps firstErr = (eps', Ok r) ->
  exists j idx mid ep ep',
    candidates !! ((startPos + j) mod length candidates)%nat = Some idx
    /\ mid !! idx = Some ep
    /\ visit (ctx j) now (env j) ep = (ep', Succeeded r)
    /\ eps' = <[idx := ep']> mid.
Proof.
  induction n as [|n IH]; intros i eps firstErr eps' r H; cbn [walk] in H.
  - destruct firstErr; discriminate.
  - destruct (candidates !! _) as [idx|] eqn:Hc; [|discriminate].
    destruct (eps !! idx) as [ep|] eqn:He; [|discriminate].
    destruct (visit (ctx i) now (env i) ep) as [ep' [|r'|err]] eqn:Hv.
    + eapply IH; exact H.
    + injection H as <- <-. exists i, idx, eps, ep, ep'. repeat split; assumption.
    + eapply IH; exact H.
Qed.

(** C10. A successful upstream call leaves [cooldown_until] unchanged. A
    visit that ends in success resets the failure streak, counts the request,
    records the latency and stamps [last_ping_at], and neither it nor the
    gates before it touch the deadline. So in the snapshot that a replying
    [ChatForUser] leaves behind, the endpoint that served the reply has the
    deadline it had when its visit began, and while a previously set deadline
    lies in the future that endpoint is still not kept by the primary
    candidate pass. *)
Theorem success_keeps_cooldown :
  (forall (ctxErr : option ctxCause) (now : time.Time) (v : visitEnv)
          (ep ep' : endpointState) (r : chatReply),
      visit ctxErr now v ep = (ep', Succeeded r) ->
      cooldownUntil ep' = cooldownUntil ep
      /\ failureStreak (stats ep') = 0
      /\ totalRequests (stats ep') = wrapUint64 (totalRequests (stats ep) + 1)
      /\ failures (stats ep') = failures (stats ep)
      /\ lastLatencyMs (stats ep') = replyLatency r
      /\ lastPingAt ep' = time.UnixNano (nowSuccessStamp v)
      /\ (forall eps idx now',
             eps !! idx = Some ep' ->
             0 < cooldownUntil ep -> now' < cooldownUntil ep ->
             idx ∉ selectCandidates eps now'))
  /\ (forall (ctx : option Context) (userID : Z) (req : option client.ChatRequest)
             (w : world) (eps' : list endpointState) (r : chatReply),
         ChatForUser ctx userID req w = (eps', Ok r) ->
         exists idx mid ep ep',
           mid !! idx = Some ep
           /\ eps' = <[idx := ep']> mid
           /\ eps' !! idx = Some ep'
           /\ cooldownUntil ep' = cooldownUntil ep
           /\ (forall now', 0 < cooldownUntil ep -> now' < cooldownUntil ep ->
                  idx ∉ selectCandidates eps' now')).
Proof.
  split.
  - intros ctxErr now v ep ep' r Hv.
    destruct (visit_success_effect ctxErr now v ep ep' r Hv)
      as (Hc & Hf & Ht & Hx & Hl & Hp).
    repeat split; try assumption.
    intros eps idx now' Hi H0 Hn. eapply cooling_not_selected; [exact Hi|lia..].
  - intros ctx userID req w eps' r H. unfold ChatForUser in H.
    destruct ctx as [ctx|]; [|discriminate].
    destruct req as [req|]; [|discriminate].
    destruct (loadErr w); [discriminate|].
    destruct (length (snapshot w) =? 0)%nat; [discriminate|].
    destruct (length (pickCandidates _ _) =? 0)%nat; [discriminate|].
    destruct (chooseWeightedStart _ _ _ _) as [startPos|]; [|discriminate].
    apply walk_reply in H as (j & idx & mid & ep & ep' & _ & Hm & Hv & ->).
    destruct (visit_success_effect _ _ _ _ _ _ Hv) as (Hc & _).
    assert (Hi : <[idx := ep']> mid !! idx = Some ep')
      by (apply list_lookup_insert_eq; eapply lookup_lt_Some; exact Hm).
    exists idx, mid, ep, ep'. repeat split; try assumption.
    intros now' H0 Hn. eapply cooling_not_selected; [exact Hi|lia..].
Qed.

Lemma success_keeps_cooldown_witness :
  let ep := set_cooldownUntil (30 * time.Second)
              (newEndpointState (exampleConfig 10 100 30 "" 5 3 2 0 0) 0) in
  let v := stillEnv time.Second (ProbeOk 200 1) (inl okResponse) in
  cooldownUntil (fst (visit None time.Second v ep)) = 30 * time.Second.
Proof.
  intros ep v.
  destruct (visit None time.Second v ep) as [ep' out] eqn:Hv.
  assert (Ho : exists r, out = Succeeded r)
    by (vm_compute in Hv; injection Hv as <- <-; eexists; reflexivity).
  destruct Ho as [r ->].
  destruct success_keeps_cooldown as [H _].
  apply (H None time.Second v ep ep' r Hv).
Defined.

(** ** Weighted start position *)

Lemma totalWeight_loop_weights eps1 eps2 c1 : forall c2 acc,
  candidateWeights eps1 c1 = candidateWeights eps2 c2 ->
  totalWeight_loop eps1 c1 acc = totalWeight_loop eps2 c2 acc.
Proof.
  induction c1 as [|i1 c1 IH]; intros [|i2 c2] acc H; try discriminate;
    [reflexivity|].
  cbn in H. injection H as Hw Hr. cbn [totalWeight_loop].
  destruct (eps1 !! i1) as [ep1|], (eps2 !! i2) as [ep2|]; try discriminate;
    [|reflexivity].
  cbn in *. injection Hw as Hw. unfold effectiveWeight. rewrite Hw.
  now apply IH.
Qed.

Lemma pickStart_loop_weights eps1 eps2 c1 : forall c2 i point,
  candidateWeights eps1 c1 = candidateWeights eps2 c2 ->
  pickStart_loop eps1 c1 i point = pickStart_loop eps2 c2 i point.
Proof.
  induction c1 as [|i1 c1 IH]; intros [|i2 c2] i point H; try discriminate;
    [reflexivity|].
  cbn in H. injection H as Hw Hr. cbn [pickStart_loop].
  destruct (eps1 !! i1) as [ep1|], (eps2 !! i2) as [ep2|]; try discriminate;
    [|reflexivity].
  cbn in *. injection Hw as Hw. unfold effectiveWeight. rewrite Hw.
  destruct (point <? _); [reflexivity|]. now apply IH.
Qed.

(** C9. For a strictly positive [userID], the start position is the same at
    any two clock readings, and more generally it is the same for any two
    snapshots and candidate lists that present the same weights in the same
    order: it is a function of the user, the candidate order and the
    weights alone. *)
Theorem weighted_start_deterministic (eps1 eps2 : list endpointState)
    (c1 c2 : list nat) (userID : Z) (now1 now2 : time.Time) :
  0 < userID ->
  candidateWeights eps1 c1 = candidateWeights eps2 c2 ->
  chooseWeightedStart eps1 c1 userID now1 = chooseWeightedStart eps2 c2 userID now2.
Proof.
  intros Hu Hw. unfold chooseWeightedStart.
  assert (Hl : length c1 = length c2).
  { apply (f_equal length) in Hw. unfold candidateWeights in Hw.
    now rewrite !length_map in Hw. }
  rewrite Hl. destruct (length c2 =? 0)%nat; [reflexivity|].
  rewrite (totalWeight_loop_weights eps1 eps2 c1 c2 0 Hw).
  destruct (totalWeight_loop eps2 c2 0) as [total|]; [|reflexivity]. cbn.
  destruct (total <=? 0); [reflexivity|].
  destruct (Z.gtb_spec userID 0); [|lia].
  now apply pickStart_loop_weights.
Qed.

Lemma weighted_start_deterministic_witness :
  let eps := [newEndpointState (exampleConfig 10 100 30 "" 5 3 2 0 0) 0;
              newEndpointState (exampleConfig 10 300 30 "" 5 3 2 0 0) 0] in
  chooseWeightedStart eps [0; 1]%nat 1 1000
  = chooseWeightedStart eps [0; 1]%nat 1 2000.
Proof.
  intros eps.
  apply (weighted_start_deterministic eps eps [0; 1]%nat [0; 1]%nat 1 1000 2000);
    [lia|reflexivity].
Defined.

Lemma mix64_range seed : 0 <= mix64 seed < 2 ^ 64.
Proof.
  unfold mix64.
  assert (Hx : forall h, 0 <= h < 2 ^ 64 -> 0 <= Z.lxor h (Z.shiftr h 33) < 2 ^ 64).
  { intros h Hh.
    assert (H0 : 0 <= Z.shiftr h 33) by (apply Z.shiftr_nonneg; lia).
    split; [apply Z.lxor_nonneg; lia|].
    destruct (Z.eq_dec (Z.lxor h (Z.shiftr h 33)) 0) as [->|Hne]; [lia|].
    apply Z.log2_lt_pow2; [pose proof (proj2 (Z.lxor_nonneg h (Z.shiftr h 33))); lia|].
    eapply Z.le_lt_trans; [apply Z.log2_lxor; lia|].
    assert (Hs : Z.shiftr h 33 <= h).
    { rewrite Z.shiftr_div_pow2 by lia.
      apply Z.div_le_upper_bound; [lia|]. nia. }
    apply Z.max_lub_lt.
    - destruct (Z.eq_dec h 0) as [->|]; [cbn; lia|].
      apply Z.log2_lt_pow2; lia.
    - destruct (Z.eq_dec (Z.shiftr h 33) 0) as [->|]; [cbn; lia|].
      apply Z.log2_lt_pow2; lia. }
  assert (Hm : forall z, 0 <= wrapUint64 z < 2 ^ 64)
    by (intros z; unfold wrapUint64; apply Z.mod_pos_bound; lia).
  apply Hx, Hm.
Qed.

Lemma effectiveWeight_pos ep : 0 < effectiveWeight ep.
Proof. unfold effectiveWeight. destruct (Z.leb_spec (Weight (cfg ep)) 0); lia. Qed.

Lemma effectiveWeights_pos eps candidates : forall ws,
  effectiveWeights eps candidates = Some ws -> Forall (fun w => 0 < w) ws.
Proof.
  induction candidates as [|idx rest IH]; intros ws H; cbn in H.
  - injection H as <-. constructor.
  - destruct (eps !! idx) as [ep|]; [|discriminate]. cbn in H.
    destruct (effectiveWeights eps rest) as [ws'|]; [|discriminate]. cbn in H.
    injection H as <-. constructor; [apply effectiveWeight_pos|now apply IH].
Qed.

Lemma sumZ_nonneg ws : Forall (fun w => 0 < w) ws -> 0 <= sumZ ws.
Proof. induction 1; cbn; [lia|]. unfold sumZ in *. lia. Qed.

Lemma totalWeight_loop_sum eps candidates : forall ws acc,
  effectiveWeights eps candidates = Some ws ->
  0 <= acc -> acc + sumZ ws <= MaxInt64 ->
  totalWeight_loop eps candidates acc = Some (acc + sumZ ws).
Proof.
  induction candidates as [|idx rest IH]; intros ws acc H Ha Hs; cbn in H.
  - injection H as <-. cbn. f_equal. lia.
  - destruct (eps !! idx) as [ep|] eqn:Hi; [|discriminate]. cbn in H.
    destruct (effectiveWeights eps rest) as [ws'|] eqn:Hr; [|discriminate].
    cbn in H. injection H as <-. cbn [totalWeight_loop]. rewrite Hi. cbn.
    pose proof (effectiveWeight_pos ep) as Hp.
    pose proof (sumZ_nonneg ws' (effectiveWeights_pos _ _ _ Hr)) as Hn.
    change (sumZ (effectiveWeight ep :: ws')) with (effectiveWeight ep + sumZ ws') in *.
    rewrite wrapInt64_id by (unfold MinInt64, MaxInt64 in *; lia).
    rewrite (IH ws' _ eq_refl) by lia. unfold sumZ. f_equal. lia.
Qed.

Lemma pickStart_loop_spec eps candidates : forall ws i point,
  effectiveWeights eps candidates = Some ws ->
  0 <= point < sumZ ws -> sumZ ws <= MaxInt64 ->
  exists j w,
    pickStart_loop eps candidates i point = Some (i + j)%nat
    /\ ws !! j = Some w
    /\ sumZ (take j ws) <= point < sumZ (take j ws) + w.
Proof.
  induction candidates as [|idx rest IH]; intros ws i point H Hp Hs; cbn in H.
  - injection H as <-. cbn in Hp. lia.
  - destruct (eps !! idx) as [ep|] eqn:Hi; [|discriminate]. cbn in H.
    destruct (effectiveWeights eps rest) as [ws'|] eqn:Hr; [|discriminate].
    cbn in H. injection H as <-. cbn [pickStart_loop]. rewrite Hi. cbn.
    pose proof (effectiveWeight_pos ep) as Hw.
    pose proof (sumZ_nonneg ws' (effectiveWeights_pos _ _ _ Hr)) as Hn.
    change (sumZ (effectiveWeight ep :: ws')) with (effectiveWeight ep + sumZ ws') in *.
    destruct (Z.ltb_spec point (effectiveWeight ep)) as [Hlt|Hge].
    + exists 0%nat, (effectiveWeight ep). cbn. repeat split; try lia.
      f_equal. lia.
    + rewrite wrapInt64_id by (unfold MinInt64, MaxInt64 in *; lia).
      destruct (IH ws' (S i) (point - effectiveWeight ep) eq_refl)
        as (j & w & Hj & Hl & Hb); [lia..|].
      exists (S j), w. cbn [take lookup list_lookup].
      change (sumZ (effectiveWeight ep :: take j ws'))
        with (effectiveWeight ep + sumZ (take j ws')).
      repeat split; try lia; [|assumption].
      rewrite Hj. f_equal. lia.
Qed.

(** C4 (as stated, refuted). Two candidates with weights 50 and 100 and
    [userID = 1]: the code counts the first with its own weight 50 (only a
    non-positive weight is replaced by 100), so the total is 150, the point
    is 104 and the start index is 1; with [max(weight, 100)] the total would
    be 200, the point 4 and the start index 0. *)
Lemma weight_floor_counterexample :
  let eps := [newEndpointState (exampleConfig 10 50 30 "" 5 3 2 0 0) 0;
              newEndpointState (exampleConfig 10 100 30 "" 5 3 2 0 0) 0] in
  candidateWeights eps [0; 1]%nat = [Some 50; Some 100]
  /\ totalWeight_loop eps [0; 1]%nat 0 = Some 150
  /\ sumZ (map (fun w => Z.max w 100) [50; 100]) = 200
  /\ chooseWeightedStart eps [0; 1]%nat 1 0 = Some 1%nat
  /\ specWeightedStart [50; 100] (startSeed 1 0) = 0%nat.
Proof. vm_compute. repeat split. Qed.

(** C4 (amended). A candidate's effective weight is its configured weight
    when that is positive (so a weight strictly between 0 and 100 counts as
    itself) and 100 when it is not positive. For every non-empty candidate
    list of valid indices whose effective weights sum to at most the largest
    [int]: the total computed by the first loop is that sum, the point is
    the finalized seed modulo the total (the seed being [userID] when
    positive, the clock's nanoseconds otherwise), and the start index is the
    one candidate [i] with
    [sum of the weights before i <= point < that sum + weight of i], that
    is, the first in list order whose weight exceeds what remains of the
    point after subtracting the weights before it. *)
Theorem weighted_start_position (eps : list endpointState) (candidates : list nat)
    (userID : Z) (now : time.Time) (ws : list Z) :
  candidates <> [] ->
  effectiveWeights eps candidates = Some ws ->
  sumZ ws <= MaxInt64 ->
  let point := mix64 (startSeed userID now) mod sumZ ws in
  (forall ep, (0 < Weight (cfg ep) -> effectiveWeight ep = Weight (cfg ep))
              /\ (Weight (cfg ep) <= 0 -> effectiveWeight ep = 100))
  /\ totalWeight_loop eps candidates 0 = Some (sumZ ws)
  /\ exists i w,
       chooseWeightedStart eps candidates userID now = Some i
       /\ ws !! i = Some w
       /\ sumZ (take i ws) <= point < sumZ (take i ws) + w.
Proof.
  intros Hne Hws Hs point.
  pose proof (effectiveWeights_pos _ _ _ Hws) as Hpos.
  assert (Htot : totalWeight_loop eps candidates 0 = Some (sumZ ws)).
  { rewrite (totalWeight_loop_sum eps candidates ws 0 Hws); [reflexivity|lia..]. }
  assert (H0 : 0 < sumZ ws).
  { destruct candidates as [|idx rest]; [congruence|]. cbn in Hws.
    destruct (eps !! idx) as [ep|]; [|discriminate]. cbn in Hws.
    destruct (effectiveWeights eps rest) as [ws'|] eqn:Hr; [|discriminate].
    cbn in Hws. injection Hws as <-.
    pose proof (effectiveWeight_pos ep).
    pose proof (sumZ_nonneg ws' (effectiveWeights_pos _ _ _ Hr)).
    change (sumZ (effectiveWeight ep :: ws')) with (effectiveWeight ep + sumZ ws').
    lia. }
  split; [|split; [exact Htot|]].
  - intros ep. unfold effectiveWeight.
    destruct (Z.leb_spec (Weight (cfg ep)) 0); split; intros; lia.
  - assert (Hp : 0 <= point < sumZ ws) by (apply Z.mod_pos_bound; lia).
    destruct (pickStart_loop_spec eps candidates ws 0 point Hws Hp Hs)
      as (j & w & Hj & Hl & Hb).
    exists j, w. split; [|split; assumption].
    unfold chooseWeightedStart. rewrite Htot. cbn [mbind option_bind].
    destruct candidates as [|idx rest]; [congruence|]. cbn [length Nat.eqb].
    destruct (Z.leb_spec (sumZ ws) 0); [lia|].
    rewrite wrapUint64_id by (unfold MaxInt64 in Hs; lia).
    exact Hj.
Qed.

Lemma weighted_start_position_witness :
  let eps := [newEndpointState (exampleConfig 10 50 30 "" 5 3 2 0 0) 0;
              newEndpointState (exampleConfig 10 100 30 "" 5 3 2 0 0) 0] in
  exists i w,
    chooseWeightedStart eps [0; 1]%nat 1 0 = Some i
    /\ [50; 100] !! i = Some w
    /\ sumZ (take i [50; 100]) <= mix64 (startSeed 1 0) mod sumZ [50; 100]
       < sumZ (take i [50; 100]) + w.
Proof.
  intros eps.
  apply (weighted_start_position eps [0; 1]%nat 1 0 [50; 100]);
    [discriminate|reflexivity|vm_compute; congruence].
Defined.

(** ** Token bucket *)

Lemma IsZero_after_epoch (t : time.Time) : 0 <= t -> time.IsZero t = false.
Proof.
  intros H. unfold time.IsZero, time.zeroTime.
  destruct (Z.eqb_spec t (-62135596800 * 10 ^ 9)); [lia|reflexivity].
Qed.

(** A take at the very instant of the last refill: nothing is added. *)
Lemma takeRateToken_same_instant (ep : endpointState) (now : time.Time) :
  RateLimitPerMin (cfg ep) = 60 -> RateLimitBurst (cfg ep) = 10 ->
  rateLastRefill ep = now -> 0 <= now ->
  takeRateToken ep now
  = if PrimFloat.leb 1 (rateTokens ep)
    then (set_bucket (PrimFloat.sub (rateTokens ep) 1) now ep, true)
    else (set_bucket (rateTokens ep) now ep, false).
Proof.
  intros Hp Hb Hl Hn. unfold takeRateToken.
  rewrite Hp, Hb, Hl, (IsZero_after_epoch now Hn).
  unfold time.Sub. rewrite Z.sub_diag.
  change (PrimFloat.ltb 0 (PrimFloat.div (float64_of_int 60) 60)) with true.
  change (PrimFloat.ltb 0
            (time.Seconds (if 0 >? MaxInt64 then MaxInt64
                           else if 0 <? MinInt64 then MinInt64 else 0)))
    with false.
  reflexivity.
Qed.

(** A take one second after the last refill: one token is added, up to the
    capacity of 70. *)
Lemma takeRateToken_one_second_later (ep : endpointState) (t0 : time.Time) :
  RateLimitPerMin (cfg ep) = 60 -> RateLimitBurst (cfg ep) = 10 ->
  rateLastRefill ep = t0 -> 0 <= t0 ->
  let now := time.Add t0 time.Second in
  let tokens := PrimFloat.add (rateTokens ep) 1 in
  let tokens := if PrimFloat.ltb 70 tokens then 70%float else tokens in
  takeRateToken ep now
  = if PrimFloat.leb 1 tokens
    then (set_bucket (PrimFloat.sub tokens 1) now ep, true)
    else (set_bucket tokens now ep, false).
Proof.
  intros Hp Hb Hl Hn now tokens0 tokens. unfold takeRateToken.
  rewrite Hp, Hb, Hl, (IsZero_after_epoch t0 Hn).
  unfold time.Sub.
  replace (now - t0) with time.Second by (unfold now, time.Add; lia).
  change (PrimFloat.ltb 0 (PrimFloat.div (float64_of_int 60) 60)) with true.
  change (time.Seconds (if time.Second >? MaxInt64 then MaxInt64
                        else if time.Second <? MinInt64 then MinInt64
                             else time.Second))
    with 1%float.
  change (PrimFloat.ltb 0 1) with true.
  change (PrimFloat.mul 1 (PrimFloat.div (float64_of_int 60) 60)) with 1%float.
  change (if PrimFloat.leb (float64_of_int (wrapInt64 (60 + 10))) 0
          then float64_of_int 60 else float64_of_int (wrapInt64 (60 + 10)))
    with 70%float.
  reflexivity.
Qed.

Lemma takeTimes_same_instant (n : nat) : forall (ep : endpointState) (now : time.Time),
  RateLimitPerMin (cfg ep) = 60 -> RateLimitBurst (cfg ep) = 10 ->
  rateLastRefill ep = now -> 0 <= now ->
  everyTakePasses n (rateTokens ep) = true ->
  snd (takeTimes n now ep) = replicate n true
  /\ cfg (fst (takeTimes n now ep)) = cfg ep
  /\ rateLastRefill (fst (takeTimes n now ep)) = now
  /\ rateTokens (fst (takeTimes n now ep)) = drained n (rateTokens ep).
Proof.
  induction n as [|n IH]; intros ep now Hp Hb Hl Hn Ha.
  - cbn. repeat split. assumption.
  - cbn [everyTakePasses] in Ha. apply andb_prop in Ha as [H1 Ha].
    cbn [takeTimes]. rewrite (takeRateToken_same_instant ep now Hp Hb Hl Hn), H1.
    specialize (IH (set_bucket (PrimFloat.sub (rateTokens ep) 1) now ep) now
                  Hp Hb eq_refl Hn Ha).
    destruct (takeTimes n now _) as [ep2 oks]. cbn in *.
    destruct IH as (-> & Hc & Hr & Ht). repeat split; assumption.
Qed.

(** C8. An endpoint with [rate_limit_per_min = 60] and
    [rate_limit_burst = 10], freshly built by the registry at the instant
    [t0]: seventy takes at [t0] are all admitted, the seventy-first at [t0]
    is denied and leaves the tokens as they are, one second later one take is
    admitted and the next one at that same instant is denied. *)
Theorem token_bucket_60_10 (c : ProviderConfig) (t0 : time.Time) :
  RateLimitPerMin c = 60 -> RateLimitBurst c = 10 -> 0 <= t0 ->
  let ep0 := newEndpointState c t0 in
  let r70 := takeTimes 70 t0 ep0 in
  let r71 := takeRateToken (fst r70) t0 in
  let r72 := takeRateToken (fst r71) (time.Add t0 time.Second) in
  let r73 := takeRateToken (fst r72) (time.Add t0 time.Second) in
  snd r70 = replicate 70 true
  /\ snd r71 = false
  /\ rateTokens (fst r71) = rateTokens (fst r70)
  /\ snd r72 = true
  /\ snd r73 = false.
Proof.
  intros Hp Hb Hn ep0 r70 r71 r72 r73.
  assert (Ht0 : rateTokens ep0 = 70%float).
  { unfold ep0, newEndpointState. cbn [rateTokens]. rewrite Hp, Hb. reflexivity. }
  destruct (takeTimes_same_instant 70 ep0 t0 Hp Hb eq_refl Hn)
    as (Hoks & Hc70 & Hl70 & Ht70).
  { rewrite Ht0. vm_compute. reflexivity. }
  fold r70 in Hoks, Hc70, Hl70, Ht70.
  rewrite Ht0 in Ht70.
  change (drained 70 70) with 0%float in Ht70.
  assert (Hp70 : RateLimitPerMin (cfg (fst r70)) = 60) by (rewrite Hc70; exact Hp).
  assert (Hb70 : RateLimitBurst (cfg (fst r70)) = 10) by (rewrite Hc70; exact Hb).
  assert (E71 : r71 = (set_bucket 0%float t0 (fst r70), false)).
  { unfold r71. rewrite (takeRateToken_same_instant _ t0 Hp70 Hb70 Hl70 Hn), Ht70.
    reflexivity. }
  assert (E72 : r72 = (set_bucket 0%float (time.Add t0 time.Second) (fst r71), true)).
  { unfold r72. rewrite E71. cbn [fst].
    rewrite (takeRateToken_one_second_later (set_bucket 0%float t0 (fst r70)) t0
               Hp70 Hb70 eq_refl Hn).
    cbn [rateTokens set_bucket]. reflexivity. }
  assert (E73 : snd r73 = false).
  { unfold r73. rewrite E72, E71. cbn [fst].
    rewrite (takeRateToken_same_instant
               (set_bucket 0%float (time.Add t0 time.Second)
                  (set_bucket 0%float t0 (fst r70)))
               (time.Add t0 time.Second) Hp70 Hb70 eq_refl);
      [reflexivity|unfold time.Add, time.Second; lia]. }
  rewrite E71, E72. cbn [fst snd rateTokens set_bucket].
  repeat split; try assumption. symmetry. exact Ht70.
Qed.

Lemma token_bucket_60_10_witness :
  let ep0 := newEndpointState (exampleConfig 10 100 30 "" 5 3 2 60 10) 0 in
  snd (takeTimes 70 0 ep0) = replicate 70 true
  /\ snd (takeRateToken (fst (takeTimes 70 0 ep0)) 0) = false.
Proof.
  intros ep0.
  destruct (token_bucket_60_10 (exampleConfig 10 100 30 "" 5 3 2 60 10) 0)
    as (H70 & H71 & _); [reflexivity|reflexivity|lia|].
  split; [exact H70|exact H71].
Defined.

(** ** Cancellation *)


Lemma handleFailure_effect v err ep :
  let ep' := handleFailure v err ep in
  failures (stats ep') = wrapUint64 (failures (stats ep) + 1)
  /\ healthFailedStreak ep' = wrapUint32 (healthFailedStreak ep + 1)
  /\ totalRequests (stats ep') = totalRequests (stats ep).
Proof. unfold handleFailure. cbn. destruct (_ >=? _); cbn; repeat split. Qed.


(** Whatever the context answers, the walk ends in a reply, in the
    no-concrete-error error, in the first error wrapped, or in a panic. *)
Lemma walk_result ctx now env candidates startPos n : forall i eps firstErr,
  match snd (walk ctx now env candidates startPos n i eps firstErr) with
  | Err e =>
      e = errorx_New Internal msgNoConcreteError
      \/ exists cause, e = errorx_Wrap cause Internal msgAllEndpointsFailed
  | _ => True
  end.
Proof.
  induction n as [|n IH]; intros i eps firstErr; cbn [walk].
  - destruct firstErr as [e|]; cbn; [right; now exists e|now left].
  - destruct (candidates !! _) as [idx|]; [|exact I].
    destruct (eps !! idx) as [ep|]; [|exact I].
    destruct (visit (ctx i) now (env i) ep) as [ep' [|r|err]]; [apply IH|exact I|apply IH].
Qed.



(** * Further properties of the manager *)

(** ** The walk as a whole *)

Lemma selectCandidates_loop_NoDup now rest : forall i minPri candidates,
  NoDup candidates -> (forall k, k ∈ candidates -> (k < i)%nat) ->
  NoDup (selectCandidates_loop now rest i minPri candidates)
  /\ (forall k, k ∈ selectCandidates_loop now rest i minPri candidates ->
                (k < i + length rest)%nat).
Proof.
  induction rest as [|ep rest IH]; intros i minPri candidates Hn Hb.
  - cbn. split; [assumption|]. intros k Hk. specialize (Hb k Hk). lia.
  - rewrite selectCandidates_loop_cons. cbn [length].
    assert (Hstep : forall m c, NoDup c -> (forall k, k ∈ c -> (k < S i)%nat) ->
              NoDup (selectCandidates_loop now rest (S i) m c)
              /\ (forall k, k ∈ selectCandidates_loop now rest (S i) m c ->
                            (k < i + S (length rest))%nat)).
    { intros m c Hc Hcb. destruct (IH (S i) m c Hc Hcb) as [H1 H2].
      split; [assumption|]. intros k Hk. specialize (H2 k Hk). lia. }
    assert (Hsame : forall k, k ∈ candidates -> (k < S i)%nat)
      by (intros k Hk; specialize (Hb k Hk); lia).
    destruct (primaryGate now ep); [|now apply Hstep].
    destruct (normPriority ep <? minPri).
    + apply Hstep; [apply NoDup_singleton|].
      intros k Hk. apply list_elem_of_singleton in Hk. lia.
    + destruct (normPriority ep =? minPri); [|now apply Hstep].
      apply Hstep.
      * apply NoDup_app. split; [assumption|]. split; [|apply NoDup_singleton].
        intros k Hk Hk'. apply list_elem_of_singleton in Hk'.
        specialize (Hb k Hk). lia.
      * intros k Hk. apply elem_of_app in Hk as [Hk|Hk]; [now apply Hsame|].
        apply list_elem_of_singleton in Hk. lia.
Qed.

Lemma collectByPriority_loop_NoDup rest : forall i minPri candidates,
  NoDup candidates -> (forall k, k ∈ candidates -> (k < i)%nat) ->
  NoDup (collectByPriority_loop rest i minPri candidates).
Proof.
  induction rest as [|ep rest IH]; intros i minPri candidates Hn Hb;
    [exact Hn|].
  cbn [collectByPriority_loop].
  assert (Hsame : forall k, k ∈ candidates -> (k < S i)%nat)
    by (intros k Hk; specialize (Hb k Hk); lia).
  destruct (inCircuitOpen ep =? 1); [now apply IH|].
  destruct (normPriority ep =? minPri); [|now apply IH].
  apply IH.
  - apply NoDup_app. split; [assumption|]. split; [|apply NoDup_singleton].
    intros k Hk Hk'. apply list_elem_of_singleton in Hk'.
    specialize (Hb k Hk). lia.
  - intros k Hk. apply elem_of_app in Hk as [Hk|Hk]; [now apply Hsame|].
    apply list_elem_of_singleton in Hk. lia.
Qed.

Lemma pickCandidates_NoDup eps now : NoDup (pickCandidates eps now).
Proof.
  unfold pickCandidates. destruct (length (selectCandidates eps now) =? 0)%nat.
  - unfold selectAllByMinPriority. destruct eps as [|ep rest]; [constructor|].
    apply collectByPriority_loop_NoDup; [constructor|].
    intros k Hk. apply elem_of_nil in Hk as [].
  - apply selectCandidates_loop_NoDup; [constructor|].
    intros k Hk. apply elem_of_nil in Hk as [].
Qed.

Lemma pickCandidates_valid eps now k :
  k ∈ pickCandidates eps now -> exists ep, eps !! k = Some ep.
Proof.
  unfold pickCandidates. destruct (length (selectCandidates eps now) =? 0)%nat.
  - intros H. apply selectAllByMinPriority_spec in H as (ep & H & _). now exists ep.
  - intros H. apply selectCandidates_spec in H as (ep & H & _). now exists ep.
Qed.

Lemma handleSuccess_cfg v resp ep : cfg (fst (handleSuccess v resp ep)) = cfg ep.
Proof.
  unfold handleSuccess. cbn. destruct (inCircuitOpen ep =? 1); cbn; [|reflexivity].
  destruct (_ >=? _); reflexivity.
Qed.

(** A visit keeps the configuration and makes at most one upstream call. *)
Lemma visit_effect ctxErr now v ep :
  let ep' := fst (visit ctxErr now v ep) in
  cfg ep' = cfg ep
  /\ (totalRequests (stats ep') = totalRequests (stats ep)
      \/ totalRequests (stats ep') = wrapUint64 (totalRequests (stats ep) + 1)).
Proof.
  unfold visit. destruct (breakerGateSkips v ep); [cbn; split; [reflexivity|now left]|].
  pose proof (inlinePing_frame ctxErr v ep) as (_ & Hs1 & Hc1).
  destruct (inlinePing ctxErr v ep) as [ep1 [|]]; cbn in Hs1, Hc1;
    [|cbn; rewrite Hs1; split; [assumption|now left]].
  pose proof (rateGate_frame now ep1) as (_ & Hs2 & Hc2 & _).
  destruct (rateGate now ep1) as [ep2 [|]]; cbn in Hs2, Hc2;
    [|cbn; rewrite Hs2, Hs1; split; [congruence|now left]].
  unfold callUpstream. destruct (chat v) as [resp|err].
  - pose proof (handleSuccess_effect v resp
                  (set_stats (fun s => set_totalRequests
                                         (wrapUint64 (totalRequests s + 1)) s) ep2))
      as (_ & _ & Ht & _).
    pose proof (handleSuccess_cfg v resp
                  (set_stats (fun s => set_totalRequests
                                         (wrapUint64 (totalRequests s + 1)) s) ep2))
      as Hc.
    destruct (handleSuccess _ _ _) as [ep3 r3]. cbn in *.
    split; [congruence|]. right. rewrite Ht, Hs2, Hs1. reflexivity.
  - cbn [fst]. rewrite handleFailure_cfg.
    destruct (handleFailure_effect v err
                (set_stats (fun s => set_totalRequests
                                       (wrapUint64 (totalRequests s + 1)) s) ep2))
      as (_ & _ & Ht).
    split; [cbn; congruence|]. right. rewrite Ht. cbn. rewrite Hs2, Hs1. reflexivity.
Qed.

Lemma mod_shift_inj (L s j1 j2 : nat) :
  (j1 < L)%nat -> (j2 < L)%nat ->
  ((s + j1) mod L = (s + j2) mod L)%nat -> j1 = j2.
Proof.
  intros H1 H2 H.
  pose proof (Nat.div_mod_eq (s + j1) L) as E1.
  pose proof (Nat.div_mod_eq (s + j2) L) as E2.
  rewrite H in E1.
  assert (Hq : ((s + j1) / L = (s + j2) / L)%nat) by nia.
  nia.
Qed.

(** What the rest of a walk does to the snapshot: the length and every
    configuration stay, an endpoint that is not due in the rest of the walk
    stays as it is, and every endpoint gets at most one upstream call. *)
Lemma walk_touch ctx now env candidates startPos n :
  NoDup candidates ->
  forall i eps firstErr,
    (i + n <= length candidates)%nat ->
    let eps' := fst (walk ctx now env candidates startPos n i eps firstErr) in
    length eps' = length eps
    /\ forall idx ep, eps !! idx = Some ep ->
         exists ep', eps' !! idx = Some ep'
           /\ cfg ep' = cfg ep
           /\ ((forall j, (i <= j < i + n)%nat ->
                  candidates !! ((startPos + j) mod length candidates)%nat
                  <> Some idx) -> ep' = ep)
           /\ (totalRequests (stats ep') = totalRequests (stats ep)
               \/ totalRequests (stats ep')
                  = wrapUint64 (totalRequests (stats ep) + 1)).
Proof.
  intros Hnd. induction n as [|n IH]; intros i eps firstErr Hb; cbn [walk].
  - destruct firstErr; cbn; (split; [reflexivity|]); intros idx ep He;
      exists ep; repeat split; auto.
  - set (L := length candidates) in *.
    assert (Hstay : forall r : dispatchResult,
              length (fst (eps, r)) = length eps
              /\ forall idx ep, eps !! idx = Some ep ->
                   exists ep', fst (eps, r) !! idx = Some ep'
                     /\ cfg ep' = cfg ep
                     /\ ((forall j, (i <= j < i + S n)%nat ->
                            candidates !! ((startPos + j) mod L)%nat <> Some idx) ->
                         ep' = ep)
                     /\ (totalRequests (stats ep') = totalRequests (stats ep)
                         \/ totalRequests (stats ep')
                            = wrapUint64 (totalRequests (stats ep) + 1))).
    { intros r. cbn. split; [reflexivity|]. intros idx ep He.
      exists ep. repeat split; auto. }
    destruct (candidates !! ((startPos + i) mod L)%nat) as [idx0|] eqn:Hc;
      [|apply Hstay].
    destruct (eps !! idx0) as [ep0|] eqn:He0; [|apply Hstay].
    pose proof (visit_effect (ctx i) now (env i) ep0) as (Hcfg0 & Htr0).
    destruct (visit (ctx i) now (env i) ep0) as [ep0' out] eqn:Hv.
    cbn [fst] in Hcfg0, Htr0.
    assert (Hlen : length (<[idx0 := ep0']> eps) = length eps)
      by apply length_insert.
    assert (Hlater : forall j, (S i <= j < S i + n)%nat ->
              candidates !! ((startPos + j) mod L)%nat <> Some idx0).
    { intros j Hj Hcj.
      assert (Hp : ((startPos + j) mod L = (startPos + i) mod L)%nat).
      { eapply NoDup_lookup; eassumption. }
      apply mod_shift_inj in Hp; lia. }
    assert (Hrest : forall fe,
              let eps' := fst (walk ctx now env candidates startPos n (S i)
                                 (<[idx0 := ep0']> eps) fe) in
              length eps' = length eps
              /\ forall idx ep, eps !! idx = Some ep ->
                   exists ep', eps' !! idx = Some ep'
                     /\ cfg ep' = cfg ep
                     /\ ((forall j, (i <= j < i + S n)%nat ->
                            candidates !! ((startPos + j) mod L)%nat <> Some idx) ->
                         ep' = ep)
                     /\ (totalRequests (stats ep') = totalRequests (stats ep)
                         \/ totalRequests (stats ep')
                            = wrapUint64 (totalRequests (stats ep) + 1))).
    { intros fe. destruct (IH (S i) (<[idx0 := ep0']> eps) fe) as [Hl Hall]; [lia|].
      cbn zeta. split; [congruence|]. intros idx ep He.
      destruct (Nat.eq_dec idx idx0) as [->|Hne].
      - assert (ep = ep0) by congruence. subst ep.
        destruct (Hall idx0 ep0') as (ep' & He' & Hc' & Hu' & _).
        { apply list_lookup_insert_eq. eapply lookup_lt_Some; eassumption. }
        specialize (Hu' Hlater). subst ep'.
        exists ep0'. repeat split; try assumption.
        intros Hno. exfalso. apply (Hno i); [lia|assumption].
      - destruct (Hall idx ep) as (ep' & He' & Hc' & Hu' & Ht').
        { rewrite list_lookup_insert_ne by congruence. assumption. }
        exists ep'. repeat split; try assumption.
        intros Hno. apply Hu'. intros j Hj. apply Hno. lia. }
    destruct out as [|r|err]; [apply Hrest| |apply Hrest].
    cbn [fst]. split; [assumption|]. intros idx ep He.
    destruct (Nat.eq_dec idx idx0) as [->|Hne].
    + assert (ep = ep0) by congruence. subst ep.
      exists ep0'. split; [apply list_lookup_insert_eq; eapply lookup_lt_Some; eassumption|].
      repeat split; try assumption.
      intros Hno. exfalso. apply (Hno i); [lia|assumption].
    + exists ep. split; [rewrite list_lookup_insert_ne by congruence; assumption|].
      repeat split; auto.
Qed.

(** X1. Dispatch calls each endpoint at most once. Whatever the world
    answers, [ChatForUser] returns a snapshot of the same length in which
    every endpoint keeps its configuration, an endpoint outside the candidate
    set of this call is exactly as it was, and the request counter of every
    endpoint has moved by at most one: no endpoint is attempted twice in one
    call. *)
Theorem dispatch_at_most_once (ctx : option Context) (userID : Z)
    (req : option client.ChatRequest) (w : world) :
  let eps' := fst (ChatForUser ctx userID req w) in
  length eps' = length (snapshot w)
  /\ forall idx ep, snapshot w !! idx = Some ep ->
       exists ep', eps' !! idx = Some ep'
         /\ cfg ep' = cfg ep
         /\ (idx ∉ pickCandidates (snapshot w) (clockNow w) -> ep' = ep)
         /\ (totalRequests (stats ep') = totalRequests (stats ep)
             \/ totalRequests (stats ep')
                = wrapUint64 (totalRequests (stats ep) + 1)).
Proof.
  assert (Hstay : forall r : dispatchResult,
            length (fst (snapshot w, r)) = length (snapshot w)
            /\ forall idx ep, snapshot w !! idx = Some ep ->
                 exists ep', fst (snapshot w, r) !! idx = Some ep'
                   /\ cfg ep' = cfg ep
                   /\ (idx ∉ pickCandidates (snapshot w) (clockNow w) -> ep' = ep)
                   /\ (totalRequests (stats ep') = totalRequests (stats ep)
                       \/ totalRequests (stats ep')
                          = wrapUint64 (totalRequests (stats ep) + 1))).
  { intros r. cbn. split; [reflexivity|]. intros idx ep He.
    exists ep. repeat split; auto. }
  unfold ChatForUser.
  destruct ctx as [ctx|]; [|apply Hstay].
  destruct req as [req|]; [|apply Hstay].
  destruct (loadErr w); [apply Hstay|].
  destruct (length (snapshot w) =? 0)%nat; [apply Hstay|].
  destruct (length (pickCandidates _ _) =? 0)%nat; [apply Hstay|].
  destruct (chooseWeightedStart _ _ _ _) as [startPos|]; [|apply Hstay].
  destruct (walk_touch ctx (clockNow w) (visits w)
              (pickCandidates (snapshot w) (clockNow w)) startPos
              (length (pickCandidates (snapshot w) (clockNow w)))
              (pickCandidates_NoDup _ _) 0 (snapshot w) None) as [Hl Hall]; [lia|].
  cbn zeta. split; [assumption|]. intros idx ep He.
  destruct (Hall idx ep He) as (ep' & He' & Hc' & Hu' & Ht').
  exists ep'. repeat split; try assumption.
  intros Hnot. apply Hu'. intros j _ Hcj. apply Hnot.
  eapply list_elem_of_lookup_2. exact Hcj.
Qed.

Lemma totalWeight_loop_Some eps candidates : forall acc,
  (forall k, k ∈ candidates -> exists ep, eps !! k = Some ep) ->
  exists t, totalWeight_loop eps candidates acc = Some t.
Proof.
  induction candidates as [|idx rest IH]; intros acc Hv; cbn; [now eexists|].
  destruct (Hv idx) as [ep ->]; [apply elem_of_cons; now left|]. cbn.
  apply IH. intros k Hk. apply Hv. apply elem_of_cons. now right.
Qed.

Lemma pickStart_loop_Some eps candidates : forall i point,
  (forall k, k ∈ candidates -> exists ep, eps !! k = Some ep) ->
  exists s, pickStart_loop eps candidates i point = Some s.
Proof.
  induction candidates as [|idx rest IH]; intros i point Hv; cbn; [now eexists|].
  destruct (Hv idx) as [ep ->]; [apply elem_of_cons; now left|]. cbn.
  destruct (point <? _); [now eexists|].
  apply IH. intros k Hk. apply Hv. apply elem_of_cons. now right.
Qed.

Lemma chooseWeightedStart_Some eps candidates userID now :
  (forall k, k ∈ candidates -> exists ep, eps !! k = Some ep) ->
  exists s, chooseWeightedStart eps candidates userID now = Some s.
Proof.
  intros Hv. unfold chooseWeightedStart.
  destruct (length candidates =? 0)%nat; [now eexists|].
  destruct (totalWeight_loop_Some eps candidates 0 Hv) as [t ->]. cbn.
  destruct (t <=? 0); [now eexists|]. now apply pickStart_loop_Some.
Qed.

Lemma walk_no_panic ctx now env candidates startPos (len : nat) n :
  candidates <> [] ->
  (forall k, k ∈ candidates -> (k < len)%nat) ->
  forall i eps firstErr,
    length eps = len ->
    snd (walk ctx now env candidates startPos n i eps firstErr) <> Panic.
Proof.
  intros Hne Hv. induction n as [|n IH]; intros i eps firstErr Hl; cbn [walk].
  - destruct firstErr; discriminate.
  - assert (Hpos : ((startPos + i) mod length candidates < length candidates)%nat).
    { apply Nat.mod_upper_bound. destruct candidates; [congruence|cbn; lia]. }
    destruct (lookup_lt_is_Some_2 _ _ Hpos) as [idx Hc]. rewrite Hc.
    assert (Hidx : (idx < length eps)%nat).
    { rewrite Hl. apply Hv. eapply list_elem_of_lookup_2. exact Hc. }
    destruct (lookup_lt_is_Some_2 _ _ Hidx) as [ep He]. rewrite He.
    destruct (visit (ctx i) now (env i) ep) as [ep' [|r|err]];
      [apply IH|discriminate|apply IH]; rewrite length_insert; exact Hl.
Qed.

(** X2. [ChatForUser] never indexes outside the snapshot or the candidate
    list: whatever the snapshot, the clock, the user and the answers of the
    world, the call ends in a reply or in an error, not in a run-time
    panic. *)
Theorem dispatch_never_panics (ctx : option Context) (userID : Z)
    (req : option client.ChatRequest) (w : world) :
  snd (ChatForUser ctx userID req w) <> Panic.
Proof.
  unfold ChatForUser.
  destruct ctx as [ctx|]; [|discriminate].
  destruct req as [req|]; [|discriminate].
  destruct (loadErr w); [discriminate|].
  destruct (length (snapshot w) =? 0)%nat; [discriminate|].
  destruct (length (pickCandidates _ _) =? 0)%nat eqn:Hl; [discriminate|].
  assert (Hv : forall k, k ∈ pickCandidates (snapshot w) (clockNow w) ->
               exists ep, snapshot w !! k = Some ep)
    by (intros k; apply pickCandidates_valid).
  destruct (chooseWeightedStart_Some (snapshot w) _ userID (clockNow w) Hv)
    as [startPos ->].
  apply (walk_no_panic ctx (clockNow w) (visits w) _ startPos (length (snapshot w)));
    [|intros k Hk|reflexivity].
  - intros He. rewrite He in Hl. discriminate.
  - destruct (Hv k Hk) as [ep He]. eapply lookup_lt_Some. exact He.
Qed.

(** Some breaker-closed endpoint within the sentinel makes the fallback pass
    non-empty. *)
Lemma closed_endpoint_picked eps i ep :
  eps !! i = Some ep -> inCircuitOpen ep <> 1 -> normPriority ep <= MaxInt32 ->
  exists k, k ∈ selectAllByMinPriority eps.
Proof.
  intros Hi Ho Hb.
  assert (Hg : closedGate ep = true) by (apply closedGate_iff; exact Ho).
  pose proof (minEligible_le_elem closedGate eps MaxInt32 i ep Hi Hg) as Hle.
  destruct (minEligible_attained closedGate eps MaxInt32)
    as [He|(j & ep' & Hj & Hg' & Hp)].
  - exists i. apply selectAllByMinPriority_spec. exists ep.
    repeat split; try assumption. lia.
  - exists j. apply selectAllByMinPriority_spec. exists ep'.
    repeat split; assumption.
Qed.

(** X3. Over a non-empty snapshot whose normalised priorities stay within
    [math.MaxInt32], [ChatForUser] fails with the no-available-endpoint
    error exactly when the breaker of every endpoint is open; in that case
    no endpoint is touched. Cooldown alone never produces this error. *)
Theorem no_available_iff_all_open (eps : list endpointState) (now : time.Time)
    (ctx : Context) (userID : Z) (req : client.ChatRequest)
    (env : nat -> visitEnv) :
  eps <> [] ->
  (forall i ep, eps !! i = Some ep -> normPriority ep <= MaxInt32) ->
  (snd (ChatForUser (Some ctx) userID (Some req) (loadedWorld eps now env))
   = Err (errorx_New Internal msgNoAvailableEndpoint)
   <-> forall i ep, eps !! i = Some ep -> inCircuitOpen ep = 1)
  /\ ((forall i ep, eps !! i = Some ep -> inCircuitOpen ep = 1) ->
      fst (ChatForUser (Some ctx) userID (Some req) (loadedWorld eps now env)) = eps).
Proof.
  intros Hne Hb.
  assert (Hopen : (forall i ep, eps !! i = Some ep -> inCircuitOpen ep = 1) ->
                  pickCandidates eps now = []).
  { intros Hall. apply elem_of_nil_inv. intros k Hk.
    destruct (pickCandidates_valid eps now k Hk) as [ep He].
    exact (open_breaker_not_picked eps k ep now He (Hall k ep He) Hk). }
  unfold ChatForUser, loadedWorld. cbn [loadErr snapshot clockNow visits].
  destruct eps as [|ep0 rest] eqn:Heps; [congruence|]. rewrite <- Heps in *.
  replace (length eps =? 0)%nat with false by (rewrite Heps; reflexivity).
  split.
  - split.
    + intros Hres i ep He.
      destruct (Z.eq_dec (inCircuitOpen ep) 1) as [|Ho]; [assumption|exfalso].
      destruct (closed_endpoint_picked eps i ep He Ho (Hb i ep He)) as [k Hk].
      assert (Hp : exists k', k' ∈ pickCandidates eps now).
      { unfold pickCandidates.
        destruct (selectCandidates eps now) as [|c cs]; cbn [length Nat.eqb].
        - now exists k.
        - exists c. apply elem_of_cons. now left. }
      destruct Hp as [k' Hk'].
      destruct (pickCandidates eps now) as [|c cs] eqn:Hpc;
        [apply elem_of_nil in Hk' as []|].
      cbn [length Nat.eqb] in Hres.
      destruct (chooseWeightedStart eps (c :: cs) userID now) as [startPos|];
        [|discriminate].
      pose proof (walk_result ctx now env (c :: cs) startPos (S (length cs)) 0
                    eps None) as Hw.
      rewrite Hres in Hw. destruct Hw as [Hw|[cause Hw]]; discriminate.
    + intros Hall. rewrite (Hopen Hall). reflexivity.
  - intros Hall. rewrite (Hopen Hall). reflexivity.
Qed.

Lemma no_available_iff_all_open_witness :
  let eps := [openBreakerEndpoint 2; openBreakerEndpoint 1] in
  let env := fun _ : nat => stillEnv 1 (ProbeOk 200 1) (inl okResponse) in
  snd (ChatForUser (Some (fun _ => None)) 7 (Some noRequest) (loadedWorld eps 1 env))
  = Err (errorx_New Internal msgNoAvailableEndpoint).
Proof.
  intros eps env.
  destruct (no_available_iff_all_open eps 1 (fun _ => None) 7 noRequest env)
    as [[_ H] _].
  - discriminate.
  - intros [|[|i]] ep He; try discriminate; injection He as <-;
      vm_compute; congruence.
  - apply H. intros [|[|i]] ep He; try discriminate; injection He as <-; reflexivity.
Defined.

(** ** Replies *)

Lemma visit_success_reply ctxErr now v ep ep' r :
  visit ctxErr now v ep = (ep', Succeeded r) ->
  chat v = inl (reply r)
  /\ replyProvider r = Provider (cfg ep)
  /\ replyModel r = Model (cfg ep)
  /\ replyInputPrice r = InputPricePer1k (cfg ep)
  /\ replyOutputPrice r = OutputPricePer1k (cfg ep)
  /\ 0 <= replyLatency r.
Proof.
  intros Hv. unfold visit in Hv.
  destruct (breakerGateSkips v ep); [discriminate|].
  pose proof (inlinePing_frame ctxErr v ep) as (_ & _ & Hc1).
  destruct (inlinePing ctxErr v ep) as [ep1 [|]]; [|discriminate]. cbn in Hc1.
  pose proof (rateGate_frame now ep1) as (_ & _ & Hc2 & _).
  destruct (rateGate now ep1) as [ep2 [|]]; [|discriminate]. cbn in Hc2.
  unfold callUpstream in Hv. destruct (chat v) as [resp|err]; [|discriminate].
  unfold handleSuccess in Hv. cbn in Hv.
  injection Hv as _ <-. cbn.
  assert (Hcfg : forall e1 e2 : endpointState, cfg e1 = cfg ep2 -> cfg e2 = cfg ep2 ->
            cfg (if inCircuitOpen ep2 =? 1 then e1 else e2) = cfg ep)
    by (intros e1 e2 H1 H2; destruct (inCircuitOpen ep2 =? 1); congruence).
  destruct (inCircuitOpen ep2 =? 1).
  - destruct (_ >=? _); cbn; rewrite Hc2, Hc1; repeat split;
      destruct (time.Milliseconds _ <? 0) eqn:Hl; try lia;
      apply Z.ltb_ge in Hl; exact Hl.
  - cbn; rewrite Hc2, Hc1; repeat split;
      destruct (time.Milliseconds _ <? 0) eqn:Hl; try lia;
      apply Z.ltb_ge in Hl; exact Hl.
Qed.

(** X4. A reply comes from a candidate of this call and carries that
    endpoint's metadata: when [ChatForUser] returns a reply, some index of
    the candidate set holds an endpoint whose configured provider, model and
    prices are the ones returned, the response is what the upstream client
    answered during some iteration, the latency is not negative, and in the
    snapshot left behind that endpoint has a zero failure streak and the
    returned latency recorded. *)
Theorem reply_comes_from_candidate (ctx : option Context) (userID : Z)
    (req : option client.ChatRequest) (w : world)
    (eps' : list endpointState) (r : chatReply) :
  ChatForUser ctx userID req w = (eps', Ok r) ->
  exists idx ep ep' j,
    idx ∈ pickCandidates (snapshot w) (clockNow w)
    /\ snapshot w !! idx = Some ep
    /\ chat (visits w j) = inl (reply r)
    /\ replyProvider r = Provider (cfg ep)
    /\ replyModel r = Model (cfg ep)
    /\ replyInputPrice r = InputPricePer1k (cfg ep)
    /\ replyOutputPrice r = OutputPricePer1k (cfg ep)
    /\ 0 <= replyLatency r
    /\ eps' !! idx = Some ep'
    /\ failureStreak (stats ep') = 0
    /\ lastLatencyMs (stats ep') = replyLatency r.
Proof.
  intros H. unfold ChatForUser in H.
  destruct ctx as [ctx|]; [|discriminate].
  destruct req as [req|]; [|discriminate].
  destruct (loadErr w); [discriminate|].
  destruct (length (snapshot w) =? 0)%nat; [discriminate|].
  destruct (length (pickCandidates _ _) =? 0)%nat; [discriminate|].
  destruct (chooseWeightedStart _ _ _ _) as [startPos|]; [|discriminate].
  destruct (walk_touch ctx (clockNow w) (visits w)
              (pickCandidates (snapshot w) (clockNow w)) startPos
              (length (pickCandidates (snapshot w) (clockNow w)))
              (pickCandidates_NoDup _ _) 0 (snapshot w) None) as [Hl Hall]; [lia|].
  rewrite H in Hl, Hall. cbn [fst] in Hl, Hall.
  apply walk_reply in H as (j & idx & mid & epm & ep' & Hc & Hm & Hv & ->).
  assert (Hi : <[idx := ep']> mid !! idx = Some ep')
    by (apply list_lookup_insert_eq; eapply lookup_lt_Some; exact Hm).
  assert (Hlt : (idx < length (snapshot w))%nat).
  { rewrite <- Hl, length_insert. eapply lookup_lt_Some. exact Hm. }
  destruct (lookup_lt_is_Some_2 _ _ Hlt) as [ep He].
  destruct (Hall idx ep He) as (ep'' & He'' & Hcfg & _).
  rewrite Hi in He''. injection He'' as <-.
  pose proof (visit_effect (ctx j) (clockNow w) (visits w j) epm) as (Hcm & _).
  rewrite Hv in Hcm. cbn [fst] in Hcm.
  destruct (visit_success_reply _ _ _ _ _ _ Hv) as (Hr & Hp & Hmo & Hip & Hop & Hlat).
  destruct (visit_success_effect _ _ _ _ _ _ Hv) as (_ & Hfs & _ & _ & Hll & _).
  exists idx, ep, ep', j.
  assert (Hce : cfg epm = cfg ep) by congruence.
  rewrite Hce in Hp, Hmo, Hip, Hop.
  repeat split; try assumption.
  eapply list_elem_of_lookup_2. exact Hc.
Qed.

Lemma reply_comes_from_candidate_witness :
  let ep := newEndpointState (exampleConfig 10 100 30 "" 5 3 2 0 0) 0 in
  let env := fun _ : nat => stillEnv 1 (ProbeOk 200 1) (inl okResponse) in
  exists idx ep0,
    [ep] !! idx = Some ep0 /\ Provider (cfg ep0) = "mock".
Proof.
  intros ep env.
  destruct (ChatForUser (Some (fun _ => None)) 7 (Some noRequest)
              (loadedWorld [ep] 1 env)) as [eps' res] eqn:Hc.
  assert (Hr : exists r, res = Ok r /\ replyProvider r = "mock")
    by (vm_compute in Hc; injection Hc as <- <-; eexists; split; reflexivity).
  destruct Hr as (r & -> & Hp).
  destruct (reply_comes_from_candidate _ _ _ _ _ _ Hc)
    as (idx & ep0 & _ & _ & _ & He & _ & Hpr & _).
  exists idx, ep0. split; [exact He|]. rewrite <- Hpr. exact Hp.
Defined.

(** ** Cooldown bounds *)

Lemma cooldownDuration_formula (cs streak : Z) :
  cs <= 10 ^ 9 -> 0 <= streak < 2 ^ 32 ->
  let base := if cs <=? 0 then 30 else cs in
  let e := Z.min (Z.max streak 1 - 1) 3 in
  cooldownDuration cs streak = Z.min (base * 2 ^ e * 10 ^ 9) (300 * 10 ^ 9).
Proof.
  intros Hc Hs base e. unfold cooldownDuration. fold base.
  assert (Hb : 0 < base <= 10 ^ 9) by (unfold base; destruct (Z.leb_spec cs 0); lia).
  set (s := if streak =? 0 then 1 else streak).
  assert (Hs1 : s = Z.max streak 1)
    by (unfold s; destruct (Z.eqb_spec streak 0); lia).
  assert (Hw : wrapUint32 (s - 1) = s - 1) by (unfold wrapUint32; apply Z.mod_small; lia).
  rewrite Hw.
  set (fe := if s - 1 >? 3 then 3 else s - 1).
  assert (Hfe : fe = e) by (unfold fe, e; destruct (Z.gtb_spec (s - 1) 3); lia).
  rewrite Hfe.
  assert (He : 0 <= e <= 3) by (unfold e; lia).
  assert (Hp : 1 <= 2 ^ e <= 8).
  { split; [apply (Z.pow_le_mono_r 2 0); lia|apply (Z.pow_le_mono_r 2 e 3); lia]. }
  rewrite Z.shiftl_1_l.
  rewrite (wrapInt64_id (2 ^ e)) by (unfold MinInt64, MaxInt64; lia).
  rewrite (wrapInt64_id (base * 2 ^ e)) by (unfold MinInt64, MaxInt64; nia).
  rewrite (wrapInt64_id (base * 2 ^ e * time.Second))
    by (unfold MinInt64, MaxInt64, time.Second; nia).
  unfold time.Minute, time.Second.
  destruct (Z.gtb_spec (base * 2 ^ e * 10 ^ 9) (5 * (60 * 10 ^ 9))); lia.
Qed.

(** X5. The cooldown computed by the failure path never exceeds five
    minutes, whatever the configuration and the streak. For a configured
    [cooldown_seconds] of at most 10^9 it is at least one second and it does
    not shrink as the failure streak grows: it is
    [min(base * 2^min(streak-1, 3) s, 300 s)] with [base] the configured
    seconds, or 30 when they are not positive. *)
Theorem cooldown_bounded_monotone :
  (forall cs streak, cooldownDuration cs streak <= 5 * time.Minute)
  /\ (forall cs streak,
         cs <= 10 ^ 9 -> 0 <= streak < 2 ^ 32 ->
         time.Second <= cooldownDuration cs streak)
  /\ (forall cs s1 s2,
         cs <= 10 ^ 9 -> 0 <= s1 -> s1 <= s2 -> s2 < 2 ^ 32 ->
         cooldownDuration cs s1 <= cooldownDuration cs s2).
Proof.
  split; [|split].
  - intros cs streak. unfold cooldownDuration.
    match goal with
    | |- (if ?a >? ?b then _ else _) <= _ => destruct (Z.gtb_spec a b); lia
    end.
  - intros cs streak Hc Hs. rewrite cooldownDuration_formula by assumption.
    unfold time.Second.
    assert (Hb : 0 < (if cs <=? 0 then 30 else cs))
      by (destruct (Z.leb_spec cs 0); lia).
    assert (He : 1 <= 2 ^ Z.min (Z.max streak 1 - 1) 3)
      by (apply (Z.pow_le_mono_r 2 0); lia).
    apply Z.min_glb; nia.
  - intros cs s1 s2 Hc H1 H12 H2.
    rewrite !cooldownDuration_formula by (try assumption; lia).
    assert (Hb : 0 < (if cs <=? 0 then 30 else cs))
      by (destruct (Z.leb_spec cs 0); lia).
    assert (He : 2 ^ Z.min (Z.max s1 1 - 1) 3 <= 2 ^ Z.min (Z.max s2 1 - 1) 3)
      by (apply Z.pow_le_mono_r; lia).
    apply Z.min_le_compat_r. nia.
Qed.

Lemma cooldown_bounded_monotone_witness :
  time.Second <= cooldownDuration 45 2
  /\ cooldownDuration 45 2 <= cooldownDuration 45 3.
Proof.
  destruct cooldown_bounded_monotone as (_ & H2 & H3).
  split; [apply H2; lia|apply H3; lia].
Defined.

(** ** Breaker thresholds *)

Lemma wrapUint32_small (z : Z) : 0 <= z < 2 ^ 32 -> wrapUint32 z = z.
Proof. unfold wrapUint32. intros H. apply Z.mod_small; lia. Qed.
Lemma handleFailure_breaker v err ep :
  inCircuitOpen (handleFailure v err ep)
  = if wrapUint32 (healthFailedStreak ep + 1) >=? maxInt (MaxErrorStreak (cfg ep)) 1
    then 1 else inCircuitOpen ep.
Proof. unfold handleFailure. cbn. destruct (_ >=? _); reflexivity. Qed.

Lemma maxInt_ge_1 (a : Z) : 1 <= maxInt a 1.
Proof. unfold maxInt. destruct (Z.gtb_spec a 1); lia. Qed.

Lemma afterFailures_breaker (calls : list (visitEnv * error)) :
  forall ep,
    let T := maxInt (MaxErrorStreak (cfg ep)) 1 in
    0 <= healthFailedStreak ep ->
    healthFailedStreak ep + Z.of_nat (length calls) < 2 ^ 32 ->
    inCircuitOpen ep = (if healthFailedStreak ep >=? T then 1 else 0) ->
    let ep' := afterFailures calls ep in
    cfg ep' = cfg ep
    /\ healthFailedStreak ep' = healthFailedStreak ep + Z.of_nat (length calls)
    /\ inCircuitOpen ep' = (if healthFailedStreak ep' >=? T then 1 else 0).
Proof.
  induction calls as [|[v err] rest IH]; intros ep T H0 Hk Ho.
  - cbn. repeat split; [lia|exact Ho].
  - cbn [afterFailures length] in *.
    destruct (handleFailure_effect v err ep) as (_ & Hf & _).
    pose proof (handleFailure_cfg v err ep) as Hc.
    pose proof (handleFailure_breaker v err ep) as Hb.
    rewrite wrapUint32_small in Hf, Hb by lia.
    destruct (IH (handleFailure v err ep)) as (Hc' & Hf' & Ho').
    + lia.
    + rewrite Hf. lia.
    + rewrite Hb, Hf, Hc. fold T. rewrite Ho.
      destruct (Z.geb_spec (healthFailedStreak ep + 1) T),
               (Z.geb_spec (healthFailedStreak ep) T); try reflexivity; lia.
    + rewrite Hc in Hc', Ho'. fold T in Ho'.
      repeat split; [assumption|rewrite Hf', Hf; lia|exact Ho'].
Qed.

Lemma consecutiveProbes_breaker (probes : list (probeOutcome * time.Time)) :
  forall ep,
    let T := maxInt (MaxErrorStreak (cfg ep)) 1 in
    Forall probeFailed probes ->
    0 <= healthFailedStreak ep ->
    healthFailedStreak ep + Z.of_nat (length probes) < 2 ^ 32 ->
    inCircuitOpen ep = (if healthFailedStreak ep >=? T then 1 else 0) ->
    let ep' := consecutiveProbes probes ep in
    cfg ep' = cfg ep
    /\ healthFailedStreak ep' = healthFailedStreak ep + Z.of_nat (length probes)
    /\ inCircuitOpen ep' = (if healthFailedStreak ep' >=? T then 1 else 0).
Proof.
  induction probes as [|[p t] rest IH]; intros ep T Hall H0 Hk Ho.
  - cbn. repeat split; [lia|exact Ho].
  - apply Forall_cons in Hall as [Hp Hall]. unfold probeFailed in Hp. cbn in Hp.
    destruct p as [s l|err lastErr]; [destruct Hp|].
    cbn [consecutiveProbes length] in *.
    destruct (pingEndpoint_failed err lastErr t t ep) as (Hc & Hf & Hb).
    rewrite wrapUint32_small in Hf, Hb by lia.
    destruct (IH (fst (pingEndpoint None (ProbeFailed err lastErr) t t ep)))
      as (Hc' & Hf' & Ho').
    + assumption.
    + lia.
    + rewrite Hf. lia.
    + rewrite Hb, Hf, Hc. fold T. rewrite Ho.
      destruct (Z.geb_spec (healthFailedStreak ep + 1) T),
               (Z.geb_spec (healthFailedStreak ep) T); try reflexivity; lia.
    + rewrite Hc in Hc', Ho'. fold T in Ho'.
      repeat split; [assumption|rewrite Hf', Hf; lia|exact Ho'].
Qed.

(** X6. The breaker opens at the threshold and not before. For an endpoint
    whose breaker is closed and whose health failure streak is zero, after
    [k] consecutive failed upstream calls (and likewise after [k]
    consecutive failed probes not cut short by cancellation) the streak is
    [k] and the breaker is open exactly when
    [k >= max(max_error_streak, 1)]; in particular a [max_error_streak] that
    is zero or negative opens it at the first failure. *)
Theorem breaker_opens_at_threshold (ep : endpointState) :
  healthFailedStreak ep = 0 -> inCircuitOpen ep = 0 ->
  (forall calls : list (visitEnv * error),
      Z.of_nat (length calls) < 2 ^ 32 ->
      healthFailedStreak (afterFailures calls ep) = Z.of_nat (length calls)
      /\ (inCircuitOpen (afterFailures calls ep) = 1
          <-> maxInt (MaxErrorStreak (cfg ep)) 1 <= Z.of_nat (length calls))
      /\ (inCircuitOpen (afterFailures calls ep) = 0
          <-> Z.of_nat (length calls) < maxInt (MaxErrorStreak (cfg ep)) 1))
  /\ (forall probes : list (probeOutcome * time.Time),
         Forall probeFailed probes ->
         Z.of_nat (length probes) < 2 ^ 32 ->
         healthFailedStreak (consecutiveProbes probes ep) = Z.of_nat (length probes)
         /\ (inCircuitOpen (consecutiveProbes probes ep) = 1
             <-> maxInt (MaxErrorStreak (cfg ep)) 1 <= Z.of_nat (length probes))
         /\ (inCircuitOpen (consecutiveProbes probes ep) = 0
             <-> Z.of_nat (length probes) < maxInt (MaxErrorStreak (cfg ep)) 1)).
Proof.
  intros Hf Ho.
  pose proof (maxInt_ge_1 (MaxErrorStreak (cfg ep))) as HT.
  assert (Hinit : inCircuitOpen ep
                  = (if healthFailedStreak ep >=? maxInt (MaxErrorStreak (cfg ep)) 1
                     then 1 else 0)).
  { rewrite Ho, Hf. destruct (Z.geb_spec 0 (maxInt (MaxErrorStreak (cfg ep)) 1));
      [lia|reflexivity]. }
  split.
  - intros calls Hk.
    pose proof (afterFailures_breaker calls ep) as Hx. cbn zeta in Hx.
    destruct Hx as (_ & Hf' & Ho'); [lia|lia|exact Hinit|].
    rewrite Hf in Hf'. rewrite Z.add_0_l in Hf'. rewrite Hf' in Ho'.
    split; [exact Hf'|]. rewrite Ho'.
    destruct (Z.geb_spec (Z.of_nat (length calls)) (maxInt (MaxErrorStreak (cfg ep)) 1));
      split; split; intros; try lia; try reflexivity; discriminate.
  - intros probes Hall Hk.
    pose proof (consecutiveProbes_breaker probes ep) as Hx. cbn zeta in Hx.
    destruct Hx as (_ & Hf' & Ho'); [exact Hall|lia|lia|exact Hinit|].
    rewrite Hf in Hf'. rewrite Z.add_0_l in Hf'. rewrite Hf' in Ho'.
    split; [exact Hf'|]. rewrite Ho'.
    destruct (Z.geb_spec (Z.of_nat (length probes)) (maxInt (MaxErrorStreak (cfg ep)) 1));
      split; split; intros; try lia; try reflexivity; discriminate.
Qed.

Lemma breaker_opens_at_threshold_witness :
  let ep := newEndpointState (exampleConfig 10 100 30 "" 5 0 2 0 0) 0 in
  let call := (stillEnv 0 (ProbeOk 200 1) (inr (upstream_Err "boom")),
               upstream_Err "boom") in
  inCircuitOpen (afterFailures [call] ep) = 1.
Proof.
  intros ep call.
  destruct (breaker_opens_at_threshold ep eq_refl eq_refl) as [H _].
  destruct (H [call]) as (_ & [_ Hopen] & _); [cbn; lia|].
  apply Hopen. vm_compute. congruence.
Defined.

Lemma handleSuccess_open v resp ep :
  inCircuitOpen ep = 1 ->
  cfg (fst (handleSuccess v resp ep)) = cfg ep
  /\ (wrapUint32 (healthSuccessStreak ep + 1) < maxInt (RecoverySuccesses (cfg ep)) 1 ->
      inCircuitOpen (fst (handleSuccess v resp ep)) = 1
      /\ healthSuccessStreak (fst (handleSuccess v resp ep))
         = wrapUint32 (healthSuccessStreak ep + 1)
      /\ healthFailedStreak (fst (handleSuccess v resp ep)) = healthFailedStreak ep)
  /\ (maxInt (RecoverySuccesses (cfg ep)) 1 <= wrapUint32 (healthSuccessStreak ep + 1) ->
      inCircuitOpen (fst (handleSuccess v resp ep)) = 0
      /\ healthSuccessStreak (fst (handleSuccess v resp ep)) = 0
      /\ healthFailedStreak (fst (handleSuccess v resp ep)) = 0).
Proof.
  intros Ho. unfold handleSuccess. cbn. rewrite Ho. cbn.
  destruct (Z.geb_spec (wrapUint32 (healthSuccessStreak ep + 1))
              (maxInt (RecoverySuccesses (cfg ep)) 1)); cbn;
    repeat split; intros; try lia; assumption.
Qed.

Lemma handleSuccess_closed v resp ep :
  inCircuitOpen ep = 0 ->
  let ep' := fst (handleSuccess v resp ep) in
  cfg ep' = cfg ep /\ inCircuitOpen ep' = 0
  /\ healthSuccessStreak ep' = healthSuccessStreak ep
  /\ healthFailedStreak ep' = 0.
Proof. intros Ho. unfold handleSuccess. cbn. rewrite Ho. cbn. repeat split. assumption. Qed.

Lemma afterSuccesses_closed (calls : list (visitEnv * client.ChatResponse)) :
  forall ep,
    inCircuitOpen ep = 0 -> healthSuccessStreak ep = 0 -> healthFailedStreak ep = 0 ->
    let ep' := afterSuccesses calls ep in
    inCircuitOpen ep' = 0 /\ healthSuccessStreak ep' = 0 /\ healthFailedStreak ep' = 0.
Proof.
  induction calls as [|[v resp] rest IH]; intros ep Ho Hs Hf; [cbn; auto|].
  cbn [afterSuccesses].
  destruct (handleSuccess_closed v resp ep Ho) as (_ & Ho' & Hs' & Hf').
  apply IH; congruence.
Qed.

Lemma afterSuccesses_recovery (calls : list (visitEnv * client.ChatResponse)) :
  forall ep,
    let R := maxInt (RecoverySuccesses (cfg ep)) 1 in
    R < 2 ^ 32 ->
    inCircuitOpen ep = 1 ->
    0 <= healthSuccessStreak ep < R ->
    let k := healthSuccessStreak ep + Z.of_nat (length calls) in
    let ep' := afterSuccesses calls ep in
    (k < R -> inCircuitOpen ep' = 1 /\ healthSuccessStreak ep' = k
              /\ healthFailedStreak ep' = healthFailedStreak ep)
    /\ (R <= k -> inCircuitOpen ep' = 0 /\ healthSuccessStreak ep' = 0
                  /\ healthFailedStreak ep' = 0).
Proof.
  induction calls as [|[v resp] rest IH]; intros ep R HR Ho Hs k ep'.
  - subst k ep'. cbn. rewrite Z.add_0_r. split; intros; [auto|lia].
  - subst k ep'. cbn [afterSuccesses length].
    destruct (handleSuccess_open v resp ep Ho) as (Hc & Hlow & Hhigh).
    remember (fst (handleSuccess v resp ep)) as ep1 eqn:Hep1.
    rewrite wrapUint32_small in Hlow, Hhigh by (fold R; lia). fold R in Hlow, Hhigh.
    destruct (Z.lt_ge_cases (healthSuccessStreak ep + 1) R) as [Hlt|Hge].
    + destruct (Hlow Hlt) as (Ho1 & Hs1 & Hf1).
      pose proof (IH ep1) as IH1. cbn zeta in IH1. rewrite Hc in IH1. fold R in IH1.
      destruct IH1 as [IHa IHb]; [assumption|assumption|lia|].
      rewrite Hs1, Hf1 in IHa. rewrite Hs1 in IHb.
      replace (healthSuccessStreak ep + Z.of_nat (S (length rest)))
        with (healthSuccessStreak ep + 1 + Z.of_nat (length rest)) by lia.
      split; assumption.
    + destruct (Hhigh Hge) as (Ho1 & Hs1 & Hf1).
      split; [lia|]. intros _. now apply afterSuccesses_closed.
Qed.

(** X7. Half-open recovery by successful upstream calls. For an endpoint
    whose breaker is open with a zero success streak and a threshold
    [R = max(recovery_successes, 1)] below 2^32: after [k < R] consecutive
    successes the breaker is still open, the success streak is [k] and the
    health failure streak is untouched; after [k >= R] consecutive successes
    the breaker is closed and both health streaks are zero, and further
    successes keep it so. *)
Theorem breaker_closes_after_recovery (ep : endpointState)
    (calls : list (visitEnv * client.ChatResponse)) :
  inCircuitOpen ep = 1 -> healthSuccessStreak ep = 0 ->
  maxInt (RecoverySuccesses (cfg ep)) 1 < 2 ^ 32 ->
  let R := maxInt (RecoverySuccesses (cfg ep)) 1 in
  let k := Z.of_nat (length calls) in
  let ep' := afterSuccesses calls ep in
  (k < R -> inCircuitOpen ep' = 1 /\ healthSuccessStreak ep' = k
            /\ healthFailedStreak ep' = healthFailedStreak ep)
  /\ (R <= k -> inCircuitOpen ep' = 0 /\ healthSuccessStreak ep' = 0
                /\ healthFailedStreak ep' = 0).
Proof.
  intros Ho Hs HR R k ep'.
  pose proof (maxInt_ge_1 (RecoverySuccesses (cfg ep))) as H1.
  destruct (afterSuccesses_recovery calls ep HR Ho) as [A B]; [rewrite Hs; lia|].
  rewrite Hs, Z.add_0_l in A, B. split; assumption.
Qed.

Lemma breaker_closes_after_recovery_witness :
  let ep := openBreakerEndpoint 2 in
  let call := (stillEnv 0 (ProbeOk 200 1) (inl okResponse), okResponse) in
  inCircuitOpen (afterSuccesses [call; call] ep) = 0
  /\ healthFailedStreak (afterSuccesses [call; call] ep) = 0.
Proof.
  intros ep call.
  destruct (breaker_closes_after_recovery ep [call; call]) as [_ H];
    [reflexivity|reflexivity|vm_compute; reflexivity|].
  destruct H as (H1 & _ & H3); [vm_compute; congruence|].
  split; assumption.
Defined.

(** ** Health history *)

Lemma recordHealthSample_history clock ep s :
  let s' := if time.IsZero (Timestamp s)
            then {| Timestamp := clock; Success := Success s;
                    StatusCode := StatusCode s; LatencyMs := LatencyMs s;
                    Error := Error s |}
            else s in
  let h' := healthHistory (recordHealthSample clock ep s) in
  length h' = Nat.min (S (length (healthHistory ep))) 10
  /\ last h' = Some s'
  /\ suffix h' (healthHistory ep ++ [s']).
Proof.
  intros s' h'. unfold h', recordHealthSample. fold s'. cbn [healthHistory set_healthHistory].
  assert (Hlen : length (healthHistory ep ++ [s']) = S (length (healthHistory ep)))
    by (rewrite length_app; cbn; lia).
  destruct (Nat.ltb_spec 10 (length (healthHistory ep ++ [s']))) as [Hgt|Hle].
  - split; [rewrite length_drop; lia|]. split; [|apply suffix_drop].
    rewrite drop_app_le by lia. apply last_snoc.
  - split; [lia|]. split; [apply last_snoc|reflexivity].
Qed.

(** X8. The health history is a bounded log of completed probes. A probe
    that completes (an attempt succeeded, or the retries failed while the
    context was still alive) appends exactly one sample, which becomes the
    newest entry and tells whether the probe succeeded, and only the ten
    newest samples are kept, whatever the length before. A failed probe cut
    short by a done context records nothing and changes nothing: the
    context's error is returned. *)
Theorem probe_records_one_sample (ctxErr : option ctxCause) (p : probeOutcome)
    (t u : time.Time) (ep : endpointState) :
  let r := pingEndpoint ctxErr p t u ep in
  match p, ctxErr with
  | ProbeFailed _ _, Some c => r = (ep, Some (context_Err c))
  | _, _ =>
      length (healthHistory (fst r))
      = Nat.min (S (length (healthHistory ep))) 10
      /\ (length (healthHistory (fst r)) <= 10)%nat
      /\ exists s, last (healthHistory (fst r)) = Some s
           /\ Success s = match p with ProbeOk _ _ => true | _ => false end
           /\ suffix (healthHistory (fst r)) (healthHistory ep ++ [s])
  end.
Proof.
  intros r. unfold r, pingEndpoint.
  destruct p as [st lat|err lastErr].
  - cbn [fst healthHistory set_inCircuitOpen set_healthSuccessStreak
           set_healthFailedStreak].
    match goal with
    | |- context [recordHealthSample u ep ?s] =>
        destruct (recordHealthSample_history u ep s) as (H1 & H2 & H3)
    end.
    destruct ctxErr; (split; [exact H1|]; split; [rewrite H1; lia|]);
      eexists; (split; [exact H2|]); (split; [|exact H3]);
      cbn; destruct (time.IsZero t); reflexivity.
  - destruct ctxErr as [c|]; [reflexivity|].
    cbn [fst].
    match goal with
    | |- context [recordHealthSample u ?e ?s] =>
        destruct (recordHealthSample_history u e s) as (H1 & H2 & H3);
        assert (Hh : healthHistory e = healthHistory ep)
          by (destruct (_ >=? _); reflexivity)
    end.
    rewrite Hh in H1, H3.
    split; [exact H1|]. split; [rewrite H1; lia|].
    eexists. split; [exact H2|]. split; [|exact H3].
    cbn. destruct (time.IsZero t); reflexivity.
Qed.

(** ** Configuration replacement *)

(** Comparisons of binary64 values, from their specification. *)

Lemma SFcompare_antisym (x y : SpecFloat.spec_float) :
  SpecFloat.SFcompare y x = option_map CompOpp (SpecFloat.SFcompare x y).
Proof.
  destruct x as [s1|s1| |s1 m1 e1], y as [s2|s2| |s2 m2 e2]; cbn;
    try destruct s1; try destruct s2; try reflexivity.
  - rewrite (Z.compare_antisym e2 e1).
    destruct (e2 ?= e1); cbn; [|reflexivity|reflexivity].
    f_equal. rewrite CompOpp_involutive.
    exact (Pos.compare_cont_antisym m2 m1 Eq).
  - rewrite (Z.compare_antisym e2 e1).
    destruct (e2 ?= e1); cbn; [|reflexivity|reflexivity].
    f_equal. symmetry. exact (Pos.compare_cont_antisym m1 m2 Eq).
Qed.

Lemma SFcompare_refl (x : SpecFloat.spec_float) :
  x <> SpecFloat.S754_nan -> SpecFloat.SFcompare x x = Some Eq.
Proof.
  destruct x as [s|s| |s m e]; cbn; intros H; try congruence.
  - destruct s; reflexivity.
  - rewrite Z.compare_refl, Pos.compare_cont_refl. destruct s; reflexivity.
Qed.

Lemma SFcompare_None (x y : SpecFloat.spec_float) :
  SpecFloat.SFcompare x y = None
  <-> x = SpecFloat.S754_nan \/ y = SpecFloat.S754_nan.
Proof.
  destruct x, y; cbn; split; intros H; try discriminate; try (destruct H; discriminate);
    auto.
Qed.

Lemma is_nan_spec (p : float) :
  PrimFloat.is_nan p = true <-> FloatOps.Prim2SF p = SpecFloat.S754_nan.
Proof.
  unfold PrimFloat.is_nan. rewrite FloatAxioms.eqb_spec. unfold SpecFloat.SFeqb.
  split.
  - intros H. destruct (FloatOps.Prim2SF p) eqn:E; try reflexivity;
      rewrite SFcompare_refl in H by discriminate; discriminate.
  - intros ->. reflexivity.
Qed.

Lemma ltb_false_iff (x y : float) :
  PrimFloat.ltb x y = false
  <-> PrimFloat.is_nan x = true \/ PrimFloat.is_nan y = true
      \/ PrimFloat.leb y x = true.
Proof.
  rewrite !is_nan_spec, FloatAxioms.ltb_spec, FloatAxioms.leb_spec.
  unfold SpecFloat.SFltb, SpecFloat.SFleb.
  rewrite (SFcompare_antisym (FloatOps.Prim2SF x) (FloatOps.Prim2SF y)).
  pose proof (SFcompare_None (FloatOps.Prim2SF x) (FloatOps.Prim2SF y)) as HN.
  destruct (SpecFloat.SFcompare (FloatOps.Prim2SF x) (FloatOps.Prim2SF y))
    as [[| |]|]; cbn; split; intros H; try reflexivity; try discriminate; auto;
    try solve [destruct H as [H|[H|H]]; try discriminate;
               [pose proof (proj2 HN (or_introl H)) as Hc
               |pose proof (proj2 HN (or_intror H)) as Hc]; discriminate].
  destruct (proj1 HN eq_refl); auto.
Qed.

Lemma priceInRange_spec (p : float) :
  PrimFloat.ltb p 0 = false /\ PrimFloat.ltb 100 p = false <-> priceInRange p.
Proof.
  unfold priceInRange. rewrite !ltb_false_iff.
  assert (H0 : PrimFloat.is_nan 0 = false) by reflexivity.
  assert (H1 : PrimFloat.is_nan 100 = false) by reflexivity.
  rewrite H0, H1.
  destruct (PrimFloat.is_nan p); intuition congruence.
Qed.

Lemma checkPrices_None c :
  checkPrices c = None
  <-> priceInRange (InputPricePer1k c) /\ priceInRange (OutputPricePer1k c).
Proof.
  rewrite <- !priceInRange_spec. unfold checkPrices.
  destruct (PrimFloat.ltb (InputPricePer1k c) 0),
           (PrimFloat.ltb (OutputPricePer1k c) 0),
           (PrimFloat.ltb 100 (InputPricePer1k c)),
           (PrimFloat.ltb 100 (OutputPricePer1k c)); cbn;
    split; intros H; try discriminate; try reflexivity;
    try (repeat split; reflexivity);
    destruct H as [[? ?] [? ?]]; discriminate.
Qed.

Lemma checkPrices_applyDefaults c : checkPrices (applyDefaults c) = checkPrices c.
Proof. reflexivity. Qed.

Lemma applyDefaults_wellConfigured c :
  checkPrices c = None -> wellConfigured (applyDefaults c).
Proof.
  unfold checkPrices, wellConfigured. cbn.
  destruct (PrimFloat.ltb (InputPricePer1k c) 0); [discriminate|].
  destruct (PrimFloat.ltb (OutputPricePer1k c) 0); [discriminate|].
  destruct (PrimFloat.ltb 100 (InputPricePer1k c)); [discriminate|].
  destruct (PrimFloat.ltb 100 (OutputPricePer1k c)); [discriminate|].
  intros _.
  destruct (Z.eqb_spec (Priority c) 0), (Z.leb_spec (Weight c) 0),
           (Z.leb_spec (TimeoutSeconds c) 0), (Z.leb_spec (CooldownSeconds c) 0);
    repeat split; lia.
Qed.

Lemma ReplaceConfigs_loop_spec configs :
  let '(configs', out, finished) := ReplaceConfigs_loop configs in
  length configs' = length configs
  /\ (finished = true ->
      out = ReplaceDone None
      /\ configs' = map (fmap applyDefaults) configs
      /\ Forall (fun e => exists c, e = Some c /\ wellConfigured c) configs')
  /\ (finished = false ->
      out <> ReplaceDone None
      /\ Exists (fun e => match e with
                          | None => True
                          | Some c => checkPrices c <> None
                          end) configs).
Proof.
  induction configs as [|[c|] rest IH]; cbn [ReplaceConfigs_loop].
  - repeat split; try discriminate. constructor.
  - rewrite checkPrices_applyDefaults.
    destruct (checkPrices c) as [err|] eqn:Hp.
    + cbn. split; [reflexivity|]. split; [discriminate|]. intros _.
      split; [discriminate|]. constructor. congruence.
    + destruct (ReplaceConfigs_loop rest) as [[rest' out] finished].
      destruct IH as (Hl & Hdone & Hstop). cbn [length]. split; [lia|]. split.
      * intros Hf. destruct (Hdone Hf) as (-> & -> & Hall).
        repeat split. constructor; [|exact Hall].
        eexists. split; [reflexivity|]. now apply applyDefaults_wellConfigured.
      * intros Hf. destruct (Hstop Hf) as (Ho & Hex). split; [exact Ho|].
        now constructor 2.
  - cbn. split; [reflexivity|]. split; [discriminate|]. intros _.
    split; [discriminate|]. now constructor.
Qed.

(** X9. [ReplaceConfigs] validates before it writes. The repository is
    called only when every entry is a non-nil config whose prices pass both
    checks, and what it then receives is the caller's list with the defaults
    applied, every config in it having a non-zero priority, positive weight,
    timeout and cooldown, and each price either within 0..100 or a NaN; the
    answer of the repository is returned as it is. The two price checks are
    comparisons, so a config passes them exactly when each of its prices is
    within 0..100 or is a NaN: a NaN price is not refused and reaches the
    repository. If some entry is nil or fails a price check, nothing is
    handed to the repository and the call does not return success. The
    caller's list always keeps its length. *)
Theorem replace_validates_before_write (replaceAll : option (option error))
    (configs : list (option ProviderConfig)) :
  let '(configs', handed, out) := ReplaceConfigs replaceAll configs in
  length configs' = length configs
  /\ (forall written, handed = Some written ->
        written = map (fmap applyDefaults) configs
        /\ configs' = written
        /\ Forall (fun e => exists c, e = Some c /\ wellConfigured c
                                    /\ priceInRange (InputPricePer1k c)
                                    /\ priceInRange (OutputPricePer1k c)) written
        /\ exists answer, replaceAll = Some answer /\ out = ReplaceDone answer)
  /\ (Exists (fun e => match e with
                       | None => True
                       | Some c => checkPrices c <> None
                       end) configs ->
      handed = None /\ out <> ReplaceDone None)
  /\ (Forall (fun e => exists c, e = Some c /\ checkPrices c = None) configs ->
      forall answer, replaceAll = Some answer ->
        handed = Some (map (fmap applyDefaults) configs) /\ out = ReplaceDone answer)
  /\ (forall c, checkPrices c = None
                <-> priceInRange (InputPricePer1k c)
                    /\ priceInRange (OutputPricePer1k c))
  /\ (forall c, PrimFloat.is_nan (InputPricePer1k c) = true ->
                PrimFloat.is_nan (OutputPricePer1k c) = true ->
                checkPrices c = None).
Proof.
  unfold ReplaceConfigs.
  assert (Hnan : forall c, PrimFloat.is_nan (InputPricePer1k c) = true ->
                           PrimFloat.is_nan (OutputPricePer1k c) = true ->
                           checkPrices c = None).
  { intros c Hi Ho. apply checkPrices_None. split; left; assumption. }
  assert (Hrange : forall l,
             Forall (fun e => exists c, e = Some c /\ wellConfigured c) l ->
             Forall (fun e => exists c, e = Some c /\ wellConfigured c
                                        /\ priceInRange (InputPricePer1k c)
                                        /\ priceInRange (OutputPricePer1k c)) l).
  { intros l Hl. eapply Forall_impl; [exact Hl|].
    intros e He. cbn beta in He. destruct He as (c & -> & Hw). exists c.
    split; [reflexivity|]. split; [exact Hw|].
    destruct Hw as (_ & _ & _ & _ & H1 & H2 & H3 & H4).
    split; apply priceInRange_spec; split; assumption. }
  pose proof (ReplaceConfigs_loop_spec configs) as H.
  destruct (ReplaceConfigs_loop configs) as [[configs' out] finished].
  destruct H as (Hl & Hdone & Hstop).
  assert (Hclash : Forall (fun e => exists c, e = Some c /\ checkPrices c = None) configs ->
                   Exists (fun e => match e with
                                    | None => True
                                    | Some c => checkPrices c <> None
                                    end) configs -> False).
  { intros Hall Hex. apply Exists_exists in Hex as (e & Hin & He).
    rewrite Forall_forall in Hall. destruct (Hall e Hin) as (c & -> & Hc).
    congruence. }
  destruct finished.
  - destruct (Hdone eq_refl) as (-> & -> & Hall).
    assert (Hnoex : ~ Exists (fun e => match e with
                                       | None => True
                                       | Some c => checkPrices c <> None
                                       end) configs).
    { intros Hex. apply Exists_exists in Hex as (e & Hin & He).
      rewrite Forall_forall in Hall.
      destruct (Hall (applyDefaults <$> e)) as (c' & Hc' & Hw).
      { apply list_elem_of_fmap. now exists e. }
      destruct e as [c|]; [|discriminate]. cbn in Hc'. injection Hc' as <-.
      destruct Hw as (_ & _ & _ & _ & H1 & H2 & H3 & H4). cbn in H1, H2, H3, H4.
      apply He. unfold checkPrices. rewrite H1, H2, H3, H4. reflexivity. }
    destruct replaceAll as [answer|]; (split; [exact Hl|]).
    + split; [|split; [|split; [|split; [exact checkPrices_None|exact Hnan]]]].
      * intros written Hw. injection Hw as <-.
        split; [reflexivity|]. split; [reflexivity|].
        split; [exact (Hrange _ Hall)|]. now exists answer.
      * intros Hex. destruct (Hnoex Hex).
      * intros _ a Ha. injection Ha as <-. split; reflexivity.
    + split; [intros written Hw; discriminate|].
      split; [|split; [|split; [exact checkPrices_None|exact Hnan]]].
      * intros Hex. destruct (Hnoex Hex).
      * intros _ a Ha. discriminate.
  - destruct (Hstop eq_refl) as (Ho & Hex). split; [exact Hl|].
    split; [intros written Hw; discriminate|].
    split; [|split; [|split; [exact checkPrices_None|exact Hnan]]].
    + intros _. split; [reflexivity|exact Ho].
    + intros Hall. destruct (Hclash Hall Hex).
Qed.

Lemma replace_validates_before_write_witness :
  let bad := exampleConfig 0 0 0 "" 5 3 2 0 0 in
  let c := {| Name := ""; Provider := "mock"; Model := "m"; Enabled := true;
              Priority := 0; Weight := 0; TimeoutSeconds := 0;
              CooldownSeconds := 0; InputPricePer1k := 101%float;
              OutputPricePer1k := 0%float; HealthPingURL := "";
              HealthTimeoutSeconds := 5; MaxErrorStreak := 3;
              RecoverySuccesses := 2; RateLimitPerMin := 0;
              RateLimitBurst := 0 |} in
  let nanPrice :=
        {| Name := "n"; Provider := "mock"; Model := "m"; Enabled := true;
           Priority := 1; Weight := 1; TimeoutSeconds := 1;
           CooldownSeconds := 1; InputPricePer1k := PrimFloat.nan;
           OutputPricePer1k := PrimFloat.nan; HealthPingURL := "";
           HealthTimeoutSeconds := 5; MaxErrorStreak := 3;
           RecoverySuccesses := 2; RateLimitPerMin := 0;
           RateLimitBurst := 0 |} in
  snd (fst (ReplaceConfigs (Some None) [Some bad; Some c])) = None
  /\ snd (fst (ReplaceConfigs (Some None) [Some bad]))
     = Some [Some (applyDefaults bad)]
  /\ snd (fst (ReplaceConfigs (Some None) [Some nanPrice]))
     = Some [Some (applyDefaults nanPrice)].
Proof.
  intros bad c nanPrice. split; [|split].
  - pose proof (replace_validates_before_write (Some None) [Some bad; Some c]) as H.
    destruct (ReplaceConfigs (Some None) [Some bad; Some c]) as [[cs handed] out].
    destruct H as (_ & _ & H & _). apply H.
    constructor 2. constructor 1. vm_compute. discriminate.
  - pose proof (replace_validates_before_write (Some None) [Some bad]) as H.
    destruct (ReplaceConfigs (Some None) [Some bad]) as [[cs handed] out].
    destruct H as (_ & _ & _ & H & _). apply (H ltac:(repeat constructor; eexists; split; reflexivity) None eq_refl).
  - pose proof (replace_validates_before_write (Some None) [Some nanPrice]) as H.
    destruct (ReplaceConfigs (Some None) [Some nanPrice]) as [[cs handed] out].
    destruct H as (_ & _ & _ & H & _ & Hnan).
    assert (Hp : checkPrices nanPrice = None) by (apply Hnan; reflexivity).
    apply (H ltac:(repeat constructor; eexists; split; [reflexivity|exact Hp])
             None eq_refl).
Defined.

(** X10. The defaults of [ReplaceConfigs] and the defaults applied at
    dispatch time agree: for any stored config, the normalised priority, the
    effective weight and the cooldown that the dispatcher computes from it
    are the ones it computes from the config with the defaults applied, and
    on the latter they are the configured values themselves. Applying the
    defaults twice changes nothing more. *)
Theorem defaults_agree_with_dispatch (c : ProviderConfig) (now : time.Time) :
  let ep := newEndpointState c now in
  let ep' := newEndpointState (applyDefaults c) now in
  applyDefaults (applyDefaults c) = applyDefaults c
  /\ normPriority ep = normPriority ep'
  /\ normPriority ep' = Priority (applyDefaults c)
  /\ effectiveWeight ep = effectiveWeight ep'
  /\ effectiveWeight ep' = Weight (applyDefaults c)
  /\ (forall streak,
         cooldownDuration (CooldownSeconds c) streak
         = cooldownDuration (CooldownSeconds (applyDefaults c)) streak).
Proof.
  intros ep ep'. unfold ep, ep', normPriority, effectiveWeight, cooldownDuration.
  cbn [cfg newEndpointState applyDefaults Priority Weight CooldownSeconds].
  split; [|repeat split].
  - unfold applyDefaults. cbn. f_equal.
    + destruct (String.eqb_spec (Name c) ""); [|destruct (String.eqb_spec (Name c) ""); congruence].
      destruct (String.eqb_spec (Provider c) ""); congruence.
    + destruct (Z.eqb_spec (Priority c) 0); [reflexivity|].
      destruct (Z.eqb_spec (Priority c) 0); congruence.
    + destruct (Z.leb_spec (Weight c) 0); [reflexivity|].
      destruct (Z.leb_spec (Weight c) 0); [lia|reflexivity].
    + destruct (Z.leb_spec (TimeoutSeconds c) 0); [reflexivity|].
      destruct (Z.leb_spec (TimeoutSeconds c) 0); [lia|reflexivity].
    + destruct (Z.leb_spec (CooldownSeconds c) 0); [reflexivity|].
      destruct (Z.leb_spec (CooldownSeconds c) 0); [lia|reflexivity].
  - destruct (Z.eqb_spec (Priority c) 0); [reflexivity|].
    destruct (Z.eqb_spec (Priority c) 0); congruence.
  - destruct (Z.eqb_spec (Priority c) 0); [reflexivity|].
    destruct (Z.eqb_spec (Priority c) 0); congruence.
  - destruct (Z.leb_spec (Weight c) 0); [reflexivity|].
    destruct (Z.leb_spec (Weight c) 0); [lia|reflexivity].
  - destruct (Z.leb_spec (Weight c) 0); [reflexivity|].
    destruct (Z.leb_spec (Weight c) 0); [lia|reflexivity].
  - intros streak. destruct (Z.leb_spec (CooldownSeconds c) 0); [reflexivity|].
    destruct (Z.leb_spec (CooldownSeconds c) 0); [lia|reflexivity].
Qed.

(** ** Loading the registry *)

Lemma newEndpointState_fresh c t : freshEndpoint (newEndpointState c t).
Proof. unfold freshEndpoint, newEndpointState. cbn. repeat split. Qed.

Lemma loadEndpoints_loop_spec clock cfgs : forall i,
  map cfg (loadEndpoints_loop clock i cfgs) = omap keptConfig cfgs
  /\ Forall (fun ep => freshEndpoint ep
                       /\ Enabled (cfg ep) = true
                       /\ supportedProvider (Provider (cfg ep)) = true
                       /\ exists j, (i <= j < i + length cfgs)%nat
                                    /\ ep = newEndpointState (cfg ep) (clock j))
            (loadEndpoints_loop clock i cfgs).
Proof.
  induction cfgs as [|[c|] rest IH]; intros i; cbn [loadEndpoints_loop omap list_omap keptConfig length].
  - split; [reflexivity|constructor].
  - destruct (IH (S i)) as [Hm Hall].
    assert (Hshift : Forall (fun ep => freshEndpoint ep
                       /\ Enabled (cfg ep) = true
                       /\ supportedProvider (Provider (cfg ep)) = true
                       /\ exists j, (i <= j < i + S (length rest))%nat
                                    /\ ep = newEndpointState (cfg ep) (clock j))
                      (loadEndpoints_loop clock (S i) rest)).
    { eapply Forall_impl; [exact Hall|]. intros ep Hx. cbn beta in Hx.
      destruct Hx as (Hf & He & Hs & j & Hj & Hep).
      split; [exact Hf|]. split; [exact He|]. split; [exact Hs|].
      exists j. split; [lia|assumption]. }
    destruct (Enabled c) eqn:He; cbn [negb andb]; [|split; assumption].
    destruct (supportedProvider (Provider c)) eqn:Hs; cbn [negb];
      [|split; assumption].
    split; [cbn; f_equal; exact Hm|].
    constructor; [|exact Hshift].
    split; [apply newEndpointState_fresh|]. cbn [cfg newEndpointState].
    split; [exact He|]. split; [exact Hs|].
    exists i. split; [lia|reflexivity].
  - destruct (IH (S i)) as [Hm Hall]. split; [exact Hm|].
    eapply Forall_impl; [exact Hall|]. intros ep Hx. cbn beta in Hx.
      destruct Hx as (Hf & He & Hs & j & Hj & Hep).
    split; [exact Hf|]. split; [exact He|]. split; [exact Hs|].
    exists j. split; [lia|assumption].
Qed.

Lemma load_fresh_helper repo clock eps :
  loadEndpoints repo clock = inr eps -> Forall freshEndpoint eps.
Proof.
  unfold loadEndpoints. destruct repo as [[err|cfgs]|]; [discriminate| |].
  - intros H. injection H as <-.
    destruct (loadEndpoints_loop_spec clock cfgs 0) as [_ Hall].
    eapply Forall_impl; [exact Hall|]. intros ep Hx. cbn beta in Hx.
    destruct Hx as (Hf & _). exact Hf.
  - intros H. injection H as <-. constructor.
Qed.

(** X11. [loadEndpoints] keeps exactly the enabled configs with a supported
    provider, in the order of the store, and builds a fresh state for each:
    the configs of the loaded snapshot are the store's list with nil entries,
    disabled configs and configs whose provider [client.NewClient] rejects
    filtered out; every loaded endpoint has its breaker closed, no cooldown,
    zero streaks and counters and an empty history; so at any clock reading
    every loaded endpoint passes the primary gate, and when some loaded
    endpoint has a normalised priority within [math.MaxInt32] the candidate
    set of a dispatch over the fresh snapshot is not empty. A manager without
    repository loads the empty snapshot, and an error of the store is
    returned as it is. *)
Theorem load_keeps_enabled_supported (repo : configStore) (clock : nat -> time.Time) :
  match repo with
  | None => loadEndpoints repo clock = inr []
  | Some (inl err) => loadEndpoints repo clock = inl err
  | Some (inr cfgs) =>
      exists eps,
        loadEndpoints repo clock = inr eps
        /\ map cfg eps = omap keptConfig cfgs
        /\ Forall (fun ep => freshEndpoint ep
                             /\ Enabled (cfg ep) = true
                             /\ supportedProvider (Provider (cfg ep)) = true) eps
        /\ (forall now i ep, eps !! i = Some ep -> primaryGate now ep = true)
        /\ (forall now, (exists i ep, eps !! i = Some ep
                                      /\ normPriority ep <= MaxInt32) ->
                        pickCandidates eps now <> [])
  end.
Proof.
  destruct repo as [[err|cfgs]|]; try reflexivity.
  destruct (loadEndpoints_loop_spec clock cfgs 0) as [Hm Hall].
  exists (loadEndpoints_loop clock 0 cfgs). split; [reflexivity|].
  split; [exact Hm|]. split; [|split].
  - eapply Forall_impl; [exact Hall|]. intros ep Hx. cbn beta in Hx.
    destruct Hx as (Hf & He & Hs & _). auto.
  - intros now i ep Hi. rewrite Forall_forall in Hall.
    destruct (Hall ep) as ((Ho & Hc & _) & _);
      [eapply list_elem_of_lookup_2; exact Hi|].
    unfold primaryGate. rewrite Ho, Hc. reflexivity.
  - intros now (i & ep & Hi & Hb) Hnil. rewrite Forall_forall in Hall.
    destruct (Hall ep) as ((Ho & _) & _);
      [eapply list_elem_of_lookup_2; exact Hi|].
    destruct (closed_endpoint_picked _ i ep Hi) as [k Hk]; [lia|exact Hb|].
    unfold pickCandidates in Hnil.
    destruct (selectCandidates (loadEndpoints_loop clock 0 cfgs) now) as [|x xs];
      cbn [length Nat.eqb] in Hnil; [|discriminate].
    rewrite Hnil in Hk. apply elem_of_nil in Hk as [].
Qed.

(** X12. The published snapshot changes only by a successful [Reload].
    [getOrLoadEndpoints] with a published snapshot returns it and leaves it
    in place whatever the store holds by then; without one it loads once,
    and what it publishes is what every later call returns. A [Reload] that
    fails returns the store's error and keeps the snapshot that was
    published; a [Reload] that succeeds publishes a snapshot made of fresh
    endpoints only, so cooldowns, breaker state and counters of the previous
    snapshot are not carried over. *)
Theorem snapshot_changes_only_by_reload (repo repo' : configStore)
    (clock clock' : nat -> time.Time) (stored : option (list endpointState)) :
  (forall eps, stored = Some eps ->
     getOrLoadEndpoints repo clock stored = (stored, inr eps))
  /\ (forall stored1 eps,
        getOrLoadEndpoints repo clock stored = (stored1, inr eps) ->
        stored1 = Some eps
        /\ getOrLoadEndpoints repo' clock' stored1 = (stored1, inr eps))
  /\ (forall err, loadEndpoints repo clock = inl err ->
        Reload repo clock stored = (stored, Some err)
        /\ (stored = None ->
            getOrLoadEndpoints repo clock stored = (None, inl err)))
  /\ (forall stored1, Reload repo clock stored = (stored1, None) ->
        exists eps, stored1 = Some eps /\ Forall freshEndpoint eps).
Proof.
  split; [|split; [|split]].
  - intros eps ->. reflexivity.
  - intros stored1 eps H. unfold getOrLoadEndpoints in H.
    destruct stored as [eps0|].
    + injection H as <- <-. split; reflexivity.
    + unfold Reload in H. destruct (loadEndpoints repo clock) as [err|eps1];
        [discriminate|].
      injection H as <- <-. split; reflexivity.
  - intros err He. unfold getOrLoadEndpoints, Reload. rewrite He.
    split; [reflexivity|]. intros ->. reflexivity.
  - intros stored1 H. unfold Reload in H.
    destruct (loadEndpoints repo clock) as [err|eps] eqn:Hl; [discriminate|].
    injection H as <-. exists eps. split; [reflexivity|].
    pose proof (load_fresh_helper repo clock eps Hl) as Hf. exact Hf.
Qed.

Lemma load_keeps_enabled_supported_witness :
  let a := exampleConfig 10 100 30 "" 5 3 2 0 0 in
  let off := {| Name := "off"; Provider := "mock"; Model := "m"; Enabled := false;
                Priority := 1; Weight := 100; TimeoutSeconds := 30;
                CooldownSeconds := 30; InputPricePer1k := 0%float;
                OutputPricePer1k := 0%float; HealthPingURL := "";
                HealthTimeoutSeconds := 5; MaxErrorStreak := 3;
                RecoverySuccesses := 2; RateLimitPerMin := 0;
                RateLimitBurst := 0 |} in
  exists eps,
    loadEndpoints (Some (inr [Some off; None; Some a])) (fun _ => 5) = inr eps
    /\ map cfg eps = [a]
    /\ pickCandidates eps 9 <> [].
Proof.
  intros a off.
  destruct (load_keeps_enabled_supported
              (Some (inr [Some off; None; Some a])) (fun _ => 5))
    as (eps & Hl & Hm & _ & _ & Hp).
  exists eps. split; [exact Hl|]. split; [exact Hm|].
  apply Hp. unfold loadEndpoints in Hl. injection Hl as <-.
  exists 0%nat. eexists. split; [reflexivity|]. vm_compute. congruence.
Defined.

Lemma snapshot_changes_only_by_reload_witness :
  let eps := [openBreakerEndpoint 2] in
  let broken : configStore := Some (inl (upstream_Err "db down")) in
  Reload broken (fun _ => 5) (Some eps) = (Some eps, Some (upstream_Err "db down"))
  /\ getOrLoadEndpoints broken (fun _ => 5) (Some eps) = (Some eps, inr eps).
Proof.
  intros eps broken.
  destruct (snapshot_changes_only_by_reload broken broken (fun _ => 5) (fun _ => 5)
              (Some eps)) as (H1 & _ & H3 & _).
  split; [apply (H3 (upstream_Err "db down") eq_refl)|apply H1; reflexivity].
Defined.

(** ** Lifecycle *)

Lemma lifecycleStep_inv m c : lifecycleInv m -> lifecycleInv (lifecycleStep m c).
Proof.
  destruct m as [st sp lp ca su]. unfold lifecycleInv. cbn.
  intros (Hl & [Hs1 Hs2] & Hst & Hc & Hsu).
  assert (Hlp : st = false -> lp = 0%nat).
  { intros ->. destruct lp as [|[|n]]; [reflexivity| |lia].
    specialize (Hs2 eq_refl). discriminate. }
  destruct c as [ctxNil|ctxNil]; unfold lifecycleStep, Start, Stop; cbn;
    destruct st, sp, ctxNil; cbn; subst;
    try specialize (Hlp eq_refl); try specialize (Hs1 eq_refl); subst;
    repeat split; intros; try lia; try congruence; try reflexivity;
    try (apply Hst; assumption).
Qed.

Lemma lifecycleRun_inv calls : forall m, lifecycleInv m -> lifecycleInv (lifecycleRun calls m).
Proof.
  induction calls as [|c rest IH]; intros m Hm; [exact Hm|].
  cbn. apply IH. now apply lifecycleStep_inv.
Qed.

Lemma lifecycleRun_stopped calls : forall m,
  stopped m = true -> lifecycleRun calls m = m.
Proof.
  induction calls as [|c rest IH]; intros m Hs; [reflexivity|].
  cbn. assert (Hstep : lifecycleStep m c = m).
  { destruct c; unfold lifecycleStep, Start, Stop; rewrite Hs;
      [reflexivity|rewrite orb_true_r; reflexivity]. }
  rewrite Hstep. now apply IH.
Qed.

(** X13. Whatever sequence of [Start] and [Stop] calls a new manager
    receives, with nil or non-nil contexts: at most one health loop is ever
    spawned, it exists exactly when the manager is started, its context is
    cancelled and the supervisor stopped exactly when the manager is stopped,
    and once the manager is stopped every further [Start] is refused with the
    stopped error and no further call changes anything. A [Stop] before any
    [Start] leaves a manager that can still be started. *)
Theorem lifecycle_single_loop (calls : list lifecycleCall) :
  let m := lifecycleRun calls newLifecycle in
  (loops m <= 1)%nat
  /\ (started m = true <-> loops m = 1%nat)
  /\ cancelled m = stopped m
  /\ superStopped m = stopped m
  /\ (stopped m = true ->
      (forall ctxNil, Start ctxNil m = (m, Some (errorx_New Internal msgStopped)))
      /\ forall more, lifecycleRun more m = m)
  /\ (forall ctxNil, lifecycleRun [CallStop ctxNil; CallStart false] newLifecycle
                     = fst (Start false newLifecycle)).
Proof.
  intros m.
  assert (Hinv : lifecycleInv m).
  { apply lifecycleRun_inv. unfold lifecycleInv, newLifecycle. cbn.
    repeat split; intros; try lia; discriminate. }
  destruct Hinv as (Hl & Hs & Hst & Hc & Hsu).
  repeat split; try assumption; try apply Hs.
  - unfold Start. rewrite H. reflexivity.
  - intros more. now apply lifecycleRun_stopped.
Qed.

Lemma lifecycle_single_loop_witness :
  let m := lifecycleRun [CallStart false; CallStart false; CallStop true;
                         CallStart false] newLifecycle in
  loops m = 1%nat
  /\ Start false m = (m, Some (errorx_New Internal msgStopped)).
Proof.
  intros m.
  destruct (lifecycle_single_loop [CallStart false; CallStart false; CallStop true;
                                   CallStart false])
    as (_ & Hs & _ & _ & Hstop & _).
  split; [apply Hs; reflexivity|].
  apply Hstop. reflexivity.
Defined.

(** ** Health loop *)

Lemma pingEndpoint_keeps ctxErr p t u ep :
  let ep' := fst (pingEndpoint ctxErr p t u ep) in
  lastPingAt ep' = lastPingAt ep
  /\ rateTokens ep' = rateTokens ep
  /\ rateLastRefill ep' = rateLastRefill ep
  /\ rateCount ep' = rateCount ep.
Proof.
  unfold pingEndpoint. destruct p as [s l|e le]; cbn; [repeat split|].
  destruct ctxErr; cbn; [repeat split|].
  destruct (_ >=? _); cbn; repeat split.
Qed.

Lemma runHealthCheck_loop_spec env eps : forall i0,
  length (runHealthCheck_loop env i0 eps) = length eps
  /\ forall k ep, eps !! k = Some ep ->
       exists ep', runHealthCheck_loop env i0 eps !! k = Some ep'
         /\ cfg ep' = cfg ep /\ stats ep' = stats ep
         /\ cooldownUntil ep' = cooldownUntil ep
         /\ rateTokens ep' = rateTokens ep
         /\ (HealthPingURL (cfg ep) = "" -> ep' = ep)
         /\ (HealthPingURL (cfg ep) <> "" ->
             lastPingAt ep' = time.UnixNano (tickStamp (env (i0 + k)%nat))
             /\ forall status latency,
                  tickProbe (env (i0 + k)%nat) = ProbeOk status latency ->
                  inCircuitOpen ep' = 0 /\ healthFailedStreak ep' = 0
                  /\ healthSuccessStreak ep' = 0).
Proof.
  induction eps as [|ep0 rest IH]; intros i0.
  - split; [reflexivity|]. intros k ep H. discriminate.
  - destruct (IH (S i0)) as [Hl Hall]. cbn [runHealthCheck_loop].
    assert (Htail : forall hd k ep, rest !! k = Some ep ->
              exists ep', (hd :: runHealthCheck_loop env (S i0) rest) !! S k = Some ep'
                /\ cfg ep' = cfg ep /\ stats ep' = stats ep
                /\ cooldownUntil ep' = cooldownUntil ep
                /\ rateTokens ep' = rateTokens ep
                /\ (HealthPingURL (cfg ep) = "" -> ep' = ep)
                /\ (HealthPingURL (cfg ep) <> "" ->
                    lastPingAt ep' = time.UnixNano (tickStamp (env (i0 + S k)%nat))
                    /\ forall status latency,
                         tickProbe (env (i0 + S k)%nat) = ProbeOk status latency ->
                         inCircuitOpen ep' = 0 /\ healthFailedStreak ep' = 0
                         /\ healthSuccessStreak ep' = 0)).
    { intros hd k ep Hk. destruct (Hall k ep Hk) as (ep' & He' & Hrest).
      exists ep'. split; [exact He'|].
      replace (i0 + S k)%nat with (S i0 + k)%nat by lia. exact Hrest. }
    destruct (String.eqb_spec (HealthPingURL (cfg ep0)) "") as [Hu|Hu].
    + split; [cbn; lia|]. intros [|k] ep Hk; [|now apply Htail].
      cbn in Hk. injection Hk as <-. exists ep0. cbn [lookup list_lookup].
      do 5 (split; [reflexivity|]). split; [intros _; reflexivity|].
      intros Hne. congruence.
    + pose proof (pingEndpoint_frame (tickCtxErr (env i0)) (tickProbe (env i0))
                    (tickSample (env i0)) (tickRecord (env i0))
                    (set_lastPingAt (time.UnixNano (tickStamp (env i0))) ep0))
        as (Hc & Hs & Hcf).
      pose proof (pingEndpoint_keeps (tickCtxErr (env i0)) (tickProbe (env i0))
                    (tickSample (env i0)) (tickRecord (env i0))
                    (set_lastPingAt (time.UnixNano (tickStamp (env i0))) ep0))
        as (Hlp & Hrt & _).
      destruct (pingEndpoint _ _ _ _ _) as [ep1 res] eqn:Hp.
      cbn [fst] in Hc, Hs, Hcf, Hlp, Hrt.
      split; [cbn; lia|]. intros [|k] ep Hk; [|now apply Htail].
      cbn in Hk. injection Hk as <-. exists ep1. cbn [lookup list_lookup].
      split; [reflexivity|]. split; [exact Hcf|]. split; [exact Hs|].
      split; [exact Hc|]. split; [exact Hrt|].
      split; [intros He; congruence|]. intros _.
      rewrite Nat.add_0_r. split; [exact Hlp|].
      intros status latency Hok. rewrite Hok in Hp.
      pose proof (pingEndpoint_ok (tickCtxErr (env i0)) status latency
                    (tickSample (env i0)) (tickRecord (env i0))
                    (set_lastPingAt (time.UnixNano (tickStamp (env i0))) ep0))
        as (_ & _ & Ho & Hf & Hss & _).
      rewrite Hp in Ho, Hf, Hss. repeat split; assumption.
Qed.

(** X14. One tick of the health loop touches only health state. It keeps
    the number of endpoints and, for every endpoint, the configuration, the
    request statistics, the cooldown deadline and the bucket tokens; an
    endpoint without a ping URL is left exactly as it was; an endpoint with a
    ping URL gets [last_ping_at] stamped with the clock reading of its turn,
    and when its probe succeeds its breaker is closed and both health
    streaks are zero afterwards. *)
Theorem health_tick_touches_health_only (env : nat -> tickEnv)
    (eps : list endpointState) :
  let eps' := runHealthCheckOnce (inr eps) env in
  length eps' = length eps
  /\ forall k ep, eps !! k = Some ep ->
       exists ep', eps' !! k = Some ep'
         /\ cfg ep' = cfg ep /\ stats ep' = stats ep
         /\ cooldownUntil ep' = cooldownUntil ep
         /\ rateTokens ep' = rateTokens ep
         /\ (HealthPingURL (cfg ep) = "" -> ep' = ep)
         /\ (HealthPingURL (cfg ep) <> "" ->
             lastPingAt ep' = time.UnixNano (tickStamp (env k))
             /\ forall status latency,
                  tickProbe (env k) = ProbeOk status latency ->
                  inCircuitOpen ep' = 0 /\ healthFailedStreak ep' = 0
                  /\ healthSuccessStreak ep' = 0).
Proof.
  intros eps'. unfold eps', runHealthCheckOnce.
  exact (runHealthCheck_loop_spec env eps 0).
Qed.

Lemma health_tick_touches_health_only_witness :
  let c := exampleConfig 100 100 30 "http://up/health" 5 3 5 0 0 in
  let bad := (ProbeFailed (upstream_Err "status=500") None, 0) in
  let ep3 := consecutiveProbes [bad; bad; bad] (newEndpointState c 0) in
  let env := fun _ : nat =>
    {| tickStamp := 40 * time.Second; tickCtxErr := None;
       tickProbe := ProbeOk 200 3; tickSample := 40 * time.Second;
       tickRecord := 40 * time.Second |} in
  exists ep', runHealthCheckOnce (inr [ep3]) env !! 0%nat = Some ep'
    /\ inCircuitOpen ep3 = 1 /\ inCircuitOpen ep' = 0.
Proof.
  intros c bad ep3 env.
  destruct (health_tick_touches_health_only env [ep3]) as [_ H].
  destruct (H 0%nat ep3 eq_refl) as (ep' & He & _ & _ & _ & _ & _ & Hurl).
  exists ep'. split; [exact He|]. split; [reflexivity|].
  destruct Hurl as [_ Hok]; [discriminate|].
  apply (Hok 200 3 eq_refl).
Defined.

(** ** Secret masking *)

Lemma substring_all (s : string) : String.substring 0 (String.length s) s = s.
Proof. induction s as [|a s IH]; cbn; [reflexivity|]. now rewrite IH. Qed.

Lemma substring_tail (n : nat) : forall s : string,
  (n <= String.length s)%nat ->
  exists pre, s = pre +:+ String.substring n (String.length s - n) s
              /\ String.length pre = n.
Proof.
  induction n as [|n IH]; intros s Hn.
  - exists "". rewrite Nat.sub_0_r, substring_all. split; reflexivity.
  - destruct s as [|a s]; cbn in Hn; [lia|].
    destruct (IH s) as (pre & Hs & Hl); [lia|].
    exists (String a pre). split; [|cbn; now rewrite Hl].
    change (String a s = String a (pre +:+ String.substring n (String.length s - n) s)).
    now rewrite <- Hs.
Qed.

Lemma string_app_length (a b : string) :
  String.length (a +:+ b) = (String.length a + String.length b)%nat.
Proof.
  induction a as [|x a IH]; [reflexivity|].
  change (String x a +:+ b) with (String x (a +:+ b)).
  cbn [String.length]. now rewrite IH.
Qed.

(** X15. Listing the configs never shows more of an API key than its last
    four bytes. An empty key stays empty; a key of one to four bytes is
    shown as [****]; a longer key is shown as [****] followed by its last
    four bytes. So the masked key has at most eight bytes and, for a
    non-empty key, is [****] followed by a suffix of the key of at most four
    bytes that leaves at least one byte of the key out. *)
Theorem api_key_masked (key : string) :
  (key = "" -> maskAPIKey key = "")
  /\ (key <> "" -> (String.length key <= 4)%nat -> maskAPIKey key = "****")
  /\ (String.length (maskAPIKey key) <= 8)%nat
  /\ (key <> "" ->
      exists hidden shown,
        key = hidden +:+ shown
        /\ maskAPIKey key = "****" +:+ shown
        /\ (String.length shown <= 4)%nat
        /\ ((4 < String.length key)%nat ->
            String.length shown = 4%nat /\ (1 <= String.length hidden)%nat)
        /\ ((String.length key <= 4)%nat -> shown = "")).
Proof.
  unfold maskAPIKey.
  destruct (Nat.ltb_spec 4 (String.length key)) as [Hlong|Hshort].
  - destruct (substring_tail (String.length key - 4) key) as (pre & Hk & Hl); [lia|].
    replace (String.length key - (String.length key - 4))%nat with 4%nat in Hk by lia.
    set (shown := String.substring (String.length key - 4) 4 key) in *.
    assert (Hs : String.length shown = 4%nat).
    { apply (f_equal String.length) in Hk. rewrite string_app_length, Hl in Hk. lia. }
    split; [intros ->; cbn in Hlong; lia|]. split; [intros _ H; lia|].
    split; [cbn [String.append String.length]; rewrite !string_app_length; cbn; lia|].
    intros _. exists pre, shown. split; [exact Hk|]. split; [reflexivity|].
    split; [lia|]. split; [intros _; split; [exact Hs|lia]|intros H; lia].
  - destruct (String.eqb_spec key "") as [->|Hne]; cbn [negb].
    + split; [reflexivity|]. split; [congruence|]. split; [cbn; lia|]. congruence.
    + split; [congruence|]. split; [reflexivity|]. split; [cbn; lia|].
      intros _. exists key, "". split.
      * clear. induction key as [|a k IH]; [reflexivity|].
        change (String a k +:+ "") with (String a (k +:+ "")). now rewrite <- IH.
      * split; [reflexivity|]. split; [cbn; lia|].
        split; [intros H; lia|reflexivity].
Qed.

Lemma api_key_masked_witness :
  maskAPIKey "sk-live-0123456789" = "****6789" /\ maskAPIKey "abc" = "****".
Proof.
  split; [reflexivity|].
  destruct (api_key_masked "abc") as (_ & H & _).
  apply H; [discriminate|cbn; lia].
Defined.

(** ** Weighted start: range and shares *)

Lemma pickStart_loop_range eps candidates : forall i point s,
  pickStart_loop eps candidates i point = Some s ->
  s = 0%nat \/ (i <= s < i + length candidates)%nat.
Proof.
  induction candidates as [|idx rest IH]; intros i point s H; cbn in H.
  - injection H as <-. now left.
  - destruct (eps !! idx) as [ep|]; [|discriminate]. cbn in H.
    destruct (point <? effectiveWeight ep).
    + injection H as <-. right. cbn. lia.
    + destruct (IH _ _ _ H) as [->|Hr]; [now left|]. right. cbn. lia.
Qed.

(** X16. The start position is always a position of the candidate list:
    whenever [chooseWeightedStart] returns for a non-empty candidate list,
    the index is below the number of candidates, also when the weights are
    so large that their sum wraps around; for a single candidate it is 0,
    and for the candidates of a dispatch call it always returns. *)
Theorem weighted_start_in_range (eps : list endpointState) (candidates : list nat)
    (userID : Z) (now : time.Time) :
  (forall s, chooseWeightedStart eps candidates userID now = Some s ->
             candidates <> [] -> (s < length candidates)%nat)
  /\ (forall s, chooseWeightedStart eps candidates userID now = Some s ->
                length candidates = 1%nat -> s = 0%nat)
  /\ (candidates = pickCandidates eps now ->
      exists s, chooseWeightedStart eps candidates userID now = Some s).
Proof.
  assert (Hr : forall s, chooseWeightedStart eps candidates userID now = Some s ->
               candidates <> [] -> (s < length candidates)%nat).
  { intros s H Hne. unfold chooseWeightedStart in H.
    assert (Hpos : (0 < length candidates)%nat)
      by (destruct candidates; [congruence|cbn; lia]).
    destruct (length candidates =? 0)%nat; [injection H as <-; exact Hpos|].
    destruct (totalWeight_loop eps candidates 0) as [t|]; [|discriminate]. cbn in H.
    destruct (t <=? 0); [injection H as <-; exact Hpos|].
    apply pickStart_loop_range in H as [->|H]; lia. }
  split; [exact Hr|]. split.
  - intros s H Hl. assert (s < length candidates)%nat; [|lia].
    apply Hr; [exact H|]. intros ->. discriminate.
  - intros ->. apply chooseWeightedStart_Some. intros k. apply pickCandidates_valid.
Qed.

Lemma weighted_start_in_range_witness :
  let eps := [newEndpointState (exampleConfig 10 MaxInt64 30 "" 5 3 2 0 0) 0;
              newEndpointState (exampleConfig 10 MaxInt64 30 "" 5 3 2 0 0) 0] in
  exists s, chooseWeightedStart eps [0; 1]%nat 1 0 = Some s /\ (s < 2)%nat.
Proof.
  intros eps.
  destruct (weighted_start_in_range eps [0; 1]%nat 1 0) as (Hr & _ & _).
  destruct (chooseWeightedStart eps [0; 1]%nat 1 0) as [s|] eqn:Hs.
  - exists s. split; [reflexivity|]. apply (Hr s eq_refl). discriminate.
  - vm_compute in Hs. discriminate.
Defined.

Lemma sumZ_app (a b : list Z) : sumZ (a ++ b) = sumZ a + sumZ b.
Proof. unfold sumZ. induction a as [|x a IH]; cbn; [reflexivity|]. rewrite IH. lia. Qed.

Lemma sumZ_take_S (ws : list Z) (i : nat) (w : Z) :
  ws !! i = Some w -> sumZ (take (S i) ws) = sumZ (take i ws) + w.
Proof.
  intros H. rewrite (take_S_r _ _ _ H), sumZ_app. unfold sumZ. cbn. lia.
Qed.

Lemma sumZ_take_le (ws : list Z) :
  Forall (fun w => 0 < w) ws ->
  forall a b, (a <= b)%nat -> sumZ (take a ws) <= sumZ (take b ws).
Proof.
  induction 1 as [|w ws Hw Hall IH]; intros a b Hab.
  - rewrite !take_nil. lia.
  - destruct a as [|a], b as [|b]; try lia; cbn [take].
    + change (sumZ (w :: take b ws)) with (w + sumZ (take b ws)).
      pose proof (sumZ_nonneg (take b ws)) as Hn.
      assert (Forall (fun w => 0 < w) (take b ws)) by (apply Forall_take; exact Hall).
      specialize (Hn H). unfold sumZ at 1. cbn. lia.
    + change (sumZ (w :: take a ws)) with (w + sumZ (take a ws)).
      change (sumZ (w :: take b ws)) with (w + sumZ (take b ws)).
      specialize (IH a b). lia.
Qed.

(** X17. Each candidate gets exactly its weight's share of the points. For
    a candidate list of valid indices whose effective weights [ws] sum to at
    most the largest [int], and any point below the total: the second loop
    of [chooseWeightedStart] stops at candidate [i] exactly when the point
    lies in the interval of length [w_i] that starts at the sum of the
    weights before [i]. The intervals tile the range of points, so of the
    total many points exactly [w_i] select candidate [i]. *)
Theorem weighted_share (eps : list endpointState) (candidates : list nat)
    (ws : list Z) (point : Z) (i : nat) (w : Z) :
  effectiveWeights eps candidates = Some ws ->
  sumZ ws <= MaxInt64 ->
  0 <= point < sumZ ws ->
  ws !! i = Some w ->
  pickStart_loop eps candidates 0 point = Some i
  <-> sumZ (take i ws) <= point < sumZ (take i ws) + w.
Proof.
  intros Hws Hs Hp Hi.
  pose proof (effectiveWeights_pos _ _ _ Hws) as Hpos.
  destruct (pickStart_loop_spec eps candidates ws 0 point Hws Hp Hs)
    as (j & wj & Hj & Hwj & Hb).
  cbn in Hj. split.
  - intros H. rewrite H in Hj. injection Hj as <-.
    rewrite Hi in Hwj. injection Hwj as <-. exact Hb.
  - intros Hb'. rewrite Hj. f_equal.
    destruct (Nat.lt_trichotomy i j) as [Hlt|[->|Hgt]]; [exfalso|reflexivity|exfalso].
    + pose proof (sumZ_take_le ws Hpos (S i) j ltac:(lia)) as Hle.
      rewrite (sumZ_take_S ws i w Hi) in Hle. lia.
    + pose proof (sumZ_take_le ws Hpos (S j) i ltac:(lia)) as Hle.
      rewrite (sumZ_take_S ws j wj Hwj) in Hle. lia.
Qed.

Lemma weighted_share_witness :
  let eps := [newEndpointState (exampleConfig 10 100 30 "" 5 3 2 0 0) 0;
              newEndpointState (exampleConfig 10 300 30 "" 5 3 2 0 0) 0] in
  pickStart_loop eps [0; 1]%nat 0 204 = Some 1%nat.
Proof.
  intros eps.
  apply (weighted_share eps [0; 1]%nat [100; 300] 204 1 300);
    [reflexivity|vm_compute; congruence|vm_compute; split; congruence|reflexivity|].
  vm_compute. split; [congruence|reflexivity].
Defined.

(** ** The finalizer is a bijection *)

Lemma xorshift33_involutive (h : Z) :
  0 <= h < 2 ^ 64 ->
  let x := Z.lxor h (Z.shiftr h 33) in
  0 <= x < 2 ^ 64 /\ Z.lxor x (Z.shiftr x 33) = h.
Proof.
  intros Hh x.
  assert (Hhi : forall n, 64 <= n -> Z.testbit h n = false).
  { intros n Hn. destruct (Z.eq_dec h 0) as [->|Hne]; [apply Z.bits_0|].
    apply Z.bits_above_log2; [lia|].
    assert (Z.log2 h < 64) by (apply Z.log2_lt_pow2; lia). lia. }
  assert (Hx : forall n, 0 <= n ->
             Z.testbit x n = xorb (Z.testbit h n) (Z.testbit h (n + 33))).
  { intros n Hn. unfold x. rewrite Z.lxor_spec, Z.shiftr_spec by lia. reflexivity. }
  split.
  - assert (H0 : 0 <= x) by (unfold x; apply Z.lxor_nonneg;
                             pose proof (Z.shiftr_nonneg h 33); lia).
    split; [exact H0|].
    destruct (Z.eq_dec x 0) as [->|Hne]; [lia|].
    apply Z.log2_lt_pow2; [lia|].
    destruct (Z.lt_ge_cases (Z.log2 x) 64) as [|Hge]; [assumption|exfalso].
    pose proof (Z.bit_log2 x ltac:(lia)) as Hb.
    rewrite Hx in Hb by lia.
    rewrite !Hhi in Hb by lia. discriminate.
  - apply Z.bits_inj'. intros n Hn.
    rewrite Z.lxor_spec, Z.shiftr_spec by lia.
    rewrite !Hx by lia.
    replace (n + 33 + 33) with (n + 66) by lia.
    rewrite (Hhi (n + 66)) by lia.
    destruct (Z.testbit h n), (Z.testbit h (n + 33)); reflexivity.
Qed.

Lemma mul_inverse_mod (c d h : Z) :
  (c * d) mod 2 ^ 64 = 1 -> 0 <= h < 2 ^ 64 ->
  wrapUint64 (wrapUint64 (h * c) * d) = h.
Proof.
  intros Hcd Hh. unfold wrapUint64.
  rewrite Z.mul_mod_idemp_l by lia.
  rewrite <- Z.mul_assoc, <- Z.mul_mod_idemp_r, Hcd by lia.
  rewrite Z.mul_1_r. apply Z.mod_small. lia.
Qed.

Lemma unmix64_mix64 (seed : Z) : unmix64 (mix64 seed) = wrapUint64 seed.
Proof.
  unfold mix64, unmix64.
  assert (Hm : forall z, 0 <= wrapUint64 z < 2 ^ 64)
    by (intros z; unfold wrapUint64; apply Z.mod_pos_bound; lia).
  set (h0 := wrapUint64 seed). pose proof (Hm seed) as H0. fold h0 in H0.
  destruct (xorshift33_involutive h0 H0) as [H1 E1].
  set (h1 := Z.lxor h0 (Z.shiftr h0 33)) in *.
  set (h2 := wrapUint64 (h1 * 0xff51afd7ed558ccd)). pose proof (Hm (h1 * 0xff51afd7ed558ccd)) as H2.
  fold h2 in H2.
  destruct (xorshift33_involutive h2 H2) as [H3 E3].
  set (h3 := Z.lxor h2 (Z.shiftr h2 33)) in *.
  set (h4 := wrapUint64 (h3 * 0xc4ceb9fe1a85ec53)). pose proof (Hm (h3 * 0xc4ceb9fe1a85ec53)) as H4.
  fold h4 in H4.
  destruct (xorshift33_involutive h4 H4) as [H5 E5].
  set (h5 := Z.lxor h4 (Z.shiftr h4 33)) in *.
  cbn zeta. rewrite E5. unfold h4.
  rewrite (mul_inverse_mod 0xc4ceb9fe1a85ec53 0x9cb4b2f8129337db h3) by
    (try reflexivity; assumption).
  rewrite E3. unfold h2.
  rewrite (mul_inverse_mod 0xff51afd7ed558ccd 0x4f74430c22a54005 h1) by
    (try reflexivity; assumption).
  exact E1.
Qed.

(** X18. The finalizer loses nothing: [unmix64] recovers the 64-bit seed
    from its hash, so two seeds that differ modulo 2^64 never hash to the
    same value; in particular two different positive user ids (any two
    different [int64] values) get different hashes, and the hash is a 64-bit
    value. *)
Theorem mix64_injective :
  (forall seed, unmix64 (mix64 seed) = wrapUint64 seed)
  /\ (forall seed, 0 <= mix64 seed < 2 ^ 64)
  /\ (forall u1 u2,
         MinInt64 <= u1 <= MaxInt64 -> MinInt64 <= u2 <= MaxInt64 ->
         mix64 u1 = mix64 u2 -> u1 = u2).
Proof.
  split; [exact unmix64_mix64|]. split; [exact mix64_range|].
  intros u1 u2 H1 H2 H.
  assert (Hw : wrapUint64 u1 = wrapUint64 u2)
    by (rewrite <- !unmix64_mix64, H; reflexivity).
  unfold wrapUint64, MinInt64, MaxInt64 in *.
  pose proof (Z.div_mod u1 (2 ^ 64) ltac:(lia)) as D1.
  pose proof (Z.div_mod u2 (2 ^ 64) ltac:(lia)) as D2.
  pose proof (Z.mod_pos_bound u1 (2 ^ 64) ltac:(lia)) as B1.
  pose proof (Z.mod_pos_bound u2 (2 ^ 64) ltac:(lia)) as B2.
  rewrite Hw in D1, B1. nia.
Qed.

Lemma mix64_injective_witness : unmix64 (mix64 5) = 5 /\ mix64 1 <> mix64 2.
Proof.
  destruct mix64_injective as (Hinv & _ & Hinj). split.
  - rewrite Hinv. reflexivity.
  - intros H. apply Hinj in H; unfold MinInt64, MaxInt64; lia.
Defined.

(** ** The per-minute request counter *)

Lemma set_rateWindow_same (ep : endpointState) :
  set_rateWindow (rateWindowStart ep) (rateCount ep) ep = ep.
Proof. destruct ep; reflexivity. Qed.

Lemma afterBumps_same (m : Z) (times : list time.Time) : forall ep,
  Forall (fun t => minuteOf t = m) times ->
  rateWindowStart ep = m -> 0 <= rateCount ep ->
  rateCount ep + Z.of_nat (length times) <= MaxInt64 ->
  afterBumps times ep
  = set_rateWindow m (rateCount ep + Z.of_nat (length times)) ep.
Proof.
  induction times as [|t rest IH]; intros ep Hall Hw Hc Hmax.
  - cbn. rewrite Z.add_0_r, <- Hw. symmetry. apply set_rateWindow_same.
  - apply Forall_cons in Hall as [Ht Hrest]. cbn beta in Ht.
    cbn [afterBumps length] in *.
    assert (Hb : bumpRateWindow ep t = set_rateWindow m (rateCount ep + 1) ep).
    { unfold bumpRateWindow. fold (minuteOf t). rewrite Ht, Hw, Z.eqb_refl. cbn [negb].
      rewrite Hw, (wrapInt64_id (rateCount ep + 1)); [reflexivity|].
      unfold MinInt64, MaxInt64 in *. lia. }
    rewrite Hb, IH; cbn [rateWindowStart rateCount set_rateWindow];
      [|exact Hrest|reflexivity|lia|lia].
    unfold set_rateWindow. cbn. f_equal. lia.
Qed.

(** X19. The per-minute counter counts the calls of the current minute. For
    a run of [bumpRateWindow] calls whose clock readings all fall in the same
    minute [m], made on an endpoint whose counter is not negative and cannot
    overflow during the run: afterwards the window is [m] and the counter is
    the number of calls of the run, added to the previous count when the
    endpoint was already in minute [m] and starting from zero when it was in
    another minute. Nothing but the window and the counter changes. *)
Theorem rate_window_counts (ep : endpointState) (times : list time.Time) (m : Z) :
  Forall (fun t => minuteOf t = m) times -> times <> [] ->
  0 <= rateCount ep ->
  rateCount ep + Z.of_nat (length times) <= MaxInt64 ->
  let ep' := afterBumps times ep in
  rateWindowStart ep' = m
  /\ rateCount ep'
     = (if rateWindowStart ep =? m then rateCount ep else 0)
       + Z.of_nat (length times)
  /\ ep' = set_rateWindow (rateWindowStart ep') (rateCount ep') ep.
Proof.
  intros Hall Hne Hc Hmax ep'. subst ep'.
  destruct (Z.eqb_spec (rateWindowStart ep) m) as [Hw|Hw].
  - rewrite (afterBumps_same m times ep Hall Hw Hc Hmax). cbn.
    split; [reflexivity|]. split; reflexivity.
  - destruct times as [|t rest]; [congruence|].
    apply Forall_cons in Hall as [Ht Hrest]. cbn beta in Ht.
    cbn [afterBumps length] in *.
    assert (Hb : bumpRateWindow ep t = set_rateWindow m 1 ep).
    { unfold bumpRateWindow. fold (minuteOf t). rewrite Ht.
      destruct (Z.eqb_spec (rateWindowStart ep) m) as [E|_]; [congruence|].
      reflexivity. }
    rewrite Hb.
    rewrite (afterBumps_same m rest); cbn [rateWindowStart rateCount set_rateWindow];
      [|exact Hrest|reflexivity|lia|lia].
    cbn. split; [reflexivity|]. split; [lia|reflexivity].
Qed.

Lemma rate_window_counts_witness :
  let ep := newEndpointState (exampleConfig 10 100 30 "" 5 3 2 60 10) 0 in
  let ep' := afterBumps [61 * time.Second; 100 * time.Second; 119 * time.Second] ep in
  rateWindowStart ep' = 1 /\ rateCount ep' = 3.
Proof.
  intros ep ep'.
  destruct (rate_window_counts ep
              [61 * time.Second; 100 * time.Second; 119 * time.Second] 1)
    as (Hw & Hc & _).
  - repeat constructor.
  - discriminate.
  - cbn. lia.
  - vm_compute. congruence.
  - subst ep'. split; [exact Hw|]. rewrite Hc. reflexivity.
Defined.
